(** * Query algebra and benchmark inspector of resotocore: a shallow embedding

    The first part embeds [core/query/model.py] (terms, parts, queries, the
    fluent builders, variable sectioning and the ancestor/descendant
    rewriter).  The second part embeds the error and store handling of
    [resotocore/report/inspector_service.py]. *)

From Stdlib Require Import ZArith Lia.
From stdpp Require Import base option list strings gmap.

Set Warnings "-register-all".

Local Open Scope string_scope.
Local Open Scope Z_scope.

(** ** Python results: a value or a raised exception *)

Inductive Exc : Type :=
| ValueError (msg : string)
| AttributeError (msg : string)
| NotImplementedError (msg : string)
| IndexError (msg : string)
| OtherError (msg : string).

Inductive result (A : Type) : Type :=
| Ok (a : A)
| Raise (e : Exc).
Arguments Ok {A} a.
Arguments Raise {A} e.

Definition rbind {A B : Type} (m : result A) (k : A → result B) : result B :=
  match m with
  | Ok a => k a
  | Raise e => Raise e
  end.

Declare Scope res_scope.
Delimit Scope res_scope with res.
Notation "'try!' x ← m ; k" := (rbind m (λ x, k))
  (at level 10, x name, m at level 100, k at level 200) : res_scope.
Local Open Scope res_scope.

(** ** Strings: the Python string helpers the model needs *)

Module Str.

(** [name.startswith(p)] *)
Fixpoint startswith (p s : string) : bool :=
  match p with
  | EmptyString => true
  | String a p' =>
      match s with
      | EmptyString => false
      | String b s' => if Ascii.eqb a b then startswith p' s' else false
      end
  end.

(** [s[n:]] *)
Fixpoint drop (n : nat) (s : string) : string :=
  match n with
  | O => s
  | S n' => match s with
            | EmptyString => EmptyString
            | String _ s' => drop n' s'
            end
  end.

(** [needle in s] on strings *)
Fixpoint contains (needle s : string) : bool :=
  if startswith needle s then true
  else match s with
       | EmptyString => false
       | String _ s' => contains needle s'
       end.

(** [s.split(c, 1)]: the text before the first [c] and, when there is a
    [c], the text after it. *)
Fixpoint split1 (c : Ascii.ascii) (s : string) : string * option string :=
  match s with
  | EmptyString => (EmptyString, None)
  | String a s' =>
      if Ascii.eqb a c then (EmptyString, Some s')
      else let '(h, t) := split1 c s' in (String a h, t)
  end.

(** [s.split(c, 2)]: at most three pieces. *)
Definition split2 (c : Ascii.ascii) (s : string) : list string :=
  match split1 c s with
  | (a, None) => [a]
  | (a, Some rest) =>
      match split1 c rest with
      | (b, None) => [a; b]
      | (b, Some rest') => [a; b; rest']
      end
  end.

(** [sep.join(l)] *)
Fixpoint join (sep : string) (l : list string) : string :=
  match l with
  | [] => ""
  | [x] => x
  | x :: l' => x ++ sep ++ join sep l'
  end.

End Str.

(** ** Insertion-ordered dictionaries

    A Python [dict] keeps its keys in order of first insertion; assigning
    to an existing key replaces the value in place.  Where [list(d.values())]
    is observable the model keeps that order in an association list. *)

Module Dict.
Section Defs.
Context {V : Type}.

Definition t := list (string * V).

(** [d[k] = v] *)
Fixpoint set (k : string) (v : V) (d : t) : t :=
  match d with
  | [] => [(k, v)]
  | (k', v') :: d' =>
      if String.eqb k k' then (k, v) :: d' else (k', v') :: set k v d'
  end.

(** [d.pop(k, None)] *)
Fixpoint pop (k : string) (d : t) : t :=
  match d with
  | [] => []
  | (k', v') :: d' =>
      if String.eqb k k' then d' else (k', v') :: pop k d'
  end.

(** [d.get(k)] *)
Fixpoint get (k : string) (d : t) : option V :=
  match d with
  | [] => None
  | (k', v') :: d' => if String.eqb k k' then Some v' else get k d'
  end.

(** [{**d, **e}] *)
Definition update (d e : t) : t :=
  fold_left (λ acc kv, set (fst kv) (snd kv) acc) e d.

(** [{k: v for (k, v) in items}] *)
Definition of_items (items : list (string * V)) : t := update [] items.

Definition keys (d : t) : list string := map fst d.
Definition values (d : t) : list V := map snd d.
End Defs.
Arguments t : clear implicits.
End Dict.

(** ** The data model of [core/query/model.py] *)

(** [JsonElement]: the values a predicate compares with.  Numbers are the
    integers; no claim looks inside a value. *)
Inductive Json : Type :=
| JNull
| JBool (b : bool)
| JInt (n : Z)
| JStr (s : string)
| JArr (l : list Json)
| JObj (l : list (string * Json)).

(** [EdgeType.default] and [Direction]: both are plain strings in the
    source ([core/model/graph_access.py]). *)
Module EdgeType.
Definition default : string := "default".
End EdgeType.

Module Direction.
Definition inbound : string := "in".
Definition outbound : string := "out".
Definition any : string := "any".
End Direction.

Record Navigation : Type := mkNavigation {
  nav_start : Z;
  nav_until : Z;
  nav_edge_type : string;
  nav_direction : string;
}.

Definition Navigation_Max : Z := 10000.

Record WithClauseFilter : Type := mkWithClauseFilter {
  wcf_op : string;
  wcf_num : Z;
}.

Record Sort : Type := mkSort {
  sort_name : string;
  sort_order : string;
}.

Inductive SimpleValue : Type :=
| SVStr (s : string)
| SVInt (n : Z)
| SVBool (b : bool).

Record AggregateVariableName : Type := mkAggregateVariableName {
  avn_name : string;
}.

(** An element of [AggregateVariableCombined.parts]:
    [Union[str, AggregateVariableName]]. *)
Inductive AggregateVariablePart : Type :=
| AVPStr (s : string)
| AVPName (n : AggregateVariableName).

Inductive AggregateVarName : Type :=
| AVName (n : AggregateVariableName)
| AVCombined (parts : list AggregateVariablePart).

Record AggregateVariable : Type := mkAggregateVariable {
  av_name : AggregateVarName;
  av_as_name : option string;
}.

(** [AggregateFunction.name : Union[str, int]] *)
Inductive StrOrInt : Type :=
| SIStr (s : string)
| SIInt (n : Z).

Record AggregateFunction : Type := mkAggregateFunction {
  af_function : string;
  af_name : StrOrInt;
  af_ops : list (string * Z);
  af_as_name : option string;
}.

Record Aggregate : Type := mkAggregate {
  agg_group_by : list AggregateVariable;
  agg_group_func : list AggregateFunction;
}.

(** Terms, merge queries, queries, parts and with-clauses refer to each
    other, as the dataclasses do. *)
Inductive Term : Type :=
| AllTerm
| NotTerm (term : Term)
| Predicate (name : string) (op : string) (value : Json)
            (args : list (string * Json))
| CombinedTerm (left : Term) (op : string) (right : Term)
| IdTerm (id : string)
| IsTerm (kinds : list string)
| FunctionTerm (fn : string) (property_path : string) (args : list Json)
| MergeTerm (pre_filter : Term) (merge : list MergeQuery)
            (post_filter : option Term)
with MergeQuery : Type :=
| mkMergeQuery (name : string) (query : Query) (only_first : bool)
with Query : Type :=
| mkQuery (parts : list Part) (preamble : list (string * SimpleValue))
          (aggregate : option Aggregate)
with Part : Type :=
| mkPart (term : Term) (tag : option string) (with_clause : option WithClause)
         (sort : list Sort) (limit : option Z) (navigation : option Navigation)
with WithClause : Type :=
| mkWithClause (with_filter : WithClauseFilter) (navigation : Navigation)
               (term : option Term) (with_clause : option WithClause).

Definition mq_name (m : MergeQuery) : string :=
  let 'mkMergeQuery n _ _ := m in n.
Definition mq_query (m : MergeQuery) : Query :=
  let 'mkMergeQuery _ q _ := m in q.

Definition q_parts (q : Query) : list Part :=
  let 'mkQuery p _ _ := q in p.
Definition q_preamble (q : Query) : list (string * SimpleValue) :=
  let 'mkQuery _ p _ := q in p.
Definition q_aggregate (q : Query) : option Aggregate :=
  let 'mkQuery _ _ a := q in a.

Definition p_term (p : Part) : Term :=
  let 'mkPart t _ _ _ _ _ := p in t.
Definition p_tag (p : Part) : option string :=
  let 'mkPart _ t _ _ _ _ := p in t.
Definition p_with_clause (p : Part) : option WithClause :=
  let 'mkPart _ _ w _ _ _ := p in w.
Definition p_sort (p : Part) : list Sort :=
  let 'mkPart _ _ _ s _ _ := p in s.
Definition p_limit (p : Part) : option Z :=
  let 'mkPart _ _ _ _ l _ := p in l.
Definition p_navigation (p : Part) : option Navigation :=
  let 'mkPart _ _ _ _ _ n := p in n.

(** [Part(term)]: every other field takes its default. *)
Definition Part_of (t : Term) : Part := mkPart t None None [] None None.

(** [Term.and_term] and [Term.or_term] *)
Definition and_term (self other : Term) : Term :=
  match self, other with
  | AllTerm, _ => other
  | _, AllTerm => self
  | _, _ => CombinedTerm self "and" other
  end.

Definition or_term (self other : Term) : Term :=
  match self, other with
  | AllTerm, _ => self
  | _, AllTerm => other
  | _, _ => CombinedTerm self "or" other
  end.

(** ** Variable rewriting: [change_variable] on every class *)

Section ChangeVariable.
Variable fn : string → string.

Definition Sort_change_variable (s : Sort) : Sort :=
  mkSort (fn (sort_name s)) (sort_order s).

Definition AggregateVariableName_change_variable
    (n : AggregateVariableName) : AggregateVariableName :=
  mkAggregateVariableName (fn (avn_name n)).

Definition AggregateVariablePart_change_variable
    (p : AggregateVariablePart) : AggregateVariablePart :=
  match p with
  | AVPName n => AVPName (AggregateVariableName_change_variable n)
  | AVPStr s => AVPStr s
  end.

Definition AggregateVarName_change_variable
    (n : AggregateVarName) : AggregateVarName :=
  match n with
  | AVName n => AVName (AggregateVariableName_change_variable n)
  | AVCombined ps => AVCombined (map AggregateVariablePart_change_variable ps)
  end.

Definition AggregateVariable_change_variable
    (v : AggregateVariable) : AggregateVariable :=
  mkAggregateVariable (AggregateVarName_change_variable (av_name v))
                      (av_as_name v).

Definition AggregateFunction_change_variable
    (f : AggregateFunction) : AggregateFunction :=
  match af_name f with
  | SIStr s => mkAggregateFunction (af_function f) (SIStr (fn s))
                                   (af_ops f) (af_as_name f)
  | SIInt _ => f
  end.

Definition Aggregate_change_variable (a : Aggregate) : Aggregate :=
  mkAggregate (map AggregateVariable_change_variable (agg_group_by a))
              (map AggregateFunction_change_variable (agg_group_func a)).

(** [Term.change_variable], [MergeQuery.change_variable],
    [Query.change_variable], [Part.change_variable] and
    [WithClause.change_variable].  A [Query] is rebuilt with [replace],
    whose [__post_init__] accepts the mapped parts whenever it accepted
    the original ones: [map] keeps the length. *)
Fixpoint Term_change_variable (t : Term) : Term :=
  match t with
  | CombinedTerm l op r =>
      CombinedTerm (Term_change_variable l) op (Term_change_variable r)
  | Predicate name op value args => Predicate (fn name) op value args
  | FunctionTerm f path args => FunctionTerm f (fn path) args
  | MergeTerm pre merge post =>
      MergeTerm (Term_change_variable pre)
                (map MergeQuery_change_variable merge)
                (option_map Term_change_variable post)
  | NotTerm t' => NotTerm (Term_change_variable t')
  | _ => t
  end
with MergeQuery_change_variable (m : MergeQuery) : MergeQuery :=
  match m with
  | mkMergeQuery name q only_first =>
      mkMergeQuery name (Query_change_variable q) only_first
  end
with Query_change_variable (q : Query) : Query :=
  match q with
  | mkQuery parts preamble aggregate =>
      mkQuery (map Part_change_variable parts) preamble
              (option_map Aggregate_change_variable aggregate)
  end
with Part_change_variable (p : Part) : Part :=
  match p with
  | mkPart term tag wc sort limit nav =>
      mkPart (Term_change_variable term) tag
             (option_map WithClause_change_variable wc)
             (map Sort_change_variable sort) limit nav
  end
with WithClause_change_variable (w : WithClause) : WithClause :=
  match w with
  | mkWithClause wf nav term wc =>
      mkWithClause wf nav (option_map Term_change_variable term)
                   (option_map WithClause_change_variable wc)
  end.
End ChangeVariable.

(** The names [change_variable] rewrites, in the order it meets them. *)
Definition AggregateVarName_names (n : AggregateVarName) : list string :=
  match n with
  | AVName n => [avn_name n]
  | AVCombined ps =>
      flat_map (λ p, match p with
                     | AVPName n => [avn_name n]
                     | AVPStr _ => []
                     end) ps
  end.

Definition AggregateFunction_names (f : AggregateFunction) : list string :=
  match af_name f with
  | SIStr s => [s]
  | SIInt _ => []
  end.

Definition Aggregate_names (a : Aggregate) : list string :=
  (flat_map (λ v, AggregateVarName_names (av_name v)) (agg_group_by a)
   ++ flat_map AggregateFunction_names (agg_group_func a))%list.

Definition opt_names {A : Type} (names : A → list string) (o : option A)
    : list string :=
  match o with
  | Some a => names a
  | None => []
  end.

Fixpoint Term_names (t : Term) : list string :=
  match t with
  | CombinedTerm l _ r => (Term_names l ++ Term_names r)%list
  | Predicate name _ _ _ => [name]
  | FunctionTerm _ path _ => [path]
  | MergeTerm pre merge post =>
      (Term_names pre ++ flat_map MergeQuery_names merge
       ++ opt_names Term_names post)%list
  | NotTerm t' => Term_names t'
  | _ => []
  end
with MergeQuery_names (m : MergeQuery) : list string :=
  match m with
  | mkMergeQuery _ q _ => Query_names q
  end
with Query_names (q : Query) : list string :=
  match q with
  | mkQuery parts _ aggregate =>
      (flat_map Part_names parts ++ opt_names Aggregate_names aggregate)%list
  end
with Part_names (p : Part) : list string :=
  match p with
  | mkPart term _ wc sort _ _ =>
      (Term_names term ++ opt_names WithClause_names wc
       ++ map sort_name sort)%list
  end
with WithClause_names (w : WithClause) : list string :=
  match w with
  | mkWithClause _ _ term wc =>
      (opt_names Term_names term ++ opt_names WithClause_names wc)%list
  end.

(** Induction over the five classes at once, through the lists and the
    optional fields. *)
Section QueryInduction.
Variables (PT : Term → Prop) (PM : MergeQuery → Prop) (PQ : Query → Prop).
Variables (PP : Part → Prop) (PW : WithClause → Prop).

Definition opt_holds {A : Type} (P : A → Prop) (o : option A) : Prop :=
  match o with
  | Some a => P a
  | None => True
  end.

Hypothesis case_AllTerm : PT AllTerm.
Hypothesis case_NotTerm : ∀ t, PT t → PT (NotTerm t).
Hypothesis case_Predicate : ∀ n op v args, PT (Predicate n op v args).
Hypothesis case_CombinedTerm :
  ∀ l op r, PT l → PT r → PT (CombinedTerm l op r).
Hypothesis case_IdTerm : ∀ i, PT (IdTerm i).
Hypothesis case_IsTerm : ∀ ks, PT (IsTerm ks).
Hypothesis case_FunctionTerm : ∀ f p args, PT (FunctionTerm f p args).
Hypothesis case_MergeTerm :
  ∀ pre merge post,
    PT pre → Forall PM merge → opt_holds PT post →
    PT (MergeTerm pre merge post).
Hypothesis case_MergeQuery : ∀ n q o, PQ q → PM (mkMergeQuery n q o).
Hypothesis case_Query :
  ∀ parts preamble agg, Forall PP parts → PQ (mkQuery parts preamble agg).
Hypothesis case_Part :
  ∀ term tag wc sort limit nav,
    PT term → opt_holds PW wc → PP (mkPart term tag wc sort limit nav).
Hypothesis case_WithClause :
  ∀ wf nav term wc,
    opt_holds PT term → opt_holds PW wc → PW (mkWithClause wf nav term wc).

Fixpoint Term_query_ind (t : Term) : PT t :=
  match t with
  | AllTerm => case_AllTerm
  | NotTerm t' => case_NotTerm t' (Term_query_ind t')
  | Predicate n op v args => case_Predicate n op v args
  | CombinedTerm l op r =>
      case_CombinedTerm l op r (Term_query_ind l) (Term_query_ind r)
  | IdTerm i => case_IdTerm i
  | IsTerm ks => case_IsTerm ks
  | FunctionTerm f p args => case_FunctionTerm f p args
  | MergeTerm pre merge post =>
      case_MergeTerm pre merge post (Term_query_ind pre)
        ((fix go (l : list MergeQuery) : Forall PM l :=
            match l with
            | [] => List.Forall_nil PM
            | m :: l' => List.Forall_cons PM m l' (MergeQuery_query_ind m) (go l')
            end) merge)
        (match post as o return opt_holds PT o with
         | Some p => Term_query_ind p
         | None => I
         end)
  end
with MergeQuery_query_ind (m : MergeQuery) : PM m :=
  match m with
  | mkMergeQuery n q o => case_MergeQuery n q o (Query_query_ind q)
  end
with Query_query_ind (q : Query) : PQ q :=
  match q with
  | mkQuery parts preamble agg =>
      case_Query parts preamble agg
        ((fix go (l : list Part) : Forall PP l :=
            match l with
            | [] => List.Forall_nil PP
            | p :: l' => List.Forall_cons PP p l' (Part_query_ind p) (go l')
            end) parts)
  end
with Part_query_ind (p : Part) : PP p :=
  match p with
  | mkPart term tag wc sort limit nav =>
      case_Part term tag wc sort limit nav (Term_query_ind term)
        (match wc as o return opt_holds PW o with
         | Some w => WithClause_query_ind w
         | None => I
         end)
  end
with WithClause_query_ind (w : WithClause) : PW w :=
  match w with
  | mkWithClause wf nav term wc =>
      case_WithClause wf nav term wc
        (match term as o return opt_holds PT o with
         | Some t => Term_query_ind t
         | None => I
         end)
        (match wc as o return opt_holds PW o with
         | Some w' => WithClause_query_ind w'
         | None => I
         end)
  end.
End QueryInduction.

(** ** Variable sectioning *)

Definition PathRoot : string := "/".

Definition variable_to_absolute (section : option string) (name : string)
    : string :=
  if Str.startswith PathRoot name then Str.drop 1 name
  else match section with
       | Some s =>
           if negb (String.eqb s "") && negb (String.eqb s PathRoot)
           then s ++ "." ++ name
           else name
       | None => name
       end.

Definition variable_to_relative (section : string) (name : string) : string :=
  if Str.startswith PathRoot name then name
  else if Str.startswith (section ++ ".") name
       then Str.drop (String.length section + 1) name
       else PathRoot ++ name.

(** [Query.on_section] and [Query.relative_to_section] *)
Definition on_section (section : option string) (q : Query) : Query :=
  let root_or_section :=
    match section with
    | None => None
    | Some s => if String.eqb s PathRoot then None else Some s
    end in
  Query_change_variable (variable_to_absolute root_or_section) q.

Definition relative_to_section (section : string) (q : Query) : Query :=
  if negb (String.eqb section PathRoot)
  then Query_change_variable (variable_to_relative section) q
  else q.

(** The names for which making a name relative to [section] and absolute
    again gives the name back: those that carry no leading slash before or
    after the section prefix is taken off (and, for the empty section, no
    leading dot). *)
Definition section_roundtrip_safe (section name : string) : bool :=
  negb (Str.startswith PathRoot name)
  && negb (Str.startswith (section ++ "./") name)
  && negb (String.eqb section "" && Str.startswith "." name).

(** ** The fluent builders of [Query] *)

(** A builder argument is [Union[str, Term]]. *)
Inductive StrOrTerm : Type :=
| ArgTerm (t : Term)
| ArgStr (s : string).

Definition make_term (t : StrOrTerm) : Term :=
  match t with
  | ArgTerm t => t
  | ArgStr s => IsTerm [s]
  end.

(** [Query.mk_term]: [reduce] over the terms from the left. *)
Definition mk_term (term : StrOrTerm) (args : list StrOrTerm) : Term :=
  fold_left (λ l r, CombinedTerm l "and" r) (map make_term args)
            (make_term term).

(** [Query.__post_init__] *)
Definition Query_new (parts : list Part)
    (preamble : list (string * SimpleValue)) (aggregate : option Aggregate)
    : result Query :=
  match parts with
  | [] => Raise (AttributeError "Expected non empty parts but got []")
  | _ => Ok (mkQuery parts preamble aggregate)
  end.

(** [replace(self, parts=parts)] *)
Definition replace_parts (self : Query) (parts : list Part) : result Query :=
  Query_new parts (q_preamble self) (q_aggregate self).

(** [Query.by] *)
Definition Query_by (term : StrOrTerm) (terms : list StrOrTerm)
    (preamble : option (list (string * SimpleValue))) : result Query :=
  Query_new [Part_of (mk_term term terms)] (default [] preamble) None.

(** [Query.current_part]: [self.parts[0]] *)
Definition current_part (self : Query) : result Part :=
  match q_parts self with
  | p :: _ => Ok p
  | [] => Raise (IndexError "list index out of range")
  end.

(** [Query.filter] *)
Definition Query_filter (self : Query) (term : StrOrTerm)
    (terms : list StrOrTerm) : result Query :=
  let res := mk_term term terms in
  match q_parts self with
  | [] => Raise (IndexError "list index out of range")
  | first :: rest =>
      match p_navigation first with
      | None =>
          replace_parts self
            (Part_of (CombinedTerm (p_term first) "and" res) :: rest)
      | Some _ => replace_parts self (Part_of res :: first :: rest)
      end
  end.

(** [replace(p0, navigation=nav)] *)
Definition replace_navigation (p : Part) (nav : option Navigation) : Part :=
  mkPart (p_term p) (p_tag p) (p_with_clause p) (p_sort p) (p_limit p) nav.

(** [Query.traverse] *)
Definition Query_traverse (self : Query) (start until : Z)
    (edge_type direction : string) : result Query :=
  match q_parts self with
  | [] => Raise (IndexError "list index out of range")
  | p0 :: rest =>
      match p_navigation p0 with
      | Some nav =>
          if String.eqb (nav_edge_type nav) edge_type
             && String.eqb (nav_direction nav) direction
          then
            let start_m := Z.min Navigation_Max (start + nav_start nav) in
            let until_m := Z.min Navigation_Max (until + nav_until nav) in
            replace_parts self
              (replace_navigation p0
                 (Some (mkNavigation start_m until_m edge_type direction))
               :: rest)
          else
            replace_parts self
              (mkPart AllTerm None None [] None
                 (Some (mkNavigation start until edge_type direction))
               :: p0 :: rest)
      | None =>
          replace_parts self
            (replace_navigation p0
               (Some (mkNavigation start until edge_type direction))
             :: rest)
      end
  end.

Definition traverse_out (self : Query) (start until : Z) (edge_type : string)
    : result Query :=
  Query_traverse self start until edge_type Direction.outbound.

Definition traverse_in (self : Query) (start until : Z) (edge_type : string)
    : result Query :=
  Query_traverse self start until edge_type Direction.inbound.

(** ** The ancestor/descendant rewriter:
       [Part.rewrite_for_ancestors_descendants] *)

(** Modelled from the spec: [group_by] of [core/util.py], which is not part
    of the sources at hand.  It groups the items by the key [f] gives them,
    the groups in order of each key's first occurrence; an exception raised
    by [f] ends the grouping. *)
Section GroupBy.
Context {A K : Type} `{EqDecision K}.

Fixpoint group_add (k : K) (a : A) (d : list (K * list A))
    : list (K * list A) :=
  match d with
  | [] => [(k, [a])]
  | (k', l) :: d' =>
      if decide (k = k') then (k', (l ++ [a])%list) :: d'
      else (k', l) :: group_add k a d'
  end.

Definition group_by (f : A → result K) (items : list A)
    : result (list (K * list A)) :=
  fold_left (λ acc a, try! d ← acc; try! k ← f a; Ok (group_add k a d))
            items (Ok []).
End GroupBy.

Section Rewrite.
(** [GraphResolver.resolved_property_names]: a fixed set of names of
    [core/model/resolve_in_graph.py]. *)
Variable resolved_property_names : list string.

Definition is_ancestor_descendant (name : string) : bool :=
  negb (bool_decide (name ∈ resolved_property_names))
  && (Str.startswith "ancestors." name
      || Str.startswith "descendants." name).

Fixpoint has_ancestor_descendant (t : Term) : bool :=
  match t with
  | Predicate name _ _ _ => is_ancestor_descendant name
  | CombinedTerm l _ r =>
      has_ancestor_descendant l || has_ancestor_descendant r
  | MergeTerm pre _ post =>
      has_ancestor_descendant pre
      || match post with
         | Some p => has_ancestor_descendant p
         | None => false
         end
  | NotTerm t' => has_ancestor_descendant t'
  | _ => false
  end.

(** The predicates are returned as the [Predicate] terms themselves. *)
Fixpoint ancestor_descendant_predicates (t : Term) : list Term :=
  match t with
  | Predicate name _ _ _ => if is_ancestor_descendant name then [t] else []
  | CombinedTerm l _ r =>
      (ancestor_descendant_predicates l
       ++ ancestor_descendant_predicates r)%list
  | MergeTerm pre _ post =>
      (ancestor_descendant_predicates pre
       ++ match post with
          | Some p => ancestor_descendant_predicates p
          | None => []
          end)%list
  | NotTerm t' => ancestor_descendant_predicates t'
  | _ => []
  end.

(** The two [nonlocal] variables of [walk_term]. *)
Record WalkState : Type := mkWalkState {
  before_merge : Term;
  after_merge : Term;
}.

(** The [CombinedTerm] branch of [walk_term], given the walks of the two
    sides. *)
Definition walk_combined (term left right : Term) (op : string)
    (walk_left walk_right : WalkState → result WalkState)
    (st : WalkState) : result WalkState :=
  let left_has_ad := has_ancestor_descendant left in
  let right_has_ad := has_ancestor_descendant right in
  if String.eqb op "or" then
    Ok (mkWalkState (before_merge st) (and_term (after_merge st) term))
  else if left_has_ad && right_has_ad then
    try! st1 ← walk_left st; walk_right st1
  else if left_has_ad then
    walk_left (mkWalkState (and_term (before_merge st) right)
                           (after_merge st))
  else if right_has_ad then
    walk_right (mkWalkState (and_term (before_merge st) left)
                            (after_merge st))
  else Raise (NotImplementedError
                "Logic unsound. This case should not happen!").

(** [walk_term].  A [MergeTerm] with a post filter is walked in the source
    as [CombinedTerm(pre_filter, "and", post_filter)]; the recursion on
    that fresh term is written here on its two sides. *)
Fixpoint walk_term (term : Term) (st : WalkState) : result WalkState :=
  match term with
  | CombinedTerm l op r =>
      walk_combined term l r op (walk_term l) (walk_term r) st
  | MergeTerm pre _ (Some post) =>
      walk_combined (CombinedTerm pre "and" post) pre post "and"
                    (walk_term pre) (walk_term post) st
  | MergeTerm pre _ None => walk_term pre st
  | _ => Ok (mkWalkState (before_merge st) (and_term (after_merge st) term))
  end.

Definition dot : Ascii.ascii :=
  Ascii.Ascii false true true true false true false false.

(** The [ValueError] of unpacking a list of [got] values into three
    targets. *)
Definition unpack_error (got : string) : Exc :=
  ValueError ("not enough values to unpack (expected 3, got " ++ got ++ ")").

(** [anc_dec, kind, _ = predicate.name.split(".", 2)]: the split gives one,
    two or three pieces, and the unpacking needs three. *)
Definition name_predicate (predicate : Term) : result (string * string) :=
  match predicate with
  | Predicate name _ _ _ =>
      match Str.split2 dot name with
      | [anc_dec; kind; _] => Ok (anc_dec, kind)
      | [_; _] => Raise (unpack_error "2")
      | _ => Raise (unpack_error "1")
      end
  | _ => Raise (AttributeError "name")
  end.

Definition merge_query_for (key : string * string) : MergeQuery :=
  let '(anc_dec, kind) := key in
  let direction :=
    if String.eqb anc_dec "ancestors" then Direction.inbound
    else Direction.outbound in
  let navigation :=
    mkNavigation 1 Navigation_Max EdgeType.default direction in
  let subquery :=
    mkQuery [Part_of (IsTerm [kind]);
             mkPart AllTerm None None [] None (Some navigation)] [] None in
  mkMergeQuery (anc_dec ++ "." ++ kind) subquery true.

(** [{a.name: a for a in queries}] *)
Definition by_name (queries : list MergeQuery) : Dict.t MergeQuery :=
  Dict.of_items (map (λ a, (mq_name a, a)) queries).

(** [replace(self, term=t)] *)
Definition replace_term (p : Part) (t : Term) : Part :=
  mkPart t (p_tag p) (p_with_clause p) (p_sort p) (p_limit p)
         (p_navigation p).

Definition rewrite_for_ancestors_descendants (self : Part) : result Part :=
  if has_ancestor_descendant (p_term self) then
    try! st ← walk_term (p_term self) (mkWalkState AllTerm AllTerm);
    try! predicates ←
      group_by name_predicate
               (ancestor_descendant_predicates (after_merge st));
    let existing :=
      by_name (match p_term self with
               | MergeTerm _ merge _ => merge
               | _ => []
               end) in
    let created := by_name (map merge_query_for (map fst predicates)) in
    let queries := Dict.values (Dict.update created existing) in
    Ok (replace_term self
          (MergeTerm (before_merge st) queries (Some (after_merge st))))
  else Ok self.

(** The terms [walk_term] moves to [after_merge] as they are, and the shape
    of [after_merge]: such terms that hold an ancestor/descendant predicate,
    joined by [and] from the left. *)
Definition walk_leaf (t : Term) : bool :=
  match t with
  | CombinedTerm _ op _ => String.eqb op "or"
  | MergeTerm _ _ _ => false
  | _ => true
  end.

Inductive and_chain : Term → Prop :=
| chain_leaf (t : Term) :
    walk_leaf t = true → has_ancestor_descendant t = true → and_chain t
| chain_and (l r : Term) :
    and_chain l → walk_leaf r = true → has_ancestor_descendant r = true →
    and_chain (CombinedTerm l "and" r).
End Rewrite.


(** [combine_optional] of [core/util.py] is not part of the sources at hand.
    Modelled from the spec: ("concatenate sorts, take the tighter limit")
    both present and truthy combine, otherwise the one that is present. *)
Definition combine_optional {A : Type} (truthy : A → bool)
    (l r : option A) (f : A → A → A) : option A :=
  match l, r with
  | Some a, Some b =>
      if truthy a && truthy b then Some (f a b)
      else if truthy a then Some a else Some b
  | Some a, None => if truthy a then Some a else None
  | None, r => r
  end.

(** Python truthiness of an optional string and of an optional value of a
    class that defines neither [__bool__] nor [__len__]. *)
Definition truthy_str (s : string) : bool := negb (String.eqb s "").
Definition truthy_opt_str (s : option string) : bool :=
  match s with Some s => truthy_str s | None => false end.

Definition truthy_obj {A : Type} (o : option A) : bool :=
  match o with Some _ => true | None => false end.

Definition last_part (parts : list Part) : result (list Part * Part) :=
  match reverse parts with
  | p :: init => Ok (reverse init, p)
  | [] => Raise (IndexError "list index out of range")
  end.

(** [Query.combine] *)
Definition Query_combine (self other : Query) : result Query :=
  let preamble := Dict.update (q_preamble self) (q_preamble other) in
  match q_aggregate self, q_aggregate other with
  | Some _, Some _ => Raise (AttributeError "Can not combine 2 aggregations!")
  | self_agg, other_agg =>
      let aggregate :=
        match self_agg with Some a => Some a | None => other_agg end in
      try! left_last ← current_part self;
      try! split ← last_part (q_parts other);
      let '(other_init, right_first) := split in
      match p_navigation left_last with
      | Some _ =>
          Query_new (q_parts other ++ q_parts self)%list preamble aggregate
      | None =>
          if truthy_obj (p_with_clause left_last)
             && truthy_obj (p_with_clause right_first)
          then Raise (AttributeError "Can not combine 2 with clauses!")
          else
            let term := and_term (p_term left_last) (p_term right_first) in
            if truthy_opt_str (p_tag left_last)
               && truthy_opt_str (p_tag right_first)
            then Raise (AttributeError "Can not combine 2 tag clauses!")
            else
              let tag := if truthy_opt_str (p_tag left_last)
                         then p_tag left_last else p_tag right_first in
              let with_clause :=
                match p_with_clause left_last with
                | Some w => Some w
                | None => p_with_clause right_first
                end in
              let sort :=
                combine_optional (λ l, negb (bool_decide (l = [])))
                  (Some (p_sort left_last)) (Some (p_sort right_first))
                  (λ l r, (l ++ r)%list) in
              let limit :=
                combine_optional (λ n, negb (n =? 0))
                  (p_limit left_last) (p_limit right_first) Z.min in
              let combined :=
                mkPart term tag with_clause
                  (match sort with Some ((_ :: _) as l) => l | _ => [] end)
                  limit (p_navigation right_first) in
              Query_new (other_init ++ combined :: tail (q_parts self))%list
                        preamble aggregate
      end
  end.

(** [P(name).is_in(values)] and [P(name).eq(value)] *)
Definition P_is_in (name : string) (values : list Json) : Term :=
  Predicate name "in" (JArr values) [].
Definition P_eq (name : string) (value : Json) : Term :=
  Predicate name "==" value [].

(** ** The report model used by [inspector_service.py]

    The classes of [resotocore/report/__init__.py] are not part of the
    sources at hand; their fields are taken from the specification of the
    data model. *)

(** Modelled from the spec: [ReportSeverity], the enumeration
    [info, low, medium, high, critical] in declaration order, each member
    with its name as value, and its fixed priority table. *)
Inductive ReportSeverity : Type :=
| sev_info | sev_low | sev_medium | sev_high | sev_critical.

Definition ReportSeverity_members : list ReportSeverity :=
  [sev_info; sev_low; sev_medium; sev_high; sev_critical].

Definition ReportSeverity_value (s : ReportSeverity) : string :=
  match s with
  | sev_info => "info" | sev_low => "low" | sev_medium => "medium"
  | sev_high => "high" | sev_critical => "critical"
  end.

Definition prio (s : ReportSeverity) : Z :=
  match s with
  | sev_info => 0 | sev_low => 1 | sev_medium => 2
  | sev_high => 3 | sev_critical => 4
  end.

Definition Env : Type := Dict.t Json.

(** Modelled from the spec: the remediation, the detection map (with the keys
    [resoto], [resoto_cmd] and [manual]) and the check itself. *)
Record Remediation : Type := mkRemediation {
  rem_text : string;
  rem_url : string;
}.

Record Detect : Type := mkDetect {
  detect_resoto : option string;
  detect_resoto_cmd : option string;
  detect_manual : option bool;
}.

Record ReportCheck : Type := mkReportCheck {
  rc_id : string;
  rc_provider : string;
  rc_service : string;
  rc_title : string;
  rc_categories : list string;
  rc_result_kinds : list string;
  rc_severity : ReportSeverity;
  rc_risk : string;
  rc_remediation : Remediation;
  rc_detect : Detect;
  rc_default_values : option Env;
}.

(** Modelled from the spec: the benchmark tree and [nested_checks], which
    flattens the check ids of a collection and of its children. *)
Inductive CheckCollection : Type :=
| mkCheckCollection (title description : string)
                    (documentation : option string)
                    (checks : list string)
                    (children : list CheckCollection).

Fixpoint CheckCollection_nested_checks (c : CheckCollection) : list string :=
  match c with
  | mkCheckCollection _ _ _ checks children =>
      (checks ++ concat (map CheckCollection_nested_checks children))%list
  end.

Record Benchmark : Type := mkBenchmark {
  b_id : string;
  b_title : string;
  b_description : string;
  b_documentation : option string;
  b_framework : string;
  b_version : string;
  b_clouds : option (list string);
  b_checks : list string;
  b_children : list CheckCollection;
}.

Definition nested_checks (b : Benchmark) : list string :=
  (b_checks b ++ concat (map CheckCollection_nested_checks (b_children b)))%list.

(** Modelled from the spec: the override layer of the report configuration,
    with its [ignore_checks] set and the per-check variable overrides. *)
Record ReportConfig : Type := mkReportConfig {
  ignore_checks : option (list string);
  override_values : option Env;
}.

Definition check_allowed (cfg : ReportConfig) (check_id : string) : bool :=
  match ignore_checks cfg with
  | Some ignored => negb (bool_decide (check_id ∈ ignored))
  | None => true
  end.

(** ** [CheckContext] *)

Record CheckContext : Type := mkCheckContext {
  ctx_accounts : option (list string);
  ctx_severity : option ReportSeverity;
  ctx_only_failed : bool;
  ctx_parallel_checks : Z;
}.

Definition includes_severity (self : CheckContext) (severity : ReportSeverity)
    : bool :=
  match ctx_severity self with
  | None => true
  | Some own => prio own <=? prio severity
  end.

(** [[s for s in ReportSeverity if self.includes_severity(severity)]]: the
    condition of the comprehension is evaluated on the argument [severity]
    for every member [s]. *)
Definition severities_including (self : CheckContext)
    (severity : ReportSeverity) : list ReportSeverity :=
  List.filter (λ s, includes_severity self severity) ReportSeverity_members.

(** Truthiness of [Optional[List[str]]]. *)
Definition truthy_list {A : Type} (l : option (list A)) : bool :=
  match l with Some (_ :: _) => true | _ => false end.

(** The term [load_benchmarks] builds for its graph query.  [P.context] is
    not defined by the [model.py] at hand and is taken as [P_context]. *)
Definition load_benchmarks_term (P_context : string → Term → Term)
    (benchmark_names : list string) (accounts : option (list string))
    (severity : option ReportSeverity) (only_failing : bool) : Term :=
  let context := mkCheckContext accounts severity only_failing 10 in
  let term := P_is_in "benchmarks[]" (map JStr benchmark_names) in
  let term := or_term term (P_is_in "benchmark" (map JStr benchmark_names)) in
  let term :=
    match severity with
    | Some sev =>
        and_term term
          (P_is_in "severity"
             (map (λ s, JStr (ReportSeverity_value s))
                  (severities_including context sev)))
    | None => term
    end in
  let term := P_context "security.issues[]" term in
  let term :=
    if truthy_list accounts
    then and_term term
           (P_is_in "ancestors.account.reported.id"
                    (map JStr (default [] accounts)))
    else term in
  and_term term (P_eq "security.has_issues" (JBool true)).

(** Modelled from the spec: the result tree.  [filter_result] keeps, when
    [only_failed] is set, the checks with a failing resource and the
    collections that own such a check or have a surviving child. *)
Record CheckResult : Type := mkCheckResult {
  cr_check : ReportCheck;
  cr_count_by_account : Dict.t Z;
  cr_resources_failing_by_account : Dict.t (list Json);
}.

Inductive CheckCollectionResult : Type :=
| mkCheckCollectionResult (title description : string)
                          (documentation : option string)
                          (checks : list CheckResult)
                          (children : list CheckCollectionResult).

Definition ccr_checks (c : CheckCollectionResult) : list CheckResult :=
  let 'mkCheckCollectionResult _ _ _ checks _ := c in checks.
Definition ccr_children (c : CheckCollectionResult)
    : list CheckCollectionResult :=
  let 'mkCheckCollectionResult _ _ _ _ children := c in children.

Definition has_failing (c : CheckResult) : bool :=
  existsb (λ kv, 0 <? snd kv) (cr_count_by_account c).

Definition survives (c : CheckCollectionResult) : bool :=
  negb (bool_decide (ccr_checks c = []))
  || match ccr_children c with [] => false | _ => true end.

Fixpoint filter_failed (c : CheckCollectionResult) : CheckCollectionResult :=
  match c with
  | mkCheckCollectionResult title description documentation checks children =>
      mkCheckCollectionResult title description documentation
        (List.filter has_failing checks)
        (List.filter survives (map filter_failed children))
  end.

Definition filter_result (c : CheckCollectionResult) (only_failed : bool)
    : CheckCollectionResult :=
  if only_failed then filter_failed c else c.

Record BenchmarkResult : Type := mkBenchmarkResult {
  br_title : string;
  br_description : string;
  br_framework : string;
  br_version : string;
  br_documentation : option string;
  br_checks : list CheckResult;
  br_children : list CheckCollectionResult;
  br_accounts : option (list string);
  br_only_failed : bool;
  br_severity : option ReportSeverity;
  br_id : string;
}.

(** ** The inspector service *)

Inductive LogEntry : Type :=
| ErrorExecutingQuery (query : Query) (e : Exc)
| ErrorExecutingCommand (cmd : string) (e : Exc).

(** A graph-db cursor: the rows it yields and, if iterating it raises, the
    exception that ends it. *)
Record Cursor : Type := mkCursor {
  cursor_rows : list Json;
  cursor_error : option Exc;
}.

(** The collaborators and tables the service reads.  [benchmarks_from_file]
    and [checks_from_file] are the memoised predefined tables. *)
Record InspectorService : Type := mkInspectorService {
  (** [template_expander.parse_query(search, on_section, env)] *)
  parse_query : string → string → Env → result Query;
  (** [db_access.get_graph_db(graph).search_list(QueryModel(query, model))] *)
  search_list : string → Query → result Cursor;
  (** [cli.execute_cli_command(cmd, list_sink, CLIContext(env))] *)
  execute_cli_command : string → Env → result (list (list Json));
  (** [cli.evaluate_cli_command(cmd, CLIContext(env))] *)
  evaluate_cli_command : string → Env → result unit;
  benchmarks_from_file : gmap string Benchmark;
  checks_from_file : Dict.t ReportCheck;
  (** [inspection.environment(config.override_values)] *)
  environment : ReportCheck → option Env → Env;
  (** [value_in_path(resource, NodePath.ancestor_account_id)] *)
  ancestor_account_id : Json → option string;
  (** [bend(ReportResourceData, resource)] *)
  bend_resource : Json → Json;
  (** [report_config()]: the stored configuration or the safe default *)
  report_config : ReportConfig;
  (** [db_access.get_graph_db(graph).update_security_section(run_id, ...)],
      given the results its iterator is derived from *)
  update_security_section :
    string → string → Dict.t BenchmarkResult → option (list string)
    → result unit;
  uuid_str : string;
}.

(** The two stores the service writes to and reads from.  Every call that
    reaches the benchmark store is recorded. *)
Inductive BenchmarkDbCall : Type :=
| DbDelete (bid : string)
| DbUpdate (b : Benchmark).

Record Stores : Type := mkStores {
  benchmark_db : gmap string Benchmark;
  benchmark_db_calls : list BenchmarkDbCall;
  report_check_db : list ReportCheck;
}.

Definition benchmark_db_delete (bid : string) (st : Stores) : Stores :=
  mkStores (delete bid (benchmark_db st))
           (benchmark_db_calls st ++ [DbDelete bid])%list
           (report_check_db st).

Definition benchmark_db_update (b : Benchmark) (st : Stores) : Stores :=
  mkStores (<[b_id b := b]> (benchmark_db st))
           (benchmark_db_calls st ++ [DbUpdate b])%list
           (report_check_db st).

(** [filter_checks] *)
Definition passes (report_filter : option (ReportCheck → bool))
    (c : ReportCheck) : bool :=
  match report_filter with
  | None => true
  | Some f => f c
  end.

Definition filter_checks_step (report_filter : option (ReportCheck → bool))
    (result : Dict.t ReportCheck) (c : ReportCheck) : Dict.t ReportCheck :=
  let result := Dict.pop (rc_id c) result in
  if passes report_filter c then Dict.set (rc_id c) c result else result.

Definition filter_checks (self : InspectorService) (st : Stores)
    (report_filter : option (ReportCheck → bool)) : list ReportCheck :=
  let result :=
    Dict.of_items
      (map (λ c, (rc_id c, c))
           (List.filter (passes report_filter)
                        (Dict.values (checks_from_file self)))) in
  Dict.values (fold_left (filter_checks_step report_filter)
                         (report_check_db st) result).

(** [list_checks] with its local [inspection_matches] *)
Definition opt_all {A : Type} (o : option A) (f : A → bool) : bool :=
  match o with None => true | Some a => f a end.

Definition inspection_matches
    (provider service category kind : option string)
    (check_ids : option (list string)) (context : option CheckContext)
    (ignored : option (list string)) (inspection : ReportCheck) : bool :=
  opt_all provider (λ p, String.eqb p (rc_provider inspection))
  && opt_all service (λ s, String.eqb s (rc_service inspection))
  && opt_all category (λ c, bool_decide (c ∈ rc_categories inspection))
  && opt_all kind (λ k, bool_decide (k ∈ rc_result_kinds inspection))
  && opt_all check_ids (λ ids, bool_decide (rc_id inspection ∈ ids))
  && opt_all context (λ c, includes_severity c (rc_severity inspection))
  && opt_all ignored (λ ids, negb (bool_decide (rc_id inspection ∈ ids))).

Definition list_checks (self : InspectorService) (st : Stores)
    (provider service category kind : option string)
    (check_ids : option (list string)) (context : option CheckContext)
    (ignored : option (list string)) : list ReportCheck :=
  filter_checks self st
    (Some (inspection_matches provider service category kind check_ids
                              context ignored)).

(** [__validate_benchmark] *)
Definition validate_benchmark (self : InspectorService) (st : Stores)
    (benchmark : Benchmark) : list string :=
  let all_checks := map rc_id (filter_checks self st None) in
  flat_map (λ check,
              if bool_decide (check ∈ all_checks) then []
              else ["Check " ++ check
                    ++ " is defined in the benchmark but does not exist."])
           (nested_checks benchmark).

(** [delete_benchmark] *)
Definition delete_benchmark (self : InspectorService) (bid : string)
    (st : Stores) : result unit * Stores :=
  if bool_decide (is_Some (benchmarks_from_file self !! bid)) then
    (Raise (ValueError
              ("Deleting a predefined benchmark is not allowed: " ++ bid)), st)
  else (Ok (), benchmark_db_delete bid st).

(** [update_benchmark] *)
Definition update_benchmark (self : InspectorService) (benchmark : Benchmark)
    (st : Stores) : result Benchmark * Stores :=
  if bool_decide (is_Some (benchmarks_from_file self !! b_id benchmark)) then
    (Raise (ValueError
              ("Changing a predefined benchmark is not allowed: "
               ++ b_id benchmark)), st)
  else
    match validate_benchmark self st benchmark with
    | [] => (Ok benchmark, benchmark_db_update benchmark st)
    | invalid =>
        (Raise (ValueError
                  ("Benchmark " ++ b_id benchmark ++ " is invalid: "
                   ++ Str.join ", " invalid)), st)
    end.

(** [str(e)] *)
Definition Exc_str (e : Exc) : string :=
  match e with
  | ValueError m | AttributeError m | NotImplementedError m
  | IndexError m | OtherError m => m
  end.

(** [getattr(check, prop, None)] is falsy: an empty string for [id], [title]
    and [risk]; a member of [ReportSeverity] is never falsy. *)
Definition prop_missing (check : ReportCheck) (prop : string) : bool :=
  if String.eqb prop "id" then negb (truthy_str (rc_id check))
  else if String.eqb prop "title" then negb (truthy_str (rc_title check))
  else if String.eqb prop "risk" then negb (truthy_str (rc_risk check))
  else if String.eqb prop "severity" then false
  else true.

(** The messages of [__validate_check] *)
Definition err_no_detection (cid : string) : string :=
  "Check " ++ cid ++ " neither has a resoto, resoto_cmd or manual defined".
Definition err_no_result_kind (cid : string) : string :=
  "Check " ++ cid ++ " does not define any result kind".
Definition err_result_kind (cid rk : string) : string :=
  "Check " ++ cid ++ " does not detect result kind " ++ rk.
Definition err_remediation_text (cid : string) : string :=
  "Check " ++ cid ++ " does not define any remediation text".
Definition err_remediation_url (cid : string) : string :=
  "Check " ++ cid ++ " does not define any remediation url".
Definition err_prop (cid prop : string) : string :=
  "Check " ++ cid ++ " does not define prop " ++ prop.
Definition err_invalid (cid : string) (e : Exc) : string :=
  "Check " ++ cid ++ " is invalid: " ++ Exc_str e.

(** The checks of [__validate_check] that follow the detection: they extend
    [errors], [detect] being the detection string. *)
Definition validate_check_fields (check : ReportCheck) (detect : string)
    (errors : list string) : list string :=
  let cid := rc_id check in
  (errors
   ++ (if bool_decide (rc_result_kinds check = [])
       then [err_no_result_kind cid] else [])
   ++ flat_map (λ rk, if Str.contains rk detect then []
                      else [err_result_kind cid rk])
               (rc_result_kinds check)
   ++ (if truthy_str (rem_text (rc_remediation check)) then []
       else [err_remediation_text cid])
   ++ (if truthy_str (rem_url (rc_remediation check)) then []
       else [err_remediation_url cid])
   ++ flat_map (λ prop, if prop_missing check prop then [err_prop cid prop]
                        else [])
               ["id"; "title"; "risk"; "severity"])%list.

(** [if value := d.get(key)]: the value when it is present and truthy. *)
Definition get_truthy (o : option string) : option string :=
  match o with
  | Some s => if truthy_str s then Some s else None
  | None => None
  end.

(** [__validate_check].  An exception raised by the parse of the detection
    is caught by the [except] around the whole body: at that point [errors]
    is still empty. *)
Definition validate_check (self : InspectorService) (check : ReportCheck)
    : list string :=
  let env := default [] (rc_default_values check) in
  let cid := rc_id check in
  match get_truthy (detect_resoto (rc_detect check)) with
  | Some search =>
      match parse_query self search "reported" env with
      | Raise e => [err_invalid cid e]
      | Ok _ => validate_check_fields check search []
      end
  | None =>
      match get_truthy (detect_resoto_cmd (rc_detect check)) with
      | Some cmd =>
          match evaluate_cli_command self cmd env with
          | Raise e => [err_invalid cid e]
          | Ok _ => validate_check_fields check cmd []
          end
      | None =>
          if default false (detect_manual (rc_detect check)) then []
          else validate_check_fields check "" [err_no_detection cid]
      end
  end.

(** ** Evaluating checks *)

(** What iterating one of the async generators of
    [__list_failing_resources] gives: the rows it yields, the exception that
    leaves it (if one does), and what it logs. *)
Record Outcome : Type := mkOutcome {
  out_rows : list Json;
  out_raised : option Exc;
  out_log : list LogEntry;
}.

Definition account_id_prop : string := "ancestors.account.reported.id".

Definition dquote : string :=
  String (Ascii.Ascii false true false false false true false false)
         EmptyString.

(** The first statements of [perform_search]: the parse of the detection
    and the filter on the accounts.  They run before the [try]. *)
Definition prepare_search (self : InspectorService) (env : Env)
    (context : CheckContext) (search : string) : result Query :=
  try! query ← parse_query self search "reported" env;
  if truthy_list (ctx_accounts context) then
    try! by_account ←
      Query_by (ArgTerm (P_is_in account_id_prop
                           (map JStr (default [] (ctx_accounts context)))))
               [] None;
    Query_combine by_account query
  else Ok query.

(** [perform_search]: the [try] covers opening the cursor and iterating
    it. *)
Definition perform_search (self : InspectorService) (graph : string)
    (env : Env) (context : CheckContext) (search : string) : Outcome :=
  match prepare_search self env context search with
  | Raise e => mkOutcome [] (Some e) []
  | Ok query =>
      match search_list self graph query with
      | Raise e => mkOutcome [] None [ErrorExecutingQuery query e]
      | Ok cursor =>
          mkOutcome (cursor_rows cursor) None
            (match cursor_error cursor with
             | Some e => [ErrorExecutingQuery query e]
             | None => []
             end)
      end
  end.

(** The first statement of [perform_cmd]: the filter on the accounts put in
    front of the command. *)
Definition prepare_cmd (context : CheckContext) (cmd : string) : string :=
  if truthy_list (ctx_accounts context) then
    let account_list :=
      Str.join "," (map (λ a, dquote ++ a ++ dquote)
                        (default [] (ctx_accounts context))) in
    "search /" ++ account_id_prop ++ " in [" ++ account_list ++ "] | " ++ cmd
  else cmd.

(** [perform_cmd]: the command is executed before the [try]; the [try]
    covers [cli_result[0]] and the iteration of that list. *)
Definition perform_cmd (self : InspectorService) (env : Env)
    (context : CheckContext) (cmd : string) : Outcome :=
  let cmd := prepare_cmd context cmd in
  match execute_cli_command self cmd env with
  | Raise e => mkOutcome [] (Some e) []
  | Ok cli_result =>
      match cli_result with
      | rows :: _ => mkOutcome rows None []
      | [] =>
          mkOutcome [] None
            [ErrorExecutingCommand cmd
               (IndexError "list index out of range")]
      end
  end.

(** [__list_failing_resources] *)
Definition list_failing_resources_ (self : InspectorService) (graph : string)
    (inspection : ReportCheck) (config : ReportConfig)
    (context : CheckContext) : Outcome :=
  let env := environment self inspection (override_values config) in
  match get_truthy (detect_resoto (rc_detect inspection)) with
  | Some resoto_search => perform_search self graph env context resoto_search
  | None =>
      match get_truthy (detect_resoto_cmd (rc_detect inspection)) with
      | Some resoto_cmd => perform_cmd self env context resoto_cmd
      | None => mkOutcome [] None []
      end
  end.

(** [SingleCheckResult]: failing resources by account id. *)
Definition SingleCheckResult : Type := Dict.t (list Json).

(** [resources_by_account[account_id].append(...)] on a [defaultdict(list)] *)
Definition append_to (account_id : string) (row : Json)
    (d : SingleCheckResult) : SingleCheckResult :=
  Dict.set account_id (default [] (Dict.get account_id d) ++ [row])%list d.

(** The loop of [__perform_check] over the rows it receives. *)
Definition group_rows (self : InspectorService) (rows : list Json)
    : SingleCheckResult :=
  fold_left (λ acc resource,
               match ancestor_account_id self resource with
               | Some account_id =>
                   if truthy_str account_id
                   then append_to account_id (bend_resource self resource) acc
                   else acc
               | None => acc
               end)
            rows [].

(** [__perform_check]: an exception leaving the generator leaves
    [__perform_check] too. *)
Definition perform_check (self : InspectorService) (graph : string)
    (inspection : ReportCheck) (config : ReportConfig)
    (context : CheckContext) : result SingleCheckResult * list LogEntry :=
  let out := list_failing_resources_ self graph inspection config context in
  match out_raised out with
  | Some e => (Raise e, out_log out)
  | None => (Ok (group_rows self (out_rows out)), out_log out)
  end.

(** [__perform_checks].  The source maps [perform_single] over the checks
    with bounded concurrency and collects the pairs into a dict; an
    exception of any task leaves the stream and the call.  The tasks are
    taken here in list order. *)
Definition perform_checks_step (self : InspectorService) (graph : string)
    (context : CheckContext) (config : ReportConfig)
    (acc : result (Dict.t SingleCheckResult) * list LogEntry)
    (check : ReportCheck)
    : result (Dict.t SingleCheckResult) * list LogEntry :=
  match acc with
  | (Ok results, log) =>
      match perform_check self graph check config context with
      | (Ok value, l) =>
          (Ok (Dict.set (rc_id check) value results), (log ++ l)%list)
      | (Raise e, l) => (Raise e, (log ++ l)%list)
      end
  | (Raise e, log) => (Raise e, log)
  end.

Definition perform_checks (self : InspectorService) (graph : string)
    (checks : list ReportCheck) (context : CheckContext)
    (config : ReportConfig)
    : result (Dict.t SingleCheckResult) * list LogEntry :=
  fold_left (perform_checks_step self graph context config) checks
            (Ok [], []).

(** [__to_result] *)
Section ToResult.
Variable check_by_id : Dict.t ReportCheck.
Variable results : Dict.t SingleCheckResult.

Definition check_results (checks : list string) : list CheckResult :=
  flat_map (λ cid,
              match Dict.get cid check_by_id with
              | Some check =>
                  let result := default [] (Dict.get cid results) in
                  let count_by_account :=
                    map (λ kv, (fst kv, Z.of_nat (length (snd kv))))
                        result in
                  [mkCheckResult check count_by_account result]
              | None => []
              end)
           checks.

Fixpoint collection_to_result (cc : CheckCollection)
    : CheckCollectionResult :=
  match cc with
  | mkCheckCollection title description documentation checks children =>
      mkCheckCollectionResult title description documentation
        (check_results checks) (map collection_to_result children)
  end.

Definition to_result (benchmark : Benchmark) (context : CheckContext)
    : BenchmarkResult :=
  let top :=
    filter_result
      (mkCheckCollectionResult (b_title benchmark)
         (b_description benchmark) (b_documentation benchmark)
         (check_results (b_checks benchmark))
         (map collection_to_result (b_children benchmark)))
      (ctx_only_failed context) in
  mkBenchmarkResult (b_title benchmark) (b_description benchmark)
    (b_framework benchmark) (b_version benchmark)
    (b_documentation benchmark) (ccr_checks top) (ccr_children top)
    (ctx_accounts context) (ctx_only_failed context)
    (ctx_severity context) (b_id benchmark).
End ToResult.

(** [benchmark] and [__benchmarks] *)
Definition benchmark (self : InspectorService) (st : Stores) (bid : string)
    : option Benchmark :=
  match benchmark_db st !! bid with
  | Some in_db => Some in_db
  | None => benchmarks_from_file self !! bid
  end.

Definition benchmarks_by_name (self : InspectorService) (st : Stores)
    (names : list string) : Dict.t Benchmark :=
  fold_left (λ result name,
               match benchmark self st name with
               | Some b => Dict.set name b result
               | None => result
               end)
            names [].

(** The checks [perform_benchmarks] evaluates: those of the requested
    benchmarks that the configuration allows and the context includes. *)
Definition benchmark_checks (self : InspectorService) (st : Stores)
    (benchmark_names : list string) (context : CheckContext)
    : list ReportCheck :=
  let config := report_config self in
  let benchmarks := benchmarks_by_name self st benchmark_names in
  let check_ids :=
    flat_map (λ b, List.filter (check_allowed config) (nested_checks b))
             (Dict.values benchmarks) in
  list_checks self st None None None None (Some check_ids) (Some context)
              None.

(** [perform_benchmarks] *)
Definition perform_benchmarks (self : InspectorService) (st : Stores)
    (graph : string) (benchmark_names : list string)
    (accounts : option (list string)) (severity : option ReportSeverity)
    (only_failing sync_security_section : bool)
    (report_run_id : option string)
    : result (Dict.t BenchmarkResult) * list LogEntry :=
  let context := mkCheckContext accounts severity only_failing 10 in
  let config := report_config self in
  let benchmarks := benchmarks_by_name self st benchmark_names in
  let checks := benchmark_checks self st benchmark_names context in
  let check_lookup := Dict.of_items (map (λ c, (rc_id c, c)) checks) in
  match perform_checks self graph checks context config with
  | (Raise e, log) => (Raise e, log)
  | (Ok results, log) =>
      let result :=
        map (λ nb, (fst nb, to_result check_lookup results (snd nb) context))
            benchmarks in
      if sync_security_section then
        let run_id :=
          match get_truthy report_run_id with
          | Some r => r
          | None => uuid_str self
          end in
        match update_security_section self graph run_id result accounts with
        | Raise e => (Raise e, log)
        | Ok _ => (Ok result, log)
        end
      else (Ok result, log)
  end.

(** ** Further builders of [Query] *)

(** [replace(p, sort=...)], [replace(p, limit=...)], [replace(p, tag=...)]
    and [replace(p, with_clause=...)] *)
Definition replace_sort (p : Part) (sort : list Sort) : Part :=
  mkPart (p_term p) (p_tag p) (p_with_clause p) sort (p_limit p)
         (p_navigation p).
Definition replace_limit (p : Part) (limit : option Z) : Part :=
  mkPart (p_term p) (p_tag p) (p_with_clause p) (p_sort p) limit
         (p_navigation p).
Definition replace_tag (p : Part) (tag : option string) : Part :=
  mkPart (p_term p) tag (p_with_clause p) (p_sort p) (p_limit p)
         (p_navigation p).
Definition replace_with_clause (p : Part) (wc : option WithClause) : Part :=
  mkPart (p_term p) (p_tag p) wc (p_sort p) (p_limit p) (p_navigation p).

(** [Query.__change_current_part] *)
Definition change_current_part (self : Query) (fn : Part → Part)
    : result Query :=
  match q_parts self with
  | [] => Raise (IndexError "list index out of range")
  | p0 :: rest =>
      match p_navigation p0 with
      | Some _ => replace_parts self (fn (Part_of AllTerm) :: p0 :: rest)
      | None => replace_parts self (fn p0 :: rest)
      end
  end.

(** [Query.add_sort], [Query.with_limit] and [Query.tag] *)
Definition add_sort (self : Query) (name order : string) : result Query :=
  change_current_part self
    (λ p, replace_sort p (p_sort p ++ [mkSort name order])%list).

Definition with_limit (self : Query) (num : Z) : result Query :=
  change_current_part self (λ p, replace_limit p (Some num)).

Definition Query_tag (self : Query) (name : string) : result Query :=
  change_current_part self (λ p, replace_tag p (Some name)).

(** [Query.filter_with] *)
Definition filter_with (self : Query) (clause : WithClause) : result Query :=
  match q_parts self with
  | [] => Raise (IndexError "list index out of range")
  | p0 :: rest =>
      replace_parts self (replace_with_clause p0 (Some clause) :: rest)
  end.

(** [Query.group_by] *)
Definition Query_group_by (self : Query) (variables : list AggregateVariable)
    (funcs : list AggregateFunction) : result Query :=
  Query_new (q_parts self) (q_preamble self)
            (Some (mkAggregate variables funcs)).

(** [Query.merge_preamble] *)
Definition merge_preamble (self : Query)
    (preamble : list (string * SimpleValue)) : result Query :=
  let updated :=
    match q_preamble self with
    | [] => preamble
    | _ => Dict.update (q_preamble self) preamble
    end in
  Query_new (q_parts self) updated (q_aggregate self).

(** [Query.merge_query_by_name] and [Query.merge_names] *)
Definition merge_query_by_name (self : Query) : list MergeQuery :=
  flat_map (λ part, match p_term part with
                    | MergeTerm _ merge _ => merge
                    | _ => []
                    end)
           (q_parts self).

Definition merge_names (self : Query) : gset string :=
  list_to_set (map mq_name (merge_query_by_name self)).

(** [Query.predicates] with its local [walk] *)
Fixpoint Term_predicates (t : Term) : list Term :=
  match t with
  | Predicate _ _ _ _ => [t]
  | CombinedTerm l _ r => (Term_predicates l ++ Term_predicates r)%list
  | MergeTerm pre _ post =>
      (Term_predicates pre
       ++ match post with
          | Some p => Term_predicates p
          | None => []
          end)%list
  | NotTerm t' => Term_predicates t'
  | _ => []
  end.

Definition Query_predicates (self : Query) : list Term :=
  flat_map (λ part, Term_predicates (p_term part)) (q_parts self).

(** The names for which making a name absolute on [section] and relative
    again gives the name back: a name without a leading slash, or a rooted
    name whose remainder would not be taken for a rooted or a section
    name. *)
Definition section_absolute_safe (section name : string) : bool :=
  if Str.startswith PathRoot name
  then negb (Str.startswith PathRoot (Str.drop 1 name))
       && negb (Str.startswith (section ++ ".") (Str.drop 1 name))
  else true.

(** [self.term.merge if isinstance(self.term, MergeTerm) else []] *)
Definition Part_merge (p : Part) : list MergeQuery :=
  match p_term p with
  | MergeTerm _ merge _ => merge
  | _ => []
  end.

(** ** Sample data *)

Definition sample_check (id search : string) (severity : ReportSeverity)
    : ReportCheck :=
  mkReportCheck id "aws" "ec2" ("title of " ++ id) ["security"] ["volume"]
    severity "some risk" (mkRemediation "fix it" "https://example.org")
    (mkDetect (Some search) None None) None.

Definition sample_cmd_check (id cmd : string) : ReportCheck :=
  mkReportCheck id "aws" "ec2" ("title of " ++ id) ["security"] ["volume"]
    sev_medium "some risk" (mkRemediation "fix it" "https://example.org")
    (mkDetect None (Some cmd) None) None.

Definition sample_manual_check (id : string) : ReportCheck :=
  mkReportCheck id "aws" "ec2" EmptyString ["security"] []
    sev_medium EmptyString (mkRemediation EmptyString EmptyString)
    (mkDetect None None (Some true)) None.

Definition sample_benchmark (id : string) (checks : list string)
    : Benchmark :=
  mkBenchmark id id "a benchmark" None "resoto" "1.0" (Some ["aws"]) checks
              [].

Definition sample_row (account : string) : Json :=
  JObj [("account", JStr account)].

(** A service whose template expander rejects every detection that
    contains [((], whose cursor fails to open for [is(broken)] and fails
    after one row for [is(flaky)], and whose CLI rejects [boom]. *)
Definition sample_service : InspectorService :=
  mkInspectorService
    (λ search _ _,
       if Str.contains "((" search
       then Raise (OtherError "can not parse")
       else Ok (mkQuery [Part_of (IsTerm [search])] [] None))
    (λ _ query,
       match q_parts query with
       | [mkPart (IsTerm ["broken"]) _ _ _ _ _] =>
           Raise (OtherError "cursor failed")
       | [mkPart (IsTerm ["flaky"]) _ _ _ _ _] =>
           Ok (mkCursor [sample_row "sub_root"]
                        (Some (OtherError "connection lost")))
       | _ => Ok (mkCursor [sample_row "sub_root"; sample_row "sub_root"]
                           None)
       end)
    (λ cmd _,
       if String.eqb cmd "boom" then Raise (OtherError "command failed")
       else Ok [[sample_row "sub_root"]])
    (λ cmd _,
       if String.eqb cmd "boom" then Raise (OtherError "command failed")
       else Ok ())
    {[ "aws_test" := sample_benchmark "aws_test" ["good"; "unparsable"];
       "aws_cursor" := sample_benchmark "aws_cursor"
                         ["good"; "broken"; "flaky"] ]}
    [("good", sample_check "good" "volume" sev_high);
     ("unparsable", sample_check "unparsable" "is((volume" sev_high);
     ("broken", sample_check "broken" "broken" sev_low);
     ("flaky", sample_check "flaky" "flaky" sev_low);
     ("shadowed", sample_check "shadowed" "volume" sev_high)]
    (λ check overrides, default [] (rc_default_values check))
    (λ row, match row with
            | JObj [(_, JStr account)] => Some account
            | _ => None
            end)
    (λ row, row)
    (mkReportConfig None None)
    (λ _ _ _ _, Ok ())
    "00000000-0000-0000-0000-000000000000".

(** A table of resolved property names: the id and the name of the cloud,
    account, region and zone ancestors, which the graph stores on every
    node. *)
Definition sample_resolved : list string :=
  flat_map (λ kind, ["ancestors." ++ kind ++ ".reported.id";
                     "ancestors." ++ kind ++ ".reported.name"])
           ["cloud"; "account"; "region"; "zone"].

Definition sample_stores : Stores :=
  mkStores {[ "user_defined" := sample_benchmark "user_defined"
                                 ["extra"; "cli_boom"] ]}
           []
           [sample_check "shadowed" "volume" sev_info;
            sample_check "extra" "volume" sev_critical;
            sample_cmd_check "cli_boom" "boom"].

(** A store whose benchmark [mixed] holds a command the CLI executes, a
    manual check and the predefined search [broken], whose cursor fails to
    open. *)
Definition sample_mixed_stores : Stores :=
  mkStores {[ "mixed" := sample_benchmark "mixed"
                           ["cli_ok"; "manual"; "broken"] ]}
           []
           [sample_cmd_check "cli_ok" "list"; sample_manual_check "manual"].

(** * Properties *)

(** ** Builders *)

Lemma replace_parts_cons (q : Query) (p : Part) (ps : list Part) :
  replace_parts q (p :: ps)
  = Ok (mkQuery (p :: ps) (q_preamble q) (q_aggregate q)).
Proof. reflexivity. Qed.

Lemma current_part_inv (q : Query) (p : Part) :
  current_part q = Ok p → ∃ rest, q_parts q = p :: rest.
Proof.
  unfold current_part. destruct (q_parts q) as [|p0 rest]; [discriminate|].
  intros [= ->]. by exists rest.
Qed.

(** C5. On a query whose current part has no navigation, two
    [traverse_out(a, b)] on one edge type succeed; the second keeps the number
    of parts of the first, and the current part then carries the navigation
    with [start = min(Max, 2a)] and [until = min(Max, 2b)]. *)
Theorem traverse_out_twice_composes
    (q : Query) (p : Part) (a b : Z) (edge_type : string) :
  current_part q = Ok p →
  p_navigation p = None →
  ∃ q1 q2 p2,
    traverse_out q a b edge_type = Ok q1
    ∧ traverse_out q1 a b edge_type = Ok q2
    ∧ length (q_parts q2) = length (q_parts q1)
    ∧ current_part q2 = Ok p2
    ∧ p_navigation p2
      = Some (mkNavigation (Z.min Navigation_Max (2 * a))
                           (Z.min Navigation_Max (2 * b))
                           edge_type Direction.outbound).
Proof.
  intros Hcur Hnav. apply current_part_inv in Hcur as [rest Hparts].
  unfold traverse_out, Query_traverse. rewrite Hparts, Hnav.
  rewrite replace_parts_cons. eexists _, _, _. split; [reflexivity|].
  cbn [q_parts replace_navigation p_navigation nav_edge_type nav_direction
       nav_start nav_until].
  rewrite !String.eqb_refl. cbn [andb]. rewrite replace_parts_cons.
  split; [reflexivity|]. split; [reflexivity|]. split; [reflexivity|].
  cbn [p_navigation replace_navigation]. do 3 f_equal; lia.
Qed.

Lemma traverse_out_twice_composes_witness :
  ∃ q1 q2 p2,
    traverse_out (mkQuery [Part_of (IsTerm ["aws_instance"])] [] None)
                 1 7000 EdgeType.default = Ok q1
    ∧ traverse_out q1 1 7000 EdgeType.default = Ok q2
    ∧ length (q_parts q2) = length (q_parts q1)
    ∧ current_part q2 = Ok p2
    ∧ p_navigation p2
      = Some (mkNavigation (Z.min Navigation_Max (2 * 1))
                           (Z.min Navigation_Max (2 * 7000))
                           EdgeType.default Direction.outbound).
Proof.
  apply (traverse_out_twice_composes
           (mkQuery [Part_of (IsTerm ["aws_instance"])] [] None)
           (Part_of (IsTerm ["aws_instance"])) 1 7000 EdgeType.default);
    reflexivity.
Defined.

(** C4. [filter] on a part without navigation builds a fresh [Part] from the
    conjunction alone: on a part that carries a tag, a sort and a limit the
    result has none of them. *)
Theorem filter_resets_part_attributes :
  Query_filter
    (mkQuery [mkPart (IsTerm ["volume"]) (Some "t") None
                     [mkSort "name" "asc"] (Some 5) None]
             [] None)
    (ArgTerm (P_eq "a" (JInt 1))) []
  = Ok (mkQuery [mkPart (CombinedTerm (IsTerm ["volume"]) "and"
                                      (P_eq "a" (JInt 1)))
                        None None [] None None]
                [] None).
Proof. reflexivity. Qed.

(** What [filter] does keep on that path: the other parts, the preamble and
    the aggregate; the new term is the conjunction. *)
Lemma filter_frame (q : Query) (p : Part) (t : StrOrTerm)
    (ts : list StrOrTerm) :
  current_part q = Ok p →
  p_navigation p = None →
  ∃ q', Query_filter q t ts = Ok q'
        ∧ q_parts q'
          = Part_of (CombinedTerm (p_term p) "and" (mk_term t ts))
            :: tail (q_parts q)
        ∧ q_preamble q' = q_preamble q
        ∧ q_aggregate q' = q_aggregate q.
Proof.
  intros Hcur Hnav. apply current_part_inv in Hcur as [rest Hparts].
  unfold Query_filter. rewrite Hparts, Hnav, replace_parts_cons.
  eexists. by repeat split.
Qed.

(** ** Severity clause of [load_benchmarks] *)

Lemma severities_including_own (accounts : option (list string))
    (sev : ReportSeverity) (only_failed : bool) (n : Z) :
  severities_including (mkCheckContext accounts (Some sev) only_failed n) sev
  = ReportSeverity_members.
Proof.
  unfold severities_including, includes_severity. cbn [ctx_severity].
  rewrite (proj2 (Z.leb_le _ _) (Z.le_refl _)). reflexivity.
Qed.

(** C3. With the threshold [critical], the severity clause [load_benchmarks]
    puts under [security.issues[]] lists all five severities, the four below
    the threshold included. *)
Theorem load_benchmarks_severity_clause_lists_all
    (P_context : string → Term → Term) (names : list string)
    (only_failing : bool) :
  load_benchmarks_term P_context names None (Some sev_critical) only_failing
  = and_term
      (P_context "security.issues[]"
         (CombinedTerm
            (CombinedTerm (P_is_in "benchmarks[]" (map JStr names)) "or"
                          (P_is_in "benchmark" (map JStr names)))
            "and"
            (P_is_in "severity"
               [JStr "info"; JStr "low"; JStr "medium"; JStr "high";
                JStr "critical"])))
      (P_eq "security.has_issues" (JBool true)).
Proof.
  unfold load_benchmarks_term. rewrite severities_including_own. reflexivity.
Qed.

(** ** The merge query of the ancestor/descendant rewriter *)

Lemma is_ancestor_descendant_unresolved (resolved : list string)
    (name : string) :
  name ∉ resolved →
  is_ancestor_descendant resolved name
  = Str.startswith "ancestors." name || Str.startswith "descendants." name.
Proof.
  intros H. unfold is_ancestor_descendant.
  by rewrite (bool_decide_eq_false_2 _ H).
Qed.

Lemma is_ancestor_descendant_other (resolved : list string) (name : string) :
  Str.startswith "ancestors." name = false →
  Str.startswith "descendants." name = false →
  is_ancestor_descendant resolved name = false.
Proof.
  intros H1 H2. unfold is_ancestor_descendant. rewrite H1, H2.
  apply andb_false_r.
Qed.

Lemma split1_undotted (kind rest : string) :
  Str.contains "." kind = false →
  Str.split1 dot (kind ++ "." ++ rest) = (kind, Some rest).
Proof.
  induction kind as [|a kind IH]; intros H; [reflexivity|].
  change (String a kind ++ "." ++ rest)
    with (String a (kind ++ "." ++ rest)).
  cbn [Str.split1].
  change (Str.contains "." (String a kind))
    with (if (if Ascii.eqb dot a then true else false) then true
          else Str.contains "." kind) in H.
  rewrite Ascii.eqb_sym.
  destruct (Ascii.eqb dot a); [discriminate H|].
  by rewrite (IH H).
Qed.

(** The name [ancestors.<kind>.<path>] unpacks to the key
    [(ancestors, <kind>)]. *)
Lemma name_predicate_ancestors (kind path op : string) (value : Json)
    (args : list (string * Json)) :
  Str.contains "." kind = false →
  name_predicate (Predicate ("ancestors." ++ kind ++ "." ++ path) op value
                            args)
  = Ok ("ancestors"%string, kind).
Proof.
  intros H. unfold name_predicate, Str.split2.
  change (Str.split1 dot ("ancestors." ++ kind ++ "." ++ path))
    with ("ancestors"%string, Some (kind ++ "." ++ path)).
  cbn iota. by rewrite (split1_undotted kind path H).
Qed.

(** C2. For every name [ancestors.<kind>.<path>] that is not a resolved
    property name, a part whose term is a predicate on that name in
    conjunction with a term free of ancestor/descendant predicates (such as
    [ancestors.account.reported.kind == prod and k == 1]) is rewritten to a
    merge term: the other term is the pre filter, the predicate the post
    filter, and the one merge query, named [ancestors.<kind>], navigates
    inbound from the all-matching part to [is(<kind>)] with depth 1..Max:
    the navigation starts at 1, not at 0. *)
Theorem rewrite_ancestor_example_starts_at_one
    (resolved : list string) (p : Part) (kind path op : string)
    (value : Json) (args : list (string * Json)) (other : Term) :
  let predicate :=
    Predicate ("ancestors." ++ kind ++ "." ++ path) op value args in
  Str.contains "." kind = false →
  "ancestors." ++ kind ++ "." ++ path ∉ resolved →
  has_ancestor_descendant resolved other = false →
  p_term p = and_term predicate other →
  rewrite_for_ancestors_descendants resolved p
  = Ok (replace_term p
          (MergeTerm
             other
             [mkMergeQuery ("ancestors." ++ kind)
                (mkQuery
                   [Part_of (IsTerm [kind]);
                    mkPart AllTerm None None [] None
                      (Some (mkNavigation 1 Navigation_Max EdgeType.default
                                          Direction.inbound))]
                   [] None)
                true]
             (Some predicate))).
Proof.
  intros predicate Hkind Hres Hother Hterm.
  assert (is_ancestor_descendant resolved
            ("ancestors." ++ kind ++ "." ++ path) = true) as Ha.
  { by rewrite (is_ancestor_descendant_unresolved resolved _ Hres). }
  assert (group_by name_predicate [predicate]
          = Ok [(("ancestors"%string, kind), [predicate])]) as Hgroup.
  { unfold group_by, predicate. cbn [fold_left rbind].
    by rewrite (name_predicate_ancestors kind path op value args Hkind). }
  unfold rewrite_for_ancestors_descendants. rewrite Hterm.
  destruct other; unfold predicate in *;
    cbn [and_term has_ancestor_descendant walk_term walk_combined
         String.eqb Ascii.eqb Bool.eqb] in *;
    rewrite ?Ha, ?Hother;
    cbn [orb andb rbind before_merge after_merge and_term
         ancestor_descendant_predicates];
    rewrite ?Ha, Hgroup; reflexivity.
Qed.

Lemma rewrite_ancestor_example_starts_at_one_witness :
  rewrite_for_ancestors_descendants sample_resolved
    (Part_of (and_term
                (P_eq "ancestors.account.reported.kind" (JStr "prod"))
                (P_eq "k" (JInt 1))))
  = Ok (Part_of
          (MergeTerm
             (P_eq "k" (JInt 1))
             [mkMergeQuery "ancestors.account"
                (mkQuery
                   [Part_of (IsTerm ["account"]);
                    mkPart AllTerm None None [] None
                      (Some (mkNavigation 1 Navigation_Max EdgeType.default
                                          Direction.inbound))]
                   [] None)
                true]
             (Some (P_eq "ancestors.account.reported.kind" (JStr "prod"))))).
Proof.
  apply (rewrite_ancestor_example_starts_at_one sample_resolved
           (Part_of (and_term
                       (P_eq "ancestors.account.reported.kind" (JStr "prod"))
                       (P_eq "k" (JInt 1))))
           "account" "reported.kind" "==" (JStr "prod") []
           (P_eq "k" (JInt 1))).
  - reflexivity.
  - vm_compute. intros H.
    repeat (apply elem_of_cons in H as [H|H]; [discriminate H|]).
    by apply elem_of_nil in H.
  - reflexivity.
  - reflexivity.
Defined.

(** A resolved name is no ancestor predicate: under a table that resolves
    [ancestors.account.reported.name] the part with that name comes back as
    it is. *)
Example rewrite_keeps_resolved_names :
  rewrite_for_ancestors_descendants sample_resolved
    (Part_of (and_term
                (P_eq "ancestors.account.reported.name" (JStr "prod"))
                (P_eq "k" (JInt 1))))
  = Ok (Part_of (and_term
                   (P_eq "ancestors.account.reported.name" (JStr "prod"))
                   (P_eq "k" (JInt 1)))).
Proof. reflexivity. Qed.

(** ** Facts on insertion-ordered dictionaries *)

Local Open Scope list_scope.

Section DictFacts.
Context {V : Type}.
Implicit Types (d e : Dict.t V) (k : string) (v : V).

Lemma dict_set_cons_ne k v k0 v0 d :
  k ≠ k0 → Dict.set k v ((k0, v0) :: d) = (k0, v0) :: Dict.set k v d.
Proof.
  intros H. cbn. by rewrite (proj2 (String.eqb_neq _ _) H).
Qed.

Lemma dict_set_fresh k v d :
  k ∉ Dict.keys d → Dict.set k v d = (d ++ [(k, v)])%list.
Proof.
  induction d as [|[k0 v0] d IH]; intros H; [done|].
  cbn in H. apply not_elem_of_cons in H as [Hne Hd].
  rewrite dict_set_cons_ne by done. cbn. by rewrite IH.
Qed.

Lemma dict_keys_set k v d :
  Dict.keys (Dict.set k v d)
  = if decide (k ∈ Dict.keys d) then Dict.keys d
    else (Dict.keys d ++ [k])%list.
Proof.
  induction d as [|[k0 v0] d IH]; cbn.
  - case_decide as H; [by apply elem_of_nil in H|done].
  - destruct (String.eqb_spec k k0) as [->|Hne]; cbn.
    + rewrite decide_True by left. done.
    + fold (Dict.keys d). fold (Dict.keys (Dict.set k v d)). rewrite IH.
      destruct (decide (k ∈ Dict.keys d)) as [Hin|Hnin].
      * rewrite decide_True by (by right). done.
      * rewrite decide_False; [done|].
        intros [?|?]%elem_of_cons; done.
Qed.

Lemma dict_keys_set_prefix k v d :
  Dict.keys d `prefix_of` Dict.keys (Dict.set k v d).
Proof.
  rewrite dict_keys_set. case_decide; [done|]. by apply prefix_app_r.
Qed.

Lemma dict_set_NoDup k v d :
  NoDup (Dict.keys d) → NoDup (Dict.keys (Dict.set k v d)).
Proof.
  intros H. rewrite dict_keys_set. case_decide as Hin; [done|].
  apply NoDup_app. split_and!; [done| |apply NoDup_singleton].
  intros x Hx ->%list_elem_of_singleton. done.
Qed.

Lemma dict_key_elem_of k v d : (k, v) ∈ d → k ∈ Dict.keys d.
Proof. intros H. apply list_elem_of_fmap. by exists (k, v). Qed.

Lemma dict_elem_of_set k v d k' v' :
  NoDup (Dict.keys d) →
  (k', v') ∈ Dict.set k v d →
  (k', v') = (k, v) ∨ ((k', v') ∈ d ∧ k' ≠ k).
Proof.
  induction d as [|[k0 v0] d IH]; cbn; intros Hnd.
  - intros ->%list_elem_of_singleton. by left.
  - apply NoDup_cons in Hnd as [Hk0 Hnd].
    destruct (String.eqb_spec k k0) as [->|Hne].
    + intros [->|Hin]%elem_of_cons; [by left|]. right.
      split; [by right|]. intros ->. by apply dict_key_elem_of in Hin.
    + intros [[= -> ->]|Hin]%elem_of_cons.
      * right. split; [by left|done].
      * destruct (IH Hnd Hin) as [?|[? ?]]; [by left|].
        right. split; [by right|done].
Qed.

Lemma dict_elem_of_pop k d k' v' :
  NoDup (Dict.keys d) →
  (k', v') ∈ Dict.pop k d → (k', v') ∈ d ∧ k' ≠ k.
Proof.
  induction d as [|[k0 v0] d IH]; cbn; intros Hnd.
  - by intros ?%elem_of_nil.
  - apply NoDup_cons in Hnd as [Hk0 Hnd].
    destruct (String.eqb_spec k k0) as [->|Hne].
    + intros Hin. split; [by right|].
      intros ->. by apply dict_key_elem_of in Hin.
    + intros [[= -> ->]|Hin]%elem_of_cons.
      * split; [by left|done].
      * destruct (IH Hnd Hin). split; [by right|done].
Qed.

Lemma dict_pop_NoDup k d :
  NoDup (Dict.keys d) → NoDup (Dict.keys (Dict.pop k d)).
Proof.
  induction d as [|[k0 v0] d IH]; cbn; [done|].
  intros [Hk0 Hnd]%NoDup_cons.
  destruct (String.eqb_spec k k0) as [->|Hne]; [done|].
  cbn. apply NoDup_cons. split; [|by apply IH].
  intros [[k1 v1] [Hk Hin]]%list_elem_of_fmap. cbn in Hk. subst k1.
  apply dict_elem_of_pop in Hin as [Hin _]; [|done].
  by apply dict_key_elem_of in Hin.
Qed.

Lemma dict_update_snoc d e k v :
  Dict.update d (e ++ [(k, v)]) = Dict.set k v (Dict.update d e).
Proof. unfold Dict.update. by rewrite fold_left_app. Qed.

Lemma dict_update_cons d e k v :
  Dict.update d ((k, v) :: e) = Dict.update (Dict.set k v d) e.
Proof. reflexivity. Qed.

Lemma dict_update_NoDup d e :
  NoDup (Dict.keys d) → NoDup (Dict.keys (Dict.update d e)).
Proof.
  revert d. induction e as [|[k v] e IH]; intros d Hd; [done|].
  rewrite dict_update_cons. apply IH. by apply dict_set_NoDup.
Qed.

Lemma dict_update_keys_prefix d e :
  Dict.keys d `prefix_of` Dict.keys (Dict.update d e).
Proof.
  revert d. induction e as [|[k v] e IH]; intros d; [done|].
  rewrite dict_update_cons. etrans; [|apply IH].
  apply dict_keys_set_prefix.
Qed.

(** Setting the items of a dictionary without repeated keys, one after
    the other, on top of entries with other keys appends them. *)
Lemma dict_update_fresh d e :
  NoDup (Dict.keys (d ++ e)) → Dict.update d e = (d ++ e)%list.
Proof.
  revert d. induction e as [|[k v] e IH]; intros d Hnd.
  - by rewrite app_nil_r.
  - rewrite dict_update_cons.
    assert (k ∉ Dict.keys d) as Hk.
    { unfold Dict.keys in Hnd. rewrite fmap_app in Hnd.
      apply NoDup_app in Hnd as (_ & Hdis & _).
      intros Hin. apply (Hdis _ Hin). by left. }
    rewrite (dict_set_fresh _ _ _ Hk), IH, <- app_assoc; [done|].
    by rewrite <- app_assoc.
Qed.

Lemma dict_update_head k v0 v d e :
  k ∉ Dict.keys e →
  Dict.update ((k, v) :: d) e = (k, v) :: Dict.update d e.
Proof.
  revert d. induction e as [|[k1 v1] e IH]; intros d Hk; [done|].
  cbn in Hk. apply not_elem_of_cons in Hk as [Hne Hk].
  rewrite !dict_update_cons, dict_set_cons_ne by done. by apply IH.
Qed.

(** [{**x, **d}] is [d] when the keys of [x] are the first keys of [d]. *)
Lemma dict_update_prefix x d :
  NoDup (Dict.keys d) →
  Dict.keys x `prefix_of` Dict.keys d →
  Dict.update x d = d.
Proof.
  revert d. induction x as [|[k vx] x IH]; intros d Hnd Hpre.
  - by apply (dict_update_fresh []).
  - destruct d as [|[k0 vd] d]; cbn in Hpre.
    + by apply prefix_nil_inv in Hpre.
    + apply prefix_cons_inv_1 in Hpre as Hk. cbn in Hk. subst k0.
      apply prefix_cons_inv_2 in Hpre.
      apply NoDup_cons in Hnd as [Hk Hnd].
      rewrite dict_update_cons. cbn [Dict.set]. rewrite String.eqb_refl.
      rewrite (dict_update_head k vd vd x d Hk). f_equal. by apply IH.
Qed.
End DictFacts.

Section DictElems.
Context {V : Type}.
Implicit Types (d e : Dict.t V) (k : string) (v : V).

Lemma dict_elem_of_set_inv k v d k' v' :
  (k', v') ∈ Dict.set k v d → (k', v') = (k, v) ∨ (k', v') ∈ d.
Proof.
  induction d as [|[k0 v0] d IH]; cbn.
  - intros ->%list_elem_of_singleton. by left.
  - destruct (String.eqb_spec k k0) as [->|Hne].
    + intros [->|Hin]%elem_of_cons; [by left|]. right. by right.
    + intros [->|Hin]%elem_of_cons; [right; by left|].
      destruct (IH Hin) as [?|?]; [by left|]. right. by right.
Qed.

Lemma dict_elem_of_update d e k v :
  (k, v) ∈ Dict.update d e → (k, v) ∈ d ∨ (k, v) ∈ e.
Proof.
  revert d. induction e as [|[k1 v1] e IH]; intros d; [by left|].
  rewrite dict_update_cons. intros [Hin|Hin]%IH.
  - apply dict_elem_of_set_inv in Hin as [->|?]; [right; by left|by left].
  - right. by right.
Qed.

Lemma dict_elem_of_values d v :
  v ∈ Dict.values d ↔ ∃ k, (k, v) ∈ d.
Proof.
  unfold Dict.values. rewrite list_elem_of_fmap. split.
  - intros [[k v'] [-> H]]. by exists k.
  - intros [k H]. by exists (k, v).
Qed.
End DictElems.

(** ** [filter_checks]: stored checks shadow predefined ones *)

Section FilterChecks.
Variable report_filter : option (ReportCheck → bool).

Lemma filter_checks_step_spec (d : Dict.t ReportCheck) (c : ReportCheck) :
  NoDup (Dict.keys d) →
  (∀ k x, (k, x) ∈ d → k = rc_id x) →
  NoDup (Dict.keys (filter_checks_step report_filter d c))
  ∧ ∀ k x, (k, x) ∈ filter_checks_step report_filter d c →
           k = rc_id x
           ∧ ((x = c ∧ passes report_filter c = true)
              ∨ ((k, x) ∈ d ∧ rc_id x ≠ rc_id c)).
Proof.
  intros Hnd Hkey. unfold filter_checks_step.
  pose proof (dict_pop_NoDup (rc_id c) d Hnd) as Hpop.
  destruct (passes report_filter c) eqn:Hp.
  - split; [by apply dict_set_NoDup|]. intros k x Hin.
    apply dict_elem_of_set in Hin as [[= -> ->]|[Hin Hne]]; [| |done].
    + split; [done|]. by left.
    + apply dict_elem_of_pop in Hin as [Hin _]; [|done].
      pose proof (Hkey _ _ Hin) as ->. split; [done|]. by right.
  - split; [done|]. intros k x Hin.
    apply dict_elem_of_pop in Hin as [Hin Hne]; [|done].
    pose proof (Hkey _ _ Hin) as ->. split; [done|]. by right.
Qed.

Lemma filter_checks_fold_spec (l : list ReportCheck)
    (d : Dict.t ReportCheck) :
  NoDup (Dict.keys d) →
  (∀ k x, (k, x) ∈ d → k = rc_id x) →
  ∀ k x, (k, x) ∈ fold_left (filter_checks_step report_filter) l d →
         (x ∈ l ∧ passes report_filter x = true)
         ∨ ((k, x) ∈ d ∧ rc_id x ∉ map rc_id l).
Proof.
  revert d. induction l as [|c l IH]; intros d Hnd Hkey k x Hin.
  - right. split; [done|]. apply not_elem_of_nil.
  - cbn [fold_left] in Hin.
    destruct (filter_checks_step_spec d c Hnd Hkey) as [Hnd' Hstep].
    destruct (IH _ Hnd' (λ k x H, proj1 (Hstep k x H)) _ _ Hin)
      as [[Hx Hp]|[Hx Hid]].
    + left. split; [by right|done].
    + destruct (Hstep _ _ Hx) as [_ [[-> Hp]|[Hd Hne]]].
      * left. split; [by left|done].
      * right. split; [done|]. cbn.
        intros [?|?]%elem_of_cons; done.
Qed.
End FilterChecks.

(** C10. A check [filter_checks] returns under an id that also exists in the
    check store is a stored check that satisfies the filter: the predefined
    check of that id is never returned, and when the stored one does not
    satisfy the filter no check of that id is returned. *)
Theorem filter_checks_stored_shadows_predefined
    (self : InspectorService) (st : Stores)
    (report_filter : option (ReportCheck → bool)) (c : ReportCheck) :
  c ∈ filter_checks self st report_filter →
  rc_id c ∈ map rc_id (report_check_db st) →
  c ∈ report_check_db st ∧ passes report_filter c = true.
Proof.
  unfold filter_checks. intros [k Hin]%dict_elem_of_values Hid.
  apply filter_checks_fold_spec in Hin as [?|[_ Hn]]; [done|done| |].
  - apply (dict_update_NoDup []). apply NoDup_nil_2.
  - intros k' x [Hx|Hx]%dict_elem_of_update; [by apply elem_of_nil in Hx|].
    apply list_elem_of_fmap in Hx as [y [[= -> ->] _]]. done.
Qed.

Lemma filter_checks_stored_shadows_predefined_witness :
  Dict.get "shadowed" (checks_from_file sample_service)
  = Some (sample_check "shadowed" "volume" sev_high)
  ∧ sample_check "shadowed" "volume" sev_info
    ∈ filter_checks sample_service sample_stores None
  ∧ (sample_check "shadowed" "volume" sev_high
     ∉ filter_checks sample_service sample_stores None)
  ∧ sample_check "shadowed" "volume" sev_info ∈ report_check_db sample_stores
  ∧ passes None (sample_check "shadowed" "volume" sev_info) = true.
Proof.
  assert (sample_check "shadowed" "volume" sev_info
          ∈ filter_checks sample_service sample_stores None) as Hin.
  { vm_compute. do 4 right. left. }
  split; [reflexivity|]. split; [exact Hin|]. split.
  - intros Hhigh.
    destruct (filter_checks_stored_shadows_predefined sample_service
                sample_stores None
                (sample_check "shadowed" "volume" sev_high) Hhigh)
      as [Hdb _].
    + vm_compute. left.
    + vm_compute in Hdb.
      repeat (apply elem_of_cons in Hdb as [Hdb|Hdb]; [discriminate Hdb|]).
      by apply elem_of_nil in Hdb.
  - apply (filter_checks_stored_shadows_predefined sample_service
             sample_stores None
             (sample_check "shadowed" "volume" sev_info) Hin).
    vm_compute. left.
Defined.

(** The predefined check [shadowed] satisfies the filter, the stored one of
    the same id does not: neither is returned. *)
Example filter_checks_drops_both_versions :
  map rc_id
      (filter_checks sample_service sample_stores
                     (Some (λ c, prio sev_high <=? prio (rc_severity c))))
  = ["good"; "unparsable"; "extra"].
Proof. reflexivity. Qed.

(** ** Predefined benchmarks are protected *)



(** ** Check validation *)

Lemma validate_check_fields_complete (check : ReportCheck) (detect : string)
    (errors : list string) :
  let all_errors := validate_check_fields check detect errors in
  (∀ e, e ∈ errors → e ∈ all_errors)
  ∧ (rc_result_kinds check = [] →
     err_no_result_kind (rc_id check) ∈ all_errors)
  ∧ (∀ rk, rk ∈ rc_result_kinds check → Str.contains rk detect = false →
           err_result_kind (rc_id check) rk ∈ all_errors)
  ∧ (rem_text (rc_remediation check) = EmptyString →
     err_remediation_text (rc_id check) ∈ all_errors)
  ∧ (rem_url (rc_remediation check) = EmptyString →
     err_remediation_url (rc_id check) ∈ all_errors)
  ∧ (rc_id check = EmptyString → err_prop (rc_id check) "id" ∈ all_errors)
  ∧ (rc_title check = EmptyString →
     err_prop (rc_id check) "title" ∈ all_errors)
  ∧ (rc_risk check = EmptyString →
     err_prop (rc_id check) "risk" ∈ all_errors).
Proof.
  cbn zeta. unfold validate_check_fields.
  repeat split.
  - intros e He. apply elem_of_app. by left.
  - intros ->. rewrite bool_decide_eq_true_2 by done.
    apply elem_of_app. right. apply elem_of_app. left. by left.
  - intros rk Hrk Hc. do 2 (apply elem_of_app; right).
    apply elem_of_app. left. apply list_elem_of_In, in_flat_map.
    exists rk. split; [by apply list_elem_of_In|]. rewrite Hc. by left.
  - intros ->. do 3 (apply elem_of_app; right).
    apply elem_of_app. left. by left.
  - intros ->. do 4 (apply elem_of_app; right).
    apply elem_of_app. left. by left.
  - intros Hid. do 5 (apply elem_of_app; right).
    apply list_elem_of_In, in_flat_map. exists "id"%string.
    split; [cbn; tauto|]. unfold prop_missing. cbn. rewrite Hid. by left.
  - intros Ht. do 5 (apply elem_of_app; right).
    apply list_elem_of_In, in_flat_map. exists "title"%string.
    split; [cbn; tauto|]. unfold prop_missing. cbn. rewrite Ht. by left.
  - intros Hr. do 5 (apply elem_of_app; right).
    apply list_elem_of_In, in_flat_map. exists "risk"%string.
    split; [cbn; tauto|]. unfold prop_missing. cbn. rewrite Hr. by left.
Qed.

(** C9, as the code has it.  When the detection of a check is a search or a
    command that parses, or when the check has no detection at all, the one
    list [__validate_check] returns holds an entry for an empty
    [remediation.text], one for an empty [remediation.url] and one for each
    empty field among [id], [title] and [risk], next to the entries on the
    detection and the result kinds.  A manual check is not validated: its
    list is empty.  When the detection does not parse the list holds the
    parse error alone. *)
Theorem validate_check_collects_violations
    (self : InspectorService) (check : ReportCheck) :
  let env := default [] (rc_default_values check) in
  let resoto := get_truthy (detect_resoto (rc_detect check)) in
  let resoto_cmd := get_truthy (detect_resoto_cmd (rc_detect check)) in
  let manual := default false (detect_manual (rc_detect check)) in
  let errors := validate_check self check in
  (∀ detect,
     (resoto = Some detect
      ∧ (∃ q, parse_query self detect "reported" env = Ok q))
     ∨ (resoto = None ∧ resoto_cmd = Some detect
        ∧ evaluate_cli_command self detect env = Ok ())
     ∨ (resoto = None ∧ resoto_cmd = None ∧ manual = false
        ∧ detect = EmptyString) →
     (rem_text (rc_remediation check) = EmptyString →
      err_remediation_text (rc_id check) ∈ errors)
     ∧ (rem_url (rc_remediation check) = EmptyString →
        err_remediation_url (rc_id check) ∈ errors)
     ∧ (rc_id check = EmptyString → err_prop (rc_id check) "id" ∈ errors)
     ∧ (rc_title check = EmptyString →
        err_prop (rc_id check) "title" ∈ errors)
     ∧ (rc_risk check = EmptyString →
        err_prop (rc_id check) "risk" ∈ errors)
     ∧ (rc_result_kinds check = [] →
        err_no_result_kind (rc_id check) ∈ errors)
     ∧ (∀ rk, rk ∈ rc_result_kinds check → Str.contains rk detect = false →
              err_result_kind (rc_id check) rk ∈ errors)
     ∧ (resoto = None → resoto_cmd = None →
        err_no_detection (rc_id check) ∈ errors))
  ∧ (resoto = None → resoto_cmd = None → manual = true → errors = [])
  ∧ (∀ detect e,
       (resoto = Some detect
        ∧ parse_query self detect "reported" env = Raise e)
       ∨ (resoto = None ∧ resoto_cmd = Some detect
          ∧ evaluate_cli_command self detect env = Raise e) →
       errors = [err_invalid (rc_id check) e]).
Proof.
  cbn zeta. unfold validate_check. split; [|split].
  - intros detect H.
    assert (∃ pre,
      (get_truthy (detect_resoto (rc_detect check)) = None →
       get_truthy (detect_resoto_cmd (rc_detect check)) = None →
       err_no_detection (rc_id check) ∈ pre)
      ∧ match get_truthy (detect_resoto (rc_detect check)) with
        | Some search =>
            match parse_query self search "reported"
                    (default [] (rc_default_values check)) with
            | Ok _ => validate_check_fields check search []
            | Raise e => [err_invalid (rc_id check) e]
            end
        | None =>
            match get_truthy (detect_resoto_cmd (rc_detect check)) with
            | Some cmd =>
                match evaluate_cli_command self cmd
                        (default [] (rc_default_values check)) with
                | Ok _ => validate_check_fields check cmd []
                | Raise e => [err_invalid (rc_id check) e]
                end
            | None =>
                if default false (detect_manual (rc_detect check)) then []
                else validate_check_fields check EmptyString
                       [err_no_detection (rc_id check)]
            end
        end = validate_check_fields check detect pre) as (pre & Hpre & ->).
    { destruct H as [(-> & q & ->)|[(-> & -> & ->)|(-> & -> & -> & ->)]].
      - by exists [].
      - by exists [].
      - exists [err_no_detection (rc_id check)]. split; [|done].
        intros _ _. by left. }
    destruct (validate_check_fields_complete check detect pre)
      as (H0 & H1 & H2 & H3 & H4 & H5 & H6 & H7).
    split_and!; try done. intros Hr Hc. apply H0. by apply Hpre.
  - by intros -> -> ->.
  - intros detect e [(-> & ->)|(-> & -> & ->)]; done.
Qed.

(** A manual check with an empty remediation text and an empty title: no
    entry is returned for either. *)
Lemma validate_check_skips_manual_checks :
  rem_text (rc_remediation (sample_manual_check "manual_1")) = EmptyString
  ∧ rc_title (sample_manual_check "manual_1") = EmptyString
  ∧ (err_remediation_text "manual_1"
     ∉ validate_check sample_service (sample_manual_check "manual_1"))
  ∧ (err_prop "manual_1" "title"
     ∉ validate_check sample_service (sample_manual_check "manual_1")).
Proof. repeat split; apply not_elem_of_nil. Qed.

Lemma validate_check_collects_violations_witness :
  (err_remediation_url "c"
   ∈ validate_check sample_service
       (mkReportCheck "c" "aws" "ec2" EmptyString [] ["volume"] sev_low
          "risk" (mkRemediation "text" EmptyString)
          (mkDetect (Some "is(volume)") None None) None))
  ∧ (err_prop "c" "title"
     ∈ validate_check sample_service
         (mkReportCheck "c" "aws" "ec2" EmptyString [] ["volume"] sev_low
            "risk" (mkRemediation "text" EmptyString)
            (mkDetect (Some "is(volume)") None None) None)).
Proof.
  destruct (validate_check_collects_violations sample_service
              (mkReportCheck "c" "aws" "ec2" EmptyString [] ["volume"]
                 sev_low "risk" (mkRemediation "text" EmptyString)
                 (mkDetect (Some "is(volume)") None None) None))
    as [H _].
  destruct (H "is(volume)") as (_ & Hurl & _ & Htitle & _).
  - left. split; [reflexivity|]. eexists. vm_compute. reflexivity.
  - split; [apply Hurl|apply Htitle]; reflexivity.
Defined.

(** ** Errors while evaluating checks *)

Section PerformChecks.
Variables (self : InspectorService) (graph : string).
Variables (context : CheckContext) (config : ReportConfig).

Let outcome (c : ReportCheck) : Outcome :=
  list_failing_resources_ self graph c config context.

Lemma perform_check_not_raised (c : ReportCheck) :
  out_raised (outcome c) = None →
  perform_check self graph c config context
  = (Ok (group_rows self (out_rows (outcome c))), out_log (outcome c)).
Proof. unfold perform_check. fold (outcome c). by intros ->. Qed.

Lemma perform_check_raised (c : ReportCheck) (e : Exc) :
  out_raised (outcome c) = Some e →
  perform_check self graph c config context = (Raise e, out_log (outcome c)).
Proof. unfold perform_check. fold (outcome c). by intros ->. Qed.

(** Once a check has raised, the batch stays raised. *)
Lemma perform_checks_raised (checks : list ReportCheck) (e : Exc)
    (log : list LogEntry) :
  fold_left (perform_checks_step self graph context config) checks
            (Raise e, log)
  = (Raise e, log).
Proof. induction checks as [|c checks IH]; [done|]. apply IH. Qed.

Lemma perform_checks_all_ok (checks : list ReportCheck)
    (d : Dict.t SingleCheckResult) (log : list LogEntry) :
  (∀ c, c ∈ checks → out_raised (outcome c) = None) →
  fold_left (perform_checks_step self graph context config) checks
            (Ok d, log)
  = (Ok (Dict.update d
           (map (λ c, (rc_id c, group_rows self (out_rows (outcome c))))
                checks)),
     log ++ flat_map (λ c, out_log (outcome c)) checks).
Proof.
  revert d log. induction checks as [|c checks IH]; intros d log Hok.
  - cbn. by rewrite app_nil_r.
  - cbn [fold_left perform_checks_step].
    rewrite perform_check_not_raised by (apply Hok; by left).
    rewrite IH by (intros c' Hc'; apply Hok; by right).
    cbn [map flat_map]. rewrite dict_update_cons. by rewrite <- app_assoc.
Qed.

Lemma search_outcome (c : ReportCheck) (search : string) (query : Query) :
  get_truthy (detect_resoto (rc_detect c)) = Some search →
  prepare_search self (environment self c (override_values config))
                 context search = Ok query →
  out_raised (outcome c) = None
  ∧ match search_list self graph query with
    | Raise e =>
        out_rows (outcome c) = []
        ∧ out_log (outcome c) = [ErrorExecutingQuery query e]
    | Ok cursor =>
        out_rows (outcome c) = cursor_rows cursor
        ∧ out_log (outcome c)
          = match cursor_error cursor with
            | Some e => [ErrorExecutingQuery query e]
            | None => []
            end
    end.
Proof.
  intros Hs Hq. unfold outcome, list_failing_resources_, perform_search.
  rewrite Hs, Hq. by destruct (search_list self graph query).
Qed.
(** A check that raises ends the batch with an exception of one of its
    checks. *)
Lemma perform_checks_fold_aborts (checks : list ReportCheck)
    (d : Dict.t SingleCheckResult) (log : list LogEntry) :
  (∃ c, c ∈ checks
        ∧ is_Some (out_raised
                     (list_failing_resources_ self graph c config context))) →
  ∃ e c' log',
    fold_left (perform_checks_step self graph context config) checks
              (Ok d, log)
    = (Raise e, log')
    ∧ c' ∈ checks
    ∧ out_raised (list_failing_resources_ self graph c' config context)
      = Some e.
Proof.
  revert d log. induction checks as [|c checks IH];
    intros d log (x & Hx & Hraise).
  - by apply elem_of_nil in Hx.
  - cbn [fold_left perform_checks_step].
    destruct (out_raised
                (list_failing_resources_ self graph c config context))
      as [e|] eqn:Hc.
    + rewrite (perform_check_raised _ _ Hc), perform_checks_raised.
      exists e, c. eexists. split; [done|]. split; [by left|done].
    + rewrite (perform_check_not_raised _ Hc).
      destruct (IH (Dict.set (rc_id c)
                      (group_rows self
                         (out_rows (list_failing_resources_ self graph c
                                      config context))) d)
                   (log ++ out_log (list_failing_resources_ self graph c
                                      config context)))
        as (e & c' & log' & Hf & Hc' & He).
      * apply elem_of_cons in Hx as [->|Hx].
        -- rewrite Hc in Hraise. by destruct Hraise.
        -- by exists x.
      * exists e, c', log'. split; [done|]. split; [by right|done].
Qed.

(** What can raise while a check is evaluated: the parse of a search, with
    the account filter put in front of it, and the execution of a
    command. *)
Lemma outcome_not_raised (c : ReportCheck) :
  match get_truthy (detect_resoto (rc_detect c)) with
  | Some search =>
      ∃ query,
        prepare_search self (environment self c (override_values config))
                       context search = Ok query
  | None =>
      match get_truthy (detect_resoto_cmd (rc_detect c)) with
      | Some cmd =>
          ∃ cli_result,
            execute_cli_command self (prepare_cmd context cmd)
              (environment self c (override_values config))
            = Ok cli_result
      | None => True
      end
  end →
  out_raised (outcome c) = None.
Proof.
  unfold outcome, list_failing_resources_, perform_search, perform_cmd.
  destruct (get_truthy (detect_resoto (rc_detect c))) as [search|].
  - intros [query ->]. by destruct (search_list self graph query).
  - destruct (get_truthy (detect_resoto_cmd (rc_detect c))) as [cmd|];
      [|done].
    cbn zeta. intros [cli_result ->]. by destruct cli_result.
Qed.

Lemma parse_error_raised (c : ReportCheck) (search : string) (e : Exc) :
  get_truthy (detect_resoto (rc_detect c)) = Some search →
  parse_query self search "reported"
              (environment self c (override_values config)) = Raise e →
  out_raised (outcome c) = Some e.
Proof.
  intros Hs Hp.
  unfold outcome, list_failing_resources_, perform_search, prepare_search.
  by rewrite Hs, Hp.
Qed.
End PerformChecks.

(** C1, as the code has it.  A cursor error never fails a check: a search
    whose detection parses is recorded with the rows its cursor gave before
    it failed, none when the cursor failed to open, and the error is logged
    with the query.  So a batch of searches, commands and manual checks in
    which every detection parses and every command executes gives a result
    for every check, and [perform_benchmarks] (without the security sync)
    returns, whatever the cursors do.  A detection that does not parse is not
    demoted: it ends the whole [perform_benchmarks] call with the exception
    of a check of the batch. *)
Theorem cursor_errors_do_not_fail_the_batch
    (self : InspectorService) (st : Stores) (graph : string)
    (names : list string) (accounts : option (list string))
    (severity : option ReportSeverity) (only_failing : bool) :
  let context := mkCheckContext accounts severity only_failing 10 in
  let config := report_config self in
  let checks := benchmark_checks self st names context in
  let env c := environment self c (override_values config) in
  let outcome c := list_failing_resources_ self graph c config context in
  (∀ c search query,
     get_truthy (detect_resoto (rc_detect c)) = Some search →
     prepare_search self (env c) context search = Ok query →
     out_raised (outcome c) = None
     ∧ match search_list self graph query with
       | Raise e =>
           out_rows (outcome c) = []
           ∧ out_log (outcome c) = [ErrorExecutingQuery query e]
       | Ok cursor =>
           out_rows (outcome c) = cursor_rows cursor
           ∧ out_log (outcome c)
             = match cursor_error cursor with
               | Some e => [ErrorExecutingQuery query e]
               | None => []
               end
       end)
  ∧ ((∀ c, c ∈ checks →
           match get_truthy (detect_resoto (rc_detect c)) with
           | Some search =>
               ∃ query, prepare_search self (env c) context search = Ok query
           | None =>
               match get_truthy (detect_resoto_cmd (rc_detect c)) with
               | Some cmd =>
                   ∃ cli_result,
                     execute_cli_command self (prepare_cmd context cmd)
                                         (env c)
                     = Ok cli_result
               | None => True
               end
           end) →
     perform_checks self graph checks context config
     = (Ok (Dict.of_items
              (map (λ c, (rc_id c, group_rows self (out_rows (outcome c))))
                   checks)),
        flat_map (λ c, out_log (outcome c)) checks)
     ∧ ∃ result,
         perform_benchmarks self st graph names accounts severity
                            only_failing false None
         = (Ok result, flat_map (λ c, out_log (outcome c)) checks))
  ∧ (∀ c search e (sync : bool) (run_id : option string),
       c ∈ checks →
       get_truthy (detect_resoto (rc_detect c)) = Some search →
       parse_query self search "reported" (env c) = Raise e →
       ∃ e' c',
         fst (perform_benchmarks self st graph names accounts severity
                                 only_failing sync run_id)
         = Raise e'
         ∧ c' ∈ checks
         ∧ out_raised (outcome c') = Some e').
Proof.
  cbn zeta. split; [|split].
  - intros c search query Hs Hq.
    apply (search_outcome self graph _ _ c search query Hs Hq).
  - intros Hruns.
    assert (perform_checks self graph
              (benchmark_checks self st names
                 (mkCheckContext accounts severity only_failing 10))
              (mkCheckContext accounts severity only_failing 10)
              (report_config self)
            = (Ok (Dict.of_items
                     (map (λ c, (rc_id c,
                                 group_rows self
                                   (out_rows
                                      (list_failing_resources_ self graph c
                                         (report_config self)
                                         (mkCheckContext accounts severity
                                            only_failing 10)))))
                          (benchmark_checks self st names
                             (mkCheckContext accounts severity only_failing
                                10)))),
               flat_map (λ c, out_log
                                (list_failing_resources_ self graph c
                                   (report_config self)
                                   (mkCheckContext accounts severity
                                      only_failing 10)))
                        (benchmark_checks self st names
                           (mkCheckContext accounts severity only_failing
                              10))))
      as Hbatch.
    { unfold perform_checks. rewrite perform_checks_all_ok; [done|].
      intros c Hc. apply outcome_not_raised, Hruns, Hc. }
    split; [exact Hbatch|].
    unfold perform_benchmarks. rewrite Hbatch. by eexists.
  - intros c search e sync run_id Hc Hs Hp.
    destruct (perform_checks_fold_aborts self graph
                (mkCheckContext accounts severity only_failing 10)
                (report_config self)
                (benchmark_checks self st names
                   (mkCheckContext accounts severity only_failing 10))
                [] [])
      as (e' & c' & log' & Hf & Hc' & He').
    { exists c. split; [done|].
      rewrite (parse_error_raised self graph _ _ c search e Hs Hp).
      by eexists. }
    exists e', c'. split; [|done].
    assert (perform_checks self graph
              (benchmark_checks self st names
                 (mkCheckContext accounts severity only_failing 10))
              (mkCheckContext accounts severity only_failing 10)
              (report_config self)
            = (Raise e', log')) as Hpc by exact Hf.
    unfold perform_benchmarks. cbn zeta. by rewrite Hpc.
Qed.

(** A detection that does not parse ends the whole call: the benchmark
    [aws_test] holds the check [unparsable]. *)
Lemma perform_benchmarks_aborts_on_parse_error :
  perform_benchmarks sample_service sample_stores "graph" ["aws_test"]
                     None None false false None
  = (Raise (OtherError "can not parse"), []).
Proof. reflexivity. Qed.

(** So does a command the CLI fails to execute. *)
Example perform_benchmarks_aborts_on_cli_failure :
  perform_benchmarks sample_service sample_stores "graph" ["user_defined"]
                     None None false false None
  = (Raise (OtherError "command failed"), []).
Proof. reflexivity. Qed.

Lemma cursor_errors_do_not_fail_the_batch_witness :
  (∃ result,
     perform_benchmarks sample_service sample_mixed_stores "graph" ["mixed"]
                        None None false false None
     = (Ok result,
        [ErrorExecutingQuery
           (mkQuery [Part_of (IsTerm ["broken"])] [] None)
           (OtherError "cursor failed")]))
  ∧ ∃ e' c',
      fst (perform_benchmarks sample_service sample_stores "graph"
                              ["aws_test"] None None false true None)
      = Raise e'
      ∧ c' ∈ benchmark_checks sample_service sample_stores ["aws_test"]
              (mkCheckContext None None false 10)
      ∧ out_raised
          (list_failing_resources_ sample_service "graph" c'
             (report_config sample_service)
             (mkCheckContext None None false 10))
        = Some e'.
Proof.
  split.
  - destruct (cursor_errors_do_not_fail_the_batch sample_service
                sample_mixed_stores "graph" ["mixed"] None None false)
      as (_ & H & _).
    destruct H as [_ H]; [|exact H].
    intros c Hc. vm_compute in Hc.
    repeat (apply elem_of_cons in Hc as [->|Hc]);
      [| | |by apply elem_of_nil in Hc]; vm_compute;
      first [exact I | eexists; reflexivity].
  - destruct (cursor_errors_do_not_fail_the_batch sample_service
                sample_stores "graph" ["aws_test"] None None false)
      as (_ & _ & H).
    apply (H (sample_check "unparsable" "is((volume" sev_high)
             "is((volume"%string (OtherError "can not parse") true None).
    + vm_compute. right. left.
    + reflexivity.
    + reflexivity.
Defined.

(** ** Sections: relative names and back *)

Local Open Scope string_scope.

Lemma string_app_cons (x : Ascii.ascii) (a b : string) :
  String x a ++ b = String x (a ++ b).
Proof. reflexivity. Qed.

Lemma string_app_assoc (a b c : string) : (a ++ b) ++ c = a ++ (b ++ c).
Proof.
  induction a as [|x a IH]; [done|]. rewrite !string_app_cons. by rewrite IH.
Qed.

Lemma string_length_app (a b : string) :
  String.length (a ++ b) = (String.length a + String.length b)%nat.
Proof.
  induction a as [|x a IH]; [done|]. rewrite string_app_cons. cbn.
  by rewrite IH.
Qed.

Lemma startswith_app (p q name : string) :
  Str.startswith (p ++ q) name
  = Str.startswith p name
    && Str.startswith q (Str.drop (String.length p) name).
Proof.
  revert name. induction p as [|x p IH]; intros name; [done|].
  rewrite string_app_cons. cbn.
  destruct name as [|y name]; [done|].
  destruct (Ascii.eqb x y); [apply IH|done].
Qed.

Lemma startswith_split (p name : string) :
  Str.startswith p name = true →
  name = p ++ Str.drop (String.length p) name.
Proof.
  revert name. induction p as [|x p IH]; intros name; [done|].
  rewrite string_app_cons. cbn.
  destruct name as [|y name]; [done|].
  destruct (Ascii.eqb_spec x y) as [->|]; [|done].
  intros H. f_equal. by apply IH.
Qed.

Lemma variable_roundtrip (section name : string) :
  section ≠ PathRoot →
  section_roundtrip_safe section name = true →
  variable_to_absolute (Some section) (variable_to_relative section name)
  = name.
Proof.
  intros Hroot Hsafe. unfold section_roundtrip_safe in Hsafe.
  apply andb_prop in Hsafe as [Hsafe Hdot].
  apply andb_prop in Hsafe as [Hslash Hpre].
  apply negb_true_iff in Hslash, Hpre, Hdot.
  unfold variable_to_relative. rewrite Hslash.
  destruct (Str.startswith (section ++ ".") name) eqn:Hsec.
  - replace (section ++ "./") with ((section ++ ".") ++ "/") in Hpre
      by (by rewrite string_app_assoc).
    rewrite startswith_app, Hsec in Hpre. cbn [andb] in Hpre.
    rewrite string_length_app in Hpre. cbn [String.length] in Hpre.
    unfold variable_to_absolute. unfold PathRoot at 1. rewrite Hpre.
    destruct (String.eqb_spec section "") as [->|Hne].
    + change ("" ++ ".") with "." in Hsec.
      cbn [andb] in Hdot. congruence.
    + rewrite (proj2 (String.eqb_neq _ _) Hroot). cbn [negb andb].
      apply startswith_split in Hsec.
      rewrite string_length_app in Hsec. cbn [String.length] in Hsec.
      rewrite Hsec at 2. by rewrite string_app_assoc.
  - reflexivity.
Qed.

Section ChangeVariableRoundtrip.
Variables f g : string → string.

Lemma Aggregate_change_variable_roundtrip (a : Aggregate) :
  (∀ n, n ∈ Aggregate_names a → g (f n) = n) →
  Aggregate_change_variable g (Aggregate_change_variable f a) = a.
Proof.
  destruct a as [vars funcs]. unfold Aggregate_names.
  cbn [agg_group_by agg_group_func]. intros H.
  unfold Aggregate_change_variable. cbn [agg_group_by agg_group_func].
  f_equal.
  - rewrite map_map. rewrite <- (map_id vars) at 2.
    apply map_ext_in. intros [vn an] Hv.
    unfold AggregateVariable_change_variable. cbn [av_name av_as_name].
    f_equal.
    assert (∀ n, n ∈ AggregateVarName_names vn → g (f n) = n) as Hn.
    { intros n Hin. apply H, elem_of_app. left.
      apply list_elem_of_In, in_flat_map. eexists. split; [exact Hv|].
      cbn [av_name]. by apply list_elem_of_In. }
    destruct vn as [[n]|ps]; cbn.
    + unfold AggregateVariableName_change_variable. cbn.
      rewrite Hn; [done|]. by left.
    + f_equal. rewrite map_map. rewrite <- (map_id ps) at 2.
      apply map_ext_in. intros [s|[n]] Hp; [done|]. cbn.
      unfold AggregateVariableName_change_variable. cbn.
      rewrite Hn; [done|]. cbn.
      apply list_elem_of_In, in_flat_map. eexists. split; [exact Hp|].
      by left.
  - rewrite map_map. rewrite <- (map_id funcs) at 2.
    apply map_ext_in. intros [fu [n|i] ops an] Hf; [|done].
    unfold AggregateFunction_change_variable. cbn.
    rewrite H; [done|]. apply elem_of_app. right.
    apply list_elem_of_In, in_flat_map. eexists. split; [exact Hf|].
    by left.
Qed.

Lemma opt_roundtrip {A : Type} (names : A → list string) (cv_f cv_g : A → A)
    (o : option A) :
  opt_holds (λ a, (∀ n, n ∈ names a → g (f n) = n) → cv_g (cv_f a) = a) o →
  (∀ n, n ∈ opt_names names o → g (f n) = n) →
  option_map cv_g (option_map cv_f o) = o.
Proof.
  destruct o as [a|]; cbn; [|done]. intros IH H. f_equal. by apply IH.
Qed.

Lemma list_roundtrip {A : Type} (names : A → list string) (cv_f cv_g : A → A)
    (l : list A) :
  Forall (λ a, (∀ n, n ∈ names a → g (f n) = n) → cv_g (cv_f a) = a) l →
  (∀ n, n ∈ flat_map names l → g (f n) = n) →
  map cv_g (map cv_f l) = l.
Proof.
  induction 1 as [|a l Ha _ IH]; cbn; [done|]. intros H. f_equal.
  - apply Ha. intros n Hn. apply H, elem_of_app. by left.
  - apply IH. intros n Hn. apply H, elem_of_app. by right.
Qed.

Lemma Query_change_variable_roundtrip (q : Query) :
  (∀ n, n ∈ Query_names q → g (f n) = n) →
  Query_change_variable g (Query_change_variable f q) = q.
Proof.
  revert q.
  apply (Query_query_ind
    (λ t, (∀ n, n ∈ Term_names t → g (f n) = n) →
          Term_change_variable g (Term_change_variable f t) = t)
    (λ m, (∀ n, n ∈ MergeQuery_names m → g (f n) = n) →
          MergeQuery_change_variable g (MergeQuery_change_variable f m) = m)
    (λ q, (∀ n, n ∈ Query_names q → g (f n) = n) →
          Query_change_variable g (Query_change_variable f q) = q)
    (λ p, (∀ n, n ∈ Part_names p → g (f n) = n) →
          Part_change_variable g (Part_change_variable f p) = p)
    (λ w, (∀ n, n ∈ WithClause_names w → g (f n) = n) →
          WithClause_change_variable g (WithClause_change_variable f w)
          = w)).
  - done.
  - intros t IH H. cbn. f_equal. by apply IH.
  - intros n op v args H. cbn. rewrite H; [done|]. by left.
  - intros l op r IHl IHr H. cbn. cbn in H. f_equal.
    + apply IHl. intros n Hn. apply H, elem_of_app. by left.
    + apply IHr. intros n Hn. apply H, elem_of_app. by right.
  - done.
  - done.
  - intros fn p args H. cbn. rewrite H; [done|]. by left.
  - intros pre merge post IHpre IHm IHpost H. cbn. cbn in H. f_equal.
    + apply IHpre. intros n Hn. apply H, elem_of_app. by left.
    + apply (list_roundtrip MergeQuery_names); [done|].
      intros n Hn. apply H, elem_of_app. right. apply elem_of_app. by left.
    + apply (opt_roundtrip Term_names); [done|].
      intros n Hn. apply H, elem_of_app. right. apply elem_of_app. by right.
  - intros n q o IH H. cbn. f_equal. by apply IH.
  - intros parts preamble agg IH H. cbn. cbn in H. f_equal.
    + apply (list_roundtrip Part_names); [done|].
      intros n Hn. apply H, elem_of_app. by left.
    + destruct agg as [a|]; [|done]. cbn. f_equal.
      apply Aggregate_change_variable_roundtrip.
      intros n Hn. apply H, elem_of_app. by right.
  - intros term tag wc sort limit nav IHt IHw H. cbn. cbn in H. f_equal.
    + apply IHt. intros n Hn. apply H, elem_of_app. by left.
    + apply (opt_roundtrip WithClause_names); [done|].
      intros n Hn. apply H, elem_of_app. right. apply elem_of_app. by left.
    + rewrite map_map. rewrite <- (map_id sort) at 2.
      apply map_ext_in. intros [sn so] Hs.
      unfold Sort_change_variable. cbn. rewrite H; [done|].
      apply elem_of_app. right. apply elem_of_app. right.
      apply list_elem_of_fmap. exists (mkSort sn so).
      split; [done|]. by apply list_elem_of_In.
  - intros wf nav term wc IHt IHw H. cbn. cbn in H. f_equal.
    + apply (opt_roundtrip Term_names); [done|].
      intros n Hn. apply H, elem_of_app. by left.
    + apply (opt_roundtrip WithClause_names); [done|].
      intros n Hn. apply H, elem_of_app. by right.
Qed.
End ChangeVariableRoundtrip.

(** C6, as the code has it.  For a section other than the root, making the
    names of a query relative to the section and absolute again gives the
    query back when no name of the query carries a leading slash, before or
    after the section prefix (nor, for the empty section, a leading dot). *)
Theorem section_roundtrip (q : Query) (section : string) :
  section ≠ PathRoot →
  (∀ n, n ∈ Query_names q → section_roundtrip_safe section n = true) →
  on_section (Some section) (relative_to_section section q) = q.
Proof.
  intros Hroot Hsafe. unfold on_section, relative_to_section.
  rewrite (proj2 (String.eqb_neq _ _) Hroot). cbn [negb].
  apply Query_change_variable_roundtrip.
  intros n Hn. apply variable_roundtrip; [done|]. by apply Hsafe.
Qed.

(** A name with a leading slash stays as it is when made relative and loses
    the slash when made absolute. *)
Lemma section_roundtrip_fails_on_rooted_name :
  on_section (Some "reported")
    (relative_to_section "reported"
       (mkQuery [Part_of (P_eq "/a" (JInt 1))] [] None))
  ≠ mkQuery [Part_of (P_eq "/a" (JInt 1))] [] None.
Proof. intros H. vm_compute in H. discriminate H. Qed.

Lemma section_roundtrip_witness :
  on_section (Some "reported")
    (relative_to_section "reported"
       (mkQuery [mkPart (and_term (P_eq "reported.name" (JStr "x"))
                                  (P_eq "ancestors.kind" (JInt 1)))
                        None None [mkSort "reported.age" "asc"] None None]
                [] None))
  = mkQuery [mkPart (and_term (P_eq "reported.name" (JStr "x"))
                              (P_eq "ancestors.kind" (JInt 1)))
                    None None [mkSort "reported.age" "asc"] None None]
            [] None.
Proof.
  apply section_roundtrip.
  - discriminate.
  - intros n Hn. vm_compute in Hn.
    repeat (apply elem_of_cons in Hn as [->|Hn]);
      [reflexivity..|by apply elem_of_nil in Hn].
Defined.

(** ** The ancestor/descendant rewriter is idempotent *)

Section RewriteIdempotent.
Variable resolved : list string.

Abbreviation has_ad := (has_ancestor_descendant resolved).
Abbreviation walk := (walk_term resolved).
Abbreviation chain := (and_chain resolved).

Lemma and_term_All_l (t : Term) : and_term AllTerm t = t.
Proof. reflexivity. Qed.

Lemma and_term_combined (a b : Term) :
  a ≠ AllTerm → b ≠ AllTerm → and_term a b = CombinedTerm a "and" b.
Proof. destruct a, b; done. Qed.

Lemma has_ad_and_term (a b : Term) :
  has_ad (and_term a b) = has_ad a || has_ad b.
Proof.
  destruct a, b; cbn [and_term has_ancestor_descendant orb];
    by rewrite ?orb_false_r.
Qed.

Lemma has_ad_not_All (t : Term) : has_ad t = true → t ≠ AllTerm.
Proof. by intros H ->. Qed.

Lemma chain_has_ad (t : Term) : chain t → has_ad t = true.
Proof.
  induction 1 as [t _ H|l r _ IH _ Hr]; [done|].
  cbn. by rewrite IH.
Qed.

Lemma chain_extend (a t : Term) :
  a = AllTerm ∨ chain a →
  walk_leaf t = true → has_ad t = true →
  chain (and_term a t).
Proof.
  intros [->|Ha] Hleaf Had.
  - by apply chain_leaf.
  - rewrite and_term_combined.
    + by apply chain_and.
    + by apply has_ad_not_All, chain_has_ad.
    + by apply has_ad_not_All.
Qed.

Lemma walk_leaf_step (t : Term) (st : WalkState) :
  walk_leaf t = true →
  walk t st
  = Ok (mkWalkState (before_merge st) (and_term (after_merge st) t)).
Proof.
  destruct t; cbn; try done.
  intros Hop. unfold walk_combined. by rewrite Hop.
Qed.

(** What a walk does to the two accumulators, given what the walks of the
    two sides do. *)
Lemma walk_combined_invariant (term l r : Term) (op : string)
    (wl wr : WalkState → result WalkState) (st st' : WalkState) :
  (String.eqb op "or" = true →
   walk_leaf term = true ∧ has_ad term = true) →
  (∀ s s', has_ad l = true → wl s = Ok s' →
           has_ad (before_merge s) = false →
           after_merge s = AllTerm ∨ chain (after_merge s) →
           has_ad (before_merge s') = false ∧ chain (after_merge s')) →
  (∀ s s', has_ad r = true → wr s = Ok s' →
           has_ad (before_merge s) = false →
           after_merge s = AllTerm ∨ chain (after_merge s) →
           has_ad (before_merge s') = false ∧ chain (after_merge s')) →
  walk_combined resolved term l r op wl wr st = Ok st' →
  has_ad (before_merge st) = false →
  after_merge st = AllTerm ∨ chain (after_merge st) →
  has_ad (before_merge st') = false ∧ chain (after_merge st').
Proof.
  intros Hor IHl IHr Hw Hb Ha. unfold walk_combined in Hw.
  destruct (String.eqb op "or") eqn:Hop.
  - injection Hw as <-. cbn. destruct (Hor eq_refl) as [Hleaf Had].
    split; [done|]. by apply chain_extend.
  - destruct (has_ad l) eqn:Hl, (has_ad r) eqn:Hr; cbn [andb] in Hw.
    + destruct (wl st) as [st1|e] eqn:H1; [|done]. cbn in Hw.
      destruct (IHl _ _ eq_refl H1 Hb Ha) as [Hb1 Ha1].
      apply (IHr _ _ eq_refl Hw Hb1). by right.
    + apply (IHl _ _ eq_refl Hw); cbn; [|done].
      by rewrite has_ad_and_term, Hb, Hr.
    + apply (IHr _ _ eq_refl Hw); cbn; [|done].
      by rewrite has_ad_and_term, Hb, Hl.
    + done.
Qed.

Lemma walk_invariant (t : Term) :
  ∀ st st',
    has_ad t = true → walk t st = Ok st' →
    has_ad (before_merge st) = false →
    after_merge st = AllTerm ∨ chain (after_merge st) →
    has_ad (before_merge st') = false ∧ chain (after_merge st').
Proof.
  apply (Term_query_ind
    (λ t, ∀ st st',
        has_ad t = true → walk t st = Ok st' →
        has_ad (before_merge st) = false →
        after_merge st = AllTerm ∨ chain (after_merge st) →
        has_ad (before_merge st') = false ∧ chain (after_merge st'))
    (λ _, True) (λ _, True) (λ _, True) (λ _, True)); try done.
  - intros t' _ st st' Had Hw Hb Ha. cbn in Hw. injection Hw as <-.
    cbn. split; [done|]. by apply chain_extend.
  - intros n op v args st st' Had Hw Hb Ha. cbn in Hw. injection Hw as <-.
    cbn. split; [done|]. by apply chain_extend.
  - intros l op r IHl IHr st st' Had Hw Hb Ha. cbn [walk_term] in Hw.
    apply (walk_combined_invariant (CombinedTerm l op r) l r op
                                   (walk l) (walk r) st st'); try done.
  - intros pre merge [post|] IHpre _ IHpost st st' Had Hw Hb Ha;
      cbn [walk_term] in Hw.
    + apply (walk_combined_invariant (CombinedTerm pre "and" post) pre post
                                     "and" (walk pre) (walk post) st st');
        done.
    + apply (IHpre st st'); try done.
      cbn in Had. by rewrite orb_false_r in Had.
Qed.

(** Walking a post filter of that shape from an empty [after_merge] gives
    it back. *)
Lemma walk_chain (c : Term) :
  chain c →
  ∀ b, walk c (mkWalkState b AllTerm) = Ok (mkWalkState b c).
Proof.
  induction 1 as [t Hleaf _|l r Hl IH Hleaf Hr]; intros b.
  - by rewrite walk_leaf_step.
  - cbn [walk_term]. unfold walk_combined.
    rewrite (chain_has_ad _ Hl), Hr. cbn [String.eqb Ascii.eqb Bool.eqb andb].
    rewrite IH. cbn [rbind]. rewrite walk_leaf_step by done. cbn.
    rewrite and_term_combined; [done| |].
    + by apply has_ad_not_All, chain_has_ad.
    + by apply has_ad_not_All.
Qed.

Lemma by_name_keyed (queries : list MergeQuery) (k : string)
    (a : MergeQuery) :
  (k, a) ∈ by_name queries → k = mq_name a.
Proof.
  unfold by_name, Dict.of_items.
  intros [H|H]%dict_elem_of_update; [by apply elem_of_nil in H|].
  by apply list_elem_of_fmap in H as [y [[= -> ->] _]].
Qed.

Lemma keyed_items (d : Dict.t MergeQuery) :
  (∀ k a, (k, a) ∈ d → k = mq_name a) →
  map (λ a, (mq_name a, a)) (Dict.values d) = d.
Proof.
  induction d as [|[k a] d IH]; intros H; [done|]. cbn. f_equal.
  - f_equal. symmetry. apply H. by left.
  - apply IH. intros k' a' Hin. apply H. by right.
Qed.

(** Merging the created queries with the merged list of a first pass gives
    that list again. *)
Lemma merge_queries_stable (created_from existing_from : list MergeQuery) :
  let created := by_name created_from in
  let queries := Dict.values (Dict.update created (by_name existing_from)) in
  Dict.values (Dict.update created (by_name queries)) = queries.
Proof.
  cbn zeta.
  set (created := by_name created_from).
  set (d := Dict.update created (by_name existing_from)).
  assert (NoDup (Dict.keys d)) as Hnd.
  { apply dict_update_NoDup, (dict_update_NoDup []), NoDup_nil_2. }
  assert (∀ k a, (k, a) ∈ d → k = mq_name a) as Hkey.
  { intros k a [H|H]%dict_elem_of_update; by apply by_name_keyed in H. }
  assert (by_name (Dict.values d) = d) as ->.
  { unfold by_name. rewrite (keyed_items d Hkey).
    apply (dict_update_prefix [] d Hnd), prefix_nil. }
  f_equal. apply dict_update_prefix; [done|].
  apply dict_update_keys_prefix.
Qed.

(** C7. Rewriting a part that has been rewritten gives it back: applying
    [rewrite_for_ancestors_descendants] twice is applying it once, also when
    the first application raises. *)
Theorem rewrite_for_ancestors_descendants_idempotent (p : Part) :
  (try! p1 ← rewrite_for_ancestors_descendants resolved p;
   rewrite_for_ancestors_descendants resolved p1)
  = rewrite_for_ancestors_descendants resolved p.
Proof.
  unfold rewrite_for_ancestors_descendants at 1 3.
  destruct (has_ad (p_term p)) eqn:Had.
  2: { cbn [rbind]. unfold rewrite_for_ancestors_descendants.
       by rewrite Had. }
  destruct (walk (p_term p) (mkWalkState AllTerm AllTerm))
    as [st|e] eqn:Hw; [|done].
  cbn [rbind].
  destruct (group_by name_predicate
              (ancestor_descendant_predicates resolved (after_merge st)))
    as [predicates|e] eqn:Hg; [|done].
  cbn [rbind].
  destruct (walk_invariant _ _ _ Had Hw eq_refl (or_introl eq_refl))
    as [Hb Ha].
  unfold rewrite_for_ancestors_descendants, replace_term.
  cbn [p_term p_tag p_with_clause p_sort p_limit p_navigation
       has_ancestor_descendant].
  rewrite Hb, (chain_has_ad _ Ha). cbn [orb walk_term].
  unfold walk_combined.
  rewrite Hb, (chain_has_ad _ Ha).
  cbn [String.eqb Ascii.eqb Bool.eqb andb before_merge after_merge].
  rewrite and_term_All_l, (walk_chain _ Ha). cbn [rbind after_merge].
  rewrite Hg. cbn [rbind before_merge].
  by rewrite merge_queries_stable.
Qed.
End RewriteIdempotent.

(** * Further properties *)

Local Open Scope list_scope.

(** ** Variable rewriting is functorial *)

Section ChangeVariableCompose.
Variables f g : string → string.

Lemma Aggregate_change_variable_compose (a : Aggregate) :
  Aggregate_change_variable g (Aggregate_change_variable f a)
  = Aggregate_change_variable (λ n, g (f n)) a.
Proof.
  destruct a as [vars funcs]. unfold Aggregate_change_variable.
  cbn [agg_group_by agg_group_func]. rewrite !map_map. f_equal.
  - apply map_ext. intros [[[n]|ps] an]; cbn; [done|].
    unfold AggregateVariable_change_variable. cbn. do 2 f_equal.
    rewrite map_map. apply map_ext. by intros [s|[n]].
  - apply map_ext. by intros [fu [n|i] ops an].
Qed.

Lemma list_compose {A : Type} (cv_f cv_g cv_gf : A → A) (l : list A) :
  Forall (λ a, cv_g (cv_f a) = cv_gf a) l →
  map cv_g (map cv_f l) = map cv_gf l.
Proof. induction 1 as [|a l Ha _ IH]; cbn; [done|]. by rewrite Ha, IH. Qed.

Lemma opt_compose {A : Type} (cv_f cv_g cv_gf : A → A) (o : option A) :
  opt_holds (λ a, cv_g (cv_f a) = cv_gf a) o →
  option_map cv_g (option_map cv_f o) = option_map cv_gf o.
Proof. destruct o as [a|]; cbn; [|done]. by intros ->. Qed.

Lemma Query_change_variable_compose_fun (q : Query) :
  Query_change_variable g (Query_change_variable f q)
  = Query_change_variable (λ n, g (f n)) q.
Proof.
  revert q.
  apply (Query_query_ind
    (λ t, Term_change_variable g (Term_change_variable f t)
          = Term_change_variable (λ n, g (f n)) t)
    (λ m, MergeQuery_change_variable g (MergeQuery_change_variable f m)
          = MergeQuery_change_variable (λ n, g (f n)) m)
    (λ q, Query_change_variable g (Query_change_variable f q)
          = Query_change_variable (λ n, g (f n)) q)
    (λ p, Part_change_variable g (Part_change_variable f p)
          = Part_change_variable (λ n, g (f n)) p)
    (λ w, WithClause_change_variable g (WithClause_change_variable f w)
          = WithClause_change_variable (λ n, g (f n)) w)); try done.
  - intros t IH. cbn. by rewrite IH.
  - intros l op r IHl IHr. cbn. by rewrite IHl, IHr.
  - intros pre merge post IHpre IHm IHpost. cbn.
    by rewrite IHpre, (list_compose _ _ _ _ IHm), (opt_compose _ _ _ _ IHpost).
  - intros n q o IH. cbn. by rewrite IH.
  - intros parts preamble agg IH. cbn. rewrite (list_compose _ _ _ _ IH).
    f_equal. destruct agg as [a|]; [|done]. cbn.
    by rewrite Aggregate_change_variable_compose.
  - intros term tag wc sort limit nav IHt IHw. cbn.
    rewrite IHt, (opt_compose _ _ _ _ IHw). f_equal.
    rewrite map_map. apply map_ext. by intros [sn so].
  - intros wf nav term wc IHt IHw. cbn.
    by rewrite (opt_compose _ _ _ _ IHt), (opt_compose _ _ _ _ IHw).
Qed.
End ChangeVariableCompose.

(** X1. Rewriting the variables of a query with [g] after [f] is rewriting
    them once with the composition, through every term, merge query, part,
    with-clause, sort and aggregate. *)
Theorem change_variable_compose (f g : string → string) (q : Query) :
  Query_change_variable g (Query_change_variable f q)
  = Query_change_variable (g ∘ f) q.
Proof. exact (Query_change_variable_compose_fun f g q). Qed.

(** X2. Rewriting the variables of a query with the identity gives the query
    back. *)
Theorem change_variable_id (q : Query) : Query_change_variable id q = q.
Proof.
  rewrite <- (Query_change_variable_roundtrip id id q) at 2 by done.
  symmetry. apply (Query_change_variable_compose_fun id id).
Qed.

(** ** The names of a rewritten query *)

Section ChangeVariableNames.
Variable f : string → string.

Lemma flat_map_map_names {A : Type} (names : A → list string) (cv : A → A)
    (l : list A) :
  Forall (λ a, names (cv a) = map f (names a)) l →
  flat_map names (map cv l) = map f (flat_map names l).
Proof.
  induction 1 as [|a l Ha _ IH]; cbn; [done|].
  by rewrite Ha, IH, map_app.
Qed.

Lemma opt_map_names {A : Type} (names : A → list string) (cv : A → A)
    (o : option A) :
  opt_holds (λ a, names (cv a) = map f (names a)) o →
  opt_names names (option_map cv o) = map f (opt_names names o).
Proof. destruct o as [a|]; cbn; [|done]. by intros ->. Qed.

Lemma Aggregate_names_change_variable (a : Aggregate) :
  Aggregate_names (Aggregate_change_variable f a)
  = map f (Aggregate_names a).
Proof.
  destruct a as [vars funcs]. unfold Aggregate_names, Aggregate_change_variable.
  cbn [agg_group_by agg_group_func]. rewrite map_app. f_equal.
  - induction vars as [|[vn an] vars IH]; cbn; [done|].
    rewrite IH, map_app. f_equal.
    destruct vn as [[n]|ps]; cbn; [done|].
    induction ps as [|[s|[n]] ps IHps]; cbn; [done| |]; by rewrite IHps.
  - induction funcs as [|[fu [n|i] ops an] funcs IH]; cbn; [done| |];
      by rewrite IH.
Qed.

(** X3. The names of a rewritten query are the images of the names of the
    query, in the same order: [change_variable] reaches every name once and
    adds none. *)
Theorem change_variable_names (q : Query) :
  Query_names (Query_change_variable f q) = map f (Query_names q).
Proof.
  revert q.
  apply (Query_query_ind
    (λ t, Term_names (Term_change_variable f t) = map f (Term_names t))
    (λ m, MergeQuery_names (MergeQuery_change_variable f m)
          = map f (MergeQuery_names m))
    (λ q, Query_names (Query_change_variable f q) = map f (Query_names q))
    (λ p, Part_names (Part_change_variable f p) = map f (Part_names p))
    (λ w, WithClause_names (WithClause_change_variable f w)
          = map f (WithClause_names w))); try done.
  - intros l op r IHl IHr. cbn. by rewrite IHl, IHr, map_app.
  - intros pre merge post IHpre IHm IHpost. cbn.
    rewrite IHpre, (flat_map_map_names _ _ _ IHm),
      (opt_map_names _ _ _ IHpost).
    by rewrite !map_app.
  - intros parts preamble agg IH. cbn.
    rewrite (flat_map_map_names _ _ _ IH), map_app. f_equal.
    destruct agg as [a|]; [|done]. cbn.
    apply Aggregate_names_change_variable.
  - intros term tag wc sort limit nav IHt IHw. cbn.
    rewrite IHt, (opt_map_names _ _ _ IHw), !map_app, !map_map.
    do 2 f_equal.
  - intros wf nav term wc IHt IHw. cbn.
    by rewrite (opt_map_names _ _ _ IHt), (opt_map_names _ _ _ IHw), map_app.
Qed.

(** X4. Rewriting the variables of a query renames no merge: the merge
    queries found by name keep their names, and [merge_names] is
    unchanged. *)
Theorem change_variable_keeps_merge_names (q : Query) :
  map mq_name (merge_query_by_name (Query_change_variable f q))
  = map mq_name (merge_query_by_name q)
  ∧ merge_names (Query_change_variable f q) = merge_names q.
Proof.
  assert (map mq_name (merge_query_by_name (Query_change_variable f q))
          = map mq_name (merge_query_by_name q)) as H.
  { destruct q as [parts preamble agg]. unfold merge_query_by_name.
    cbn [Query_change_variable q_parts].
    induction parts as [|[term tag wc sort limit nav] parts IH]; [done|].
    cbn [map flat_map]. rewrite !map_app, IH. f_equal.
    destruct term; try done. cbn. rewrite map_map. apply map_ext.
    by intros [n q o]. }
  split; [done|]. unfold merge_names. by rewrite H.
Qed.
End ChangeVariableNames.

(** ** Sections: absolute names and back *)

Local Open Scope string_scope.

Lemma variable_roundtrip_absolute (section name : string) :
  section ≠ EmptyString →
  Str.startswith PathRoot section = false →
  section_absolute_safe section name = true →
  variable_to_relative section (variable_to_absolute (Some section) name)
  = name.
Proof.
  intros Hne Hns Hsafe. unfold section_absolute_safe in Hsafe.
  unfold variable_to_absolute.
  destruct (Str.startswith PathRoot name) eqn:Hslash.
  - apply andb_prop in Hsafe as [H1 H2].
    apply negb_true_iff in H1, H2.
    unfold variable_to_relative. rewrite H1, H2.
    symmetry. by apply (startswith_split PathRoot).
  - assert (section ≠ PathRoot) as Hroot by (by intros ->).
    rewrite (proj2 (String.eqb_neq _ _) Hne),
      (proj2 (String.eqb_neq _ _) Hroot).
    cbn [negb andb]. unfold variable_to_relative.
    assert (Str.startswith PathRoot (section ++ "." ++ name) = false) as ->.
    { destruct section as [|c section]; [done|].
      rewrite string_app_cons. exact Hns. }
    replace (section ++ "." ++ name) with ((section ++ ".") ++ name)
      by apply string_app_assoc.
    assert (∀ p r, Str.startswith p (p ++ r) = true
                   ∧ Str.drop (String.length p) (p ++ r) = r) as Hp.
    { induction p as [|c p IH]; intros r; [by destruct r|].
      rewrite string_app_cons. cbn. rewrite Ascii.eqb_refl. apply IH. }
    destruct (Hp (section ++ ".") name) as [-> Hd].
    rewrite string_length_app in Hd. exact Hd.
Qed.

(** X5. For a section that is not empty and has no leading slash, resolving
    the names of a query on the section and making them relative to it again
    gives the query back when every rooted name of the query has a remainder
    that is neither rooted nor a name of the section. *)
Theorem section_roundtrip_absolute (q : Query) (section : string) :
  section ≠ EmptyString →
  Str.startswith PathRoot section = false →
  (∀ n, n ∈ Query_names q → section_absolute_safe section n = true) →
  relative_to_section section (on_section (Some section) q) = q.
Proof.
  intros Hne Hns Hsafe. unfold on_section, relative_to_section.
  assert (section ≠ PathRoot) as Hroot by (by intros ->).
  rewrite (proj2 (String.eqb_neq _ _) Hroot). cbn [negb].
  apply Query_change_variable_roundtrip.
  intros n Hn. apply variable_roundtrip_absolute; auto.
Qed.

Lemma section_roundtrip_absolute_witness :
  relative_to_section "reported"
    (on_section (Some "reported")
       (mkQuery [mkPart (and_term (P_eq "name" (JStr "x"))
                                  (P_eq "/ancestors.kind" (JInt 1)))
                        None None [mkSort "age" "asc"] None None]
                [] None))
  = mkQuery [mkPart (and_term (P_eq "name" (JStr "x"))
                              (P_eq "/ancestors.kind" (JInt 1)))
                    None None [mkSort "age" "asc"] None None]
            [] None.
Proof.
  apply section_roundtrip_absolute.
  - discriminate.
  - reflexivity.
  - intros n Hn. vm_compute in Hn.
    repeat (apply elem_of_cons in Hn as [->|Hn]);
      [reflexivity..|by apply elem_of_nil in Hn].
Defined.

(** ** Terms: conjunction and disjunction with [AllTerm] *)

Local Open Scope list_scope.

(** X6. [AllTerm] is neutral for [and_term] and absorbing for [or_term], on
    both sides, and a conjunction holds the predicates of its two sides in
    order. *)
Theorem and_or_term_with_all (a b : Term) :
  and_term AllTerm a = a
  ∧ and_term a AllTerm = a
  ∧ or_term AllTerm a = AllTerm
  ∧ or_term a AllTerm = AllTerm
  ∧ Term_predicates (and_term a b) = Term_predicates a ++ Term_predicates b.
Proof.
  split_and!; try (by destruct a).
  destruct a, b; cbn [and_term Term_predicates app];
    by rewrite ?app_nil_r.
Qed.

(** ** Builders keep a query well formed *)

(** X7. On a query with at least one part no builder raises, and the query
    it returns has at least one part. *)
Theorem builders_keep_parts_nonempty (q : Query) :
  q_parts q ≠ [] →
  ∀ build : Query → result Query,
    (∃ t ts, build = λ q, Query_filter q t ts)
    ∨ (∃ a b et d, build = λ q, Query_traverse q a b et d)
    ∨ (∃ n o, build = λ q, add_sort q n o)
    ∨ (∃ n, build = λ q, with_limit q n)
    ∨ (∃ n, build = λ q, Query_tag q n)
    ∨ (∃ c, build = λ q, filter_with q c)
    ∨ (∃ vs fs, build = λ q, Query_group_by q vs fs)
    ∨ (∃ pre, build = λ q, merge_preamble q pre) →
    ∃ q', build q = Ok q' ∧ q_parts q' ≠ [].
Proof.
  intros Hne build Hb. destruct q as [[|p0 rest] preamble agg]; [done|].
  destruct Hb as [(t & ts & ->)|[(a & b & et & d & ->)|[(n & o & ->)|
    [(n & ->)|[(n & ->)|[(c & ->)|[(vs & fs & ->)|(pre & ->)]]]]]]].
  - unfold Query_filter. cbn [q_parts].
    destruct (p_navigation p0); by eexists.
  - unfold Query_traverse. cbn [q_parts].
    destruct (p_navigation p0) as [nav|]; [|by eexists].
    destruct (_ && _); by eexists.
  - unfold add_sort, change_current_part. cbn [q_parts].
    destruct (p_navigation p0); by eexists.
  - unfold with_limit, change_current_part. cbn [q_parts].
    destruct (p_navigation p0); by eexists.
  - unfold Query_tag, change_current_part. cbn [q_parts].
    destruct (p_navigation p0); by eexists.
  - by eexists.
  - by eexists.
  - by eexists.
Qed.

Lemma builders_keep_parts_nonempty_witness :
  ∃ q', with_limit (mkQuery [Part_of (IsTerm ["volume"])] [] None) 3 = Ok q'
        ∧ q_parts q' ≠ [].
Proof.
  apply (builders_keep_parts_nonempty
           (mkQuery [Part_of (IsTerm ["volume"])] [] None)
           ltac:(discriminate)
           (λ q, with_limit q 3)).
  do 3 right. left. by exists 3.
Defined.

(** X8. Two [add_sort] in a row put both sorts, in order, on one part: the
    second call adds no part, changes no other part, and the current part
    carries no navigation. *)
Theorem add_sort_twice_accumulates
    (q : Query) (n1 o1 n2 o2 : string) :
  q_parts q ≠ [] →
  ∃ q1 q2 p1 p2,
    add_sort q n1 o1 = Ok q1
    ∧ add_sort q1 n2 o2 = Ok q2
    ∧ q_parts q1 = p1 :: tail (q_parts q1)
    ∧ q_parts q2 = p2 :: tail (q_parts q1)
    ∧ p_navigation p2 = None
    ∧ p_sort p2 = p_sort p1 ++ [mkSort n2 o2]
    ∧ ∃ before, p_sort p1 = before ++ [mkSort n1 o1].
Proof.
  intros Hne. destruct q as [[|p0 rest] preamble agg]; [done|].
  unfold add_sort at 1, change_current_part. cbn [q_parts].
  destruct (p_navigation p0) as [nav|] eqn:Hnav.
  - eexists _, _, _, _. split; [reflexivity|].
    unfold add_sort, change_current_part. cbn.
    split; [reflexivity|]. repeat split. by exists [].
  - eexists _, _, _, _. split; [reflexivity|].
    unfold add_sort, change_current_part. cbn. rewrite Hnav.
    split; [reflexivity|]. repeat split; [done|]. by exists (p_sort p0).
Qed.

Lemma add_sort_twice_accumulates_witness :
  ∃ q1 q2 p1 p2,
    add_sort (mkQuery [Part_of (IsTerm ["volume"])] [] None) "name" "asc"
    = Ok q1
    ∧ add_sort q1 "age" "desc" = Ok q2
    ∧ q_parts q1 = p1 :: tail (q_parts q1)
    ∧ q_parts q2 = p2 :: tail (q_parts q1)
    ∧ p_navigation p2 = None
    ∧ p_sort p2 = p_sort p1 ++ [mkSort "age" "desc"]
    ∧ ∃ before, p_sort p1 = before ++ [mkSort "name" "asc"].
Proof.
  apply (add_sort_twice_accumulates
           (mkQuery [Part_of (IsTerm ["volume"])] [] None)).
  discriminate.
Defined.

(** ** Traversals *)



(** X10. A traversal of another edge type or direction than the one the
    current part carries starts a new all-matching part with that navigation
    and leaves every existing part as it is. *)
Theorem traverse_other_kind_starts_part
    (q : Query) (p : Part) (nav : Navigation) (a b : Z)
    (edge_type direction : string) :
  current_part q = Ok p →
  p_navigation p = Some nav →
  nav_edge_type nav ≠ edge_type ∨ nav_direction nav ≠ direction →
  Query_traverse q a b edge_type direction
  = Ok (mkQuery (mkPart AllTerm None None [] None
                   (Some (mkNavigation a b edge_type direction))
                 :: q_parts q)
                (q_preamble q) (q_aggregate q)).
Proof.
  intros Hcur Hnav Hother. apply current_part_inv in Hcur as [rest Hparts].
  unfold Query_traverse. rewrite Hparts, Hnav.
  assert (String.eqb (nav_edge_type nav) edge_type
          && String.eqb (nav_direction nav) direction = false) as ->.
  { apply andb_false_iff.
    destruct Hother as [H|H]; [left|right]; by apply String.eqb_neq. }
  reflexivity.
Qed.

Lemma traverse_other_kind_starts_part_witness :
  Query_traverse
    (mkQuery [mkPart AllTerm None None [] None
                (Some (mkNavigation 1 1 "default" "out"))] [] None)
    1 2 "default" "in"
  = Ok (mkQuery [mkPart AllTerm None None [] None
                   (Some (mkNavigation 1 2 "default" "in"));
                 mkPart AllTerm None None [] None
                   (Some (mkNavigation 1 1 "default" "out"))]
                [] None).
Proof.
  apply (traverse_other_kind_starts_part
           (mkQuery [mkPart AllTerm None None [] None
                       (Some (mkNavigation 1 1 "default" "out"))] [] None)
           (mkPart AllTerm None None [] None
                   (Some (mkNavigation 1 1 "default" "out")))
           (mkNavigation 1 1 "default" "out"));
    [reflexivity..|right; discriminate].
Defined.

(** X11. A filter that follows a traversal starts a new part: the part the
    traversal left, with its navigation, stays behind it untouched. *)
Theorem filter_after_traverse_starts_part
    (q : Query) (a b : Z) (edge_type direction : string)
    (t : StrOrTerm) (ts : list StrOrTerm) :
  q_parts q ≠ [] →
  ∃ q1,
    Query_traverse q a b edge_type direction = Ok q1
    ∧ Query_filter q1 t ts
      = Ok (mkQuery (Part_of (mk_term t ts) :: q_parts q1)
                    (q_preamble q) (q_aggregate q)).
Proof.
  intros Hne. destruct q as [[|p0 rest] preamble agg]; [done|].
  unfold Query_traverse. cbn [q_parts].
  destruct (p_navigation p0) as [nav|] eqn:Hnav.
  - destruct (_ && _); eexists; (split; [reflexivity|]); reflexivity.
  - eexists. split; [reflexivity|]. reflexivity.
Qed.

Lemma filter_after_traverse_starts_part_witness :
  ∃ q1,
    Query_traverse (mkQuery [Part_of (IsTerm ["aws_instance"])] [] None)
                   1 1 "default" "out" = Ok q1
    ∧ Query_filter q1 (ArgTerm (P_eq "x" (JInt 1))) []
      = Ok (mkQuery (Part_of (P_eq "x" (JInt 1)) :: q_parts q1) [] None).
Proof.
  apply (filter_after_traverse_starts_part
           (mkQuery [Part_of (IsTerm ["aws_instance"])] [] None)).
  discriminate.
Defined.

(** ** Combining queries *)

Lemma last_part_snoc (init : list Part) (last : Part) :
  last_part (init ++ [last]) = Ok (init, last).
Proof.
  unfold last_part. rewrite reverse_app, reverse_singleton. cbn [app].
  by rewrite reverse_involutive.
Qed.

Lemma Query_new_snoc (init : list Part) (p : Part)
    (preamble : list (string * SimpleValue)) (agg : option Aggregate) :
  Query_new (init ++ [p]) preamble agg
  = Ok (mkQuery (init ++ [p]) preamble agg).
Proof. by destruct init. Qed.

Lemma combine_by_term (term : Term) (other : Query) (init : list Part)
    (last : Part) :
  q_parts other = init ++ [last] →
  Query_combine (mkQuery [Part_of term] [] None) other
  = Ok (mkQuery
          (init ++ [replace_term last (and_term term (p_term last))])
          (Dict.of_items (q_preamble other))
          (q_aggregate other)).
Proof.
  intros Hparts. unfold Query_combine.
  cbn [q_aggregate q_preamble q_parts current_part rbind Part_of].
  rewrite Hparts, last_part_snoc.
  unfold Part_of.
  cbn [rbind p_navigation p_with_clause p_tag p_term p_sort p_limit
       truthy_obj truthy_opt_str andb combine_optional tail].
  rewrite bool_decide_eq_true_2 by done. cbn [negb andb].
  rewrite Query_new_snoc. unfold Dict.of_items. do 3 f_equal.
  destruct last as [t tag wc sort limit nav]. unfold replace_term. cbn.
  f_equal. by destruct sort.
Qed.

(** X12. Combining [Query.by(term)] with a query that has a part never
    raises and keeps the shape of that query: only the term of its first
    part in execution order changes, to the conjunction with [term]; tags,
    with-clauses, sorts, limits, navigations and the aggregate are the
    query's own. *)
Theorem combine_by_term_keeps_shape (term : Term) (other : Query) :
  q_parts other ≠ [] →
  ∃ init last,
    q_parts other = init ++ [last]
    ∧ Query_combine (mkQuery [Part_of term] [] None) other
      = Ok (mkQuery
              (init ++ [replace_term last (and_term term (p_term last))])
              (Dict.of_items (q_preamble other))
              (q_aggregate other)).
Proof.
  intros Hne.
  destruct (q_parts other) as [|last init _] eqn:Hparts using rev_ind;
    [done|].
  exists init, last. split; [done|]. by apply combine_by_term.
Qed.

Lemma combine_by_term_keeps_shape_witness :
  ∃ init last,
    [mkPart AllTerm None None [] None
       (Some (mkNavigation 1 1 "default" "out"));
     mkPart (IsTerm ["volume"]) (Some "t") None [mkSort "name" "asc"]
            (Some 5) None]
    = init ++ [last]
    ∧ Query_combine
        (mkQuery [Part_of (P_is_in "ancestors.account.reported.id"
                                   [JStr "a1"])] [] None)
        (mkQuery [mkPart AllTerm None None [] None
                    (Some (mkNavigation 1 1 "default" "out"));
                  mkPart (IsTerm ["volume"]) (Some "t") None
                         [mkSort "name" "asc"] (Some 5) None]
                 [] None)
      = Ok (mkQuery
              (init
               ++ [replace_term last
                     (and_term (P_is_in "ancestors.account.reported.id"
                                        [JStr "a1"])
                               (p_term last))])
              (Dict.of_items []) None).
Proof.
  apply (combine_by_term_keeps_shape
           (P_is_in "ancestors.account.reported.id" [JStr "a1"])
           (mkQuery [mkPart AllTerm None None [] None
                       (Some (mkNavigation 1 1 "default" "out"));
                     mkPart (IsTerm ["volume"]) (Some "t") None
                            [mkSort "name" "asc"] (Some 5) None]
                    [] None)).
  discriminate.
Defined.

(** X13. When the current part of the left query carries a navigation,
    [combine] puts the parts of the two queries one after the other and
    checks no tag, with-clause, sort or limit: it raises only for two
    aggregates. *)
Theorem combine_after_navigation_concatenates
    (self other : Query) (p : Part) (nav : Navigation) :
  current_part self = Ok p →
  p_navigation p = Some nav →
  q_parts other ≠ [] →
  q_aggregate self = None ∨ q_aggregate other = None →
  Query_combine self other
  = Ok (mkQuery (q_parts other ++ q_parts self)
                (Dict.update (q_preamble self) (q_preamble other))
                (match q_aggregate self with
                 | Some a => Some a
                 | None => q_aggregate other
                 end)).
Proof.
  intros Hcur Hnav Hne Hagg. unfold Query_combine. rewrite Hcur.
  assert (∃ init last, q_parts other = init ++ [last]) as (init & last & Ho).
  { destruct (q_parts other) as [|x l] using rev_ind; [done|]. by eexists _, _. }
  rewrite Ho, last_part_snoc.
  assert (∀ agg,
            Query_new ((init ++ [last]) ++ q_parts self)
                      (Dict.update (q_preamble self) (q_preamble other)) agg
            = Ok (mkQuery ((init ++ [last]) ++ q_parts self)
                          (Dict.update (q_preamble self) (q_preamble other))
                          agg)) as Hnew.
  { intros agg. by destruct init. }
  destruct Hagg as [Hs|Ho'].
  - rewrite Hs. cbn [rbind]. rewrite Hnav. apply Hnew.
  - rewrite Ho'. destruct (q_aggregate self); cbn [rbind]; rewrite Hnav;
      apply Hnew.
Qed.

Lemma combine_after_navigation_concatenates_witness :
  Query_combine
    (mkQuery [mkPart AllTerm (Some "a") None [] None
                (Some (mkNavigation 1 1 "default" "out"))] [] None)
    (mkQuery [mkPart (IsTerm ["volume"]) (Some "b") None [] None None]
             [] None)
  = Ok (mkQuery
          ([mkPart (IsTerm ["volume"]) (Some "b") None [] None None]
           ++ [mkPart AllTerm (Some "a") None [] None
                 (Some (mkNavigation 1 1 "default" "out"))])
          (Dict.update [] []) None).
Proof.
  apply (combine_after_navigation_concatenates
           (mkQuery [mkPart AllTerm (Some "a") None [] None
                       (Some (mkNavigation 1 1 "default" "out"))] [] None)
           (mkQuery [mkPart (IsTerm ["volume"]) (Some "b") None [] None None]
                    [] None)
           (mkPart AllTerm (Some "a") None [] None
                   (Some (mkNavigation 1 1 "default" "out")))
           (mkNavigation 1 1 "default" "out"));
    [reflexivity|reflexivity|discriminate|by left].
Defined.

(** X14. The clashes [combine] rejects, in the order it finds them: two
    aggregates first, whatever the parts; then, when the current part of the
    left query carries no navigation, two with-clauses; then two tags. *)
Theorem combine_rejects_clashes
    (self other : Query) (p last : Part) (init : list Part) :
  current_part self = Ok p →
  q_parts other = init ++ [last] →
  (truthy_obj (q_aggregate self) && truthy_obj (q_aggregate other) = true →
   Query_combine self other
   = Raise (AttributeError "Can not combine 2 aggregations!"))
  ∧ (truthy_obj (q_aggregate self) && truthy_obj (q_aggregate other) = false →
     p_navigation p = None →
     (truthy_obj (p_with_clause p) && truthy_obj (p_with_clause last) = true →
      Query_combine self other
      = Raise (AttributeError "Can not combine 2 with clauses!"))
     ∧ (truthy_obj (p_with_clause p) && truthy_obj (p_with_clause last)
        = false →
        truthy_opt_str (p_tag p) && truthy_opt_str (p_tag last) = true →
        Query_combine self other
        = Raise (AttributeError "Can not combine 2 tag clauses!"))).
Proof.
  intros Hcur Ho. unfold Query_combine. rewrite Hcur, Ho, last_part_snoc.
  split.
  - by destruct (q_aggregate self), (q_aggregate other).
  - intros Hagg Hnav.
    destruct (q_aggregate self), (q_aggregate other); try done;
      cbn [rbind]; rewrite Hnav; (split; [by intros ->|by intros -> ->]).
Qed.

Lemma combine_rejects_clashes_witness :
  Query_combine
    (mkQuery [mkPart AllTerm (Some "a") None [] None None] [] None)
    (mkQuery [mkPart (IsTerm ["volume"]) (Some "b") None [] None None]
             [] None)
  = Raise (AttributeError "Can not combine 2 tag clauses!").
Proof.
  destruct (combine_rejects_clashes
              (mkQuery [mkPart AllTerm (Some "a") None [] None None] [] None)
              (mkQuery [mkPart (IsTerm ["volume"]) (Some "b") None [] None
                               None] [] None)
              (mkPart AllTerm (Some "a") None [] None None)
              (mkPart (IsTerm ["volume"]) (Some "b") None [] None None)
              [] eq_refl eq_refl) as [_ H].
  destruct (H eq_refl eq_refl) as [_ Htag]. by apply Htag.
Defined.

(** ** Lookups in insertion-ordered dictionaries *)

Section DictGet.
Context {V : Type}.
Implicit Types (d e : Dict.t V) (k : string) (v : V).

Lemma dict_get_set_eq k v d : Dict.get k (Dict.set k v d) = Some v.
Proof.
  induction d as [|[k0 v0] d IH]; cbn.
  - by rewrite String.eqb_refl.
  - destruct (String.eqb_spec k k0) as [->|Hne]; cbn.
    + by rewrite String.eqb_refl.
    + by rewrite (proj2 (String.eqb_neq _ _) Hne).
Qed.

Lemma dict_get_set_ne k k' v d :
  k ≠ k' → Dict.get k (Dict.set k' v d) = Dict.get k d.
Proof.
  intros Hne. induction d as [|[k0 v0] d IH]; cbn.
  - by rewrite (proj2 (String.eqb_neq _ _) Hne).
  - destruct (String.eqb_spec k' k0) as [->|Hne']; cbn.
    + by rewrite (proj2 (String.eqb_neq _ _) Hne).
    + by rewrite IH.
Qed.

Lemma dict_get_None k d : Dict.get k d = None ↔ k ∉ Dict.keys d.
Proof.
  induction d as [|[k0 v0] d IH]; cbn.
  - split; [intros _; apply not_elem_of_nil|done].
  - destruct (String.eqb_spec k k0) as [->|Hne].
    + split; [done|]. intros H. exfalso. apply H. by left.
    + rewrite IH. split.
      * intros H [?|?]%elem_of_cons; done.
      * intros H Hin. apply H. by right.
Qed.

Lemma dict_get_update k d e :
  NoDup (Dict.keys e) →
  Dict.get k (Dict.update d e)
  = match Dict.get k e with
    | Some v => Some v
    | None => Dict.get k d
    end.
Proof.
  revert d. induction e as [|[k1 v1] e IH]; intros d Hnd; [done|].
  apply NoDup_cons in Hnd as [Hk1 Hnd].
  rewrite dict_update_cons, IH by done. cbn [Dict.get].
  destruct (String.eqb_spec k k1) as [->|Hne].
  - rewrite (proj2 (dict_get_None k1 e) Hk1). apply dict_get_set_eq.
  - by rewrite dict_get_set_ne.
Qed.
End DictGet.

(** X15. [merge_preamble] overwrites: in the merged preamble a key of the
    extra preamble has the extra value and every other key keeps the value
    it had; the parts and the aggregate are untouched. *)
Theorem merge_preamble_overwrites
    (q : Query) (extra : list (string * SimpleValue)) :
  q_parts q ≠ [] →
  NoDup (Dict.keys extra) →
  ∃ q',
    merge_preamble q extra = Ok q'
    ∧ q_parts q' = q_parts q
    ∧ q_aggregate q' = q_aggregate q
    ∧ ∀ k, Dict.get k (q_preamble q')
           = match Dict.get k extra with
             | Some v => Some v
             | None => Dict.get k (q_preamble q)
             end.
Proof.
  intros Hne Hnd. destruct q as [[|p0 rest] preamble agg]; [done|].
  unfold merge_preamble. cbn [q_parts q_preamble q_aggregate Query_new].
  eexists. split; [reflexivity|]. cbn [q_parts q_preamble q_aggregate].
  repeat split. intros k. destruct preamble as [|kv preamble].
  - by destruct (Dict.get k extra).
  - by apply dict_get_update.
Qed.

Lemma merge_preamble_overwrites_witness :
  ∃ q',
    merge_preamble
      (mkQuery [Part_of AllTerm] [("edge_type", SVStr "default");
                                  ("merge_with_ancestors", SVStr "cloud")]
               None)
      [("edge_type", SVStr "delete")] = Ok q'
    ∧ q_parts q' = [Part_of AllTerm]
    ∧ q_aggregate q' = None
    ∧ ∀ k, Dict.get k (q_preamble q')
           = match Dict.get k [("edge_type", SVStr "delete")] with
             | Some v => Some v
             | None => Dict.get k [("edge_type", SVStr "default");
                                   ("merge_with_ancestors", SVStr "cloud")]
             end.
Proof.
  apply (merge_preamble_overwrites
           (mkQuery [Part_of AllTerm]
                    [("edge_type", SVStr "default");
                     ("merge_with_ancestors", SVStr "cloud")] None)
           [("edge_type", SVStr "delete")]).
  - discriminate.
  - apply NoDup_singleton.
Defined.

(** ** Grouping the failing resources by account *)

Section GroupRows.
Variable self : InspectorService.

(** The account a row is filed under, if any. *)
Let account_of (row : Json) : option string :=
  match ancestor_account_id self row with
  | Some a => if truthy_str a then Some a else None
  | None => None
  end.

Let step (acc : SingleCheckResult) (resource : Json) : SingleCheckResult :=
  match ancestor_account_id self resource with
  | Some account_id =>
      if truthy_str account_id
      then append_to account_id (bend_resource self resource) acc
      else acc
  | None => acc
  end.

Lemma group_rows_fold (rows : list Json) (acc : SingleCheckResult)
    (account : string) :
  default [] (Dict.get account (fold_left step rows acc))
  = default [] (Dict.get account acc)
    ++ map (bend_resource self)
           (List.filter (λ row, bool_decide (account_of row = Some account))
                        rows).
Proof.
  revert acc. induction rows as [|row rows IH]; intros acc.
  - cbn. by rewrite app_nil_r.
  - cbn [fold_left List.filter]. rewrite IH. unfold step, account_of.
    destruct (ancestor_account_id self row) as [a|]; [|done].
    destruct (truthy_str a); [|done].
    unfold append_to. destruct (decide (a = account)) as [->|Hne].
    + rewrite dict_get_set_eq, bool_decide_eq_true_2 by done.
      cbn [default map]. unfold id. by rewrite <- app_assoc.
    + rewrite dict_get_set_ne by done.
      rewrite bool_decide_eq_false_2; [done|]. by intros [=].
Qed.

Lemma group_rows_keys (rows : list Json) (acc : SingleCheckResult)
    (account : string) :
  account ∈ Dict.keys (fold_left step rows acc) →
  account ∈ Dict.keys acc ∨ ∃ row, row ∈ rows ∧ account_of row = Some account.
Proof.
  revert acc. induction rows as [|row rows IH]; intros acc; [by left|].
  cbn [fold_left]. intros [H|(r & Hr & Ha)]%IH.
  - unfold step in H. unfold account_of.
    destruct (ancestor_account_id self row) as [a|] eqn:Ha; [|by left].
    destruct (truthy_str a) eqn:Ht; [|by left].
    unfold append_to in H. rewrite dict_keys_set in H.
    case_decide; [by left|].
    apply elem_of_app in H as [H| ->%list_elem_of_singleton]; [by left|].
    right. exists row. split; [by left|]. by rewrite Ha, Ht.
  - right. exists r. split; [by right|done].
Qed.

(** X16. [__perform_check] files every row under the account id found in
    it: the list of an account holds the projections of exactly the rows of
    that account, in cursor order; rows without an account id are dropped;
    an account is a key only if a row carries it. *)
Theorem group_rows_by_account (rows : list Json) (account : string) :
  default [] (Dict.get account (group_rows self rows))
  = map (bend_resource self)
        (List.filter
           (λ row, bool_decide
                     (match ancestor_account_id self row with
                      | Some a => if truthy_str a then Some a else None
                      | None => None
                      end = Some account))
           rows)
  ∧ (account ∈ Dict.keys (group_rows self rows) →
     ∃ row, row ∈ rows ∧ ancestor_account_id self row = Some account).
Proof.
  split.
  - apply (group_rows_fold rows [] account).
  - intros [H|(row & Hr & Ha)]%group_rows_keys;
      [by apply elem_of_nil in H|].
    exists row. split; [done|]. unfold account_of in Ha.
    destruct (ancestor_account_id self row) as [a|]; [|done].
    by destruct (truthy_str a).
Qed.
End GroupRows.

(** ** The walk of the rewriter *)

Section RewriteWalk.
Variable resolved : list string.

Abbreviation has_ad' := (has_ancestor_descendant resolved).
Abbreviation adp' := (ancestor_descendant_predicates resolved).
Abbreviation walk' := (walk_term resolved).

Lemma adp_nil_iff (t : Term) : adp' t = [] ↔ has_ad' t = false.
Proof.
  apply (Term_query_ind
    (λ t, adp' t = [] ↔ has_ad' t = false)
    (λ _, True) (λ _, True) (λ _, True) (λ _, True)); try done.
  - intros n op v args. cbn.
    by destruct (is_ancestor_descendant resolved n).
  - intros l op r IHl IHr. cbn.
    rewrite orb_false_iff, <- IHl, <- IHr. split.
    + by intros [? ?]%app_eq_nil.
    + by intros [-> ->].
  - intros pre merge [post|] IHpre _ IHpost; cbn.
    + cbn in IHpost. rewrite orb_false_iff, <- IHpre, <- IHpost. split.
      * by intros [? ?]%app_eq_nil.
      * by intros [-> ->].
    + by rewrite app_nil_r, orb_false_r.
Qed.

Lemma adp_and_term (a b : Term) :
  adp' (and_term a b) = adp' a ++ adp' b.
Proof.
  destruct a, b; cbn [and_term ancestor_descendant_predicates app];
    by rewrite ?app_nil_r.
Qed.

Lemma adp_are_predicates (t x : Term) :
  x ∈ adp' t →
  ∃ n op v args,
    x = Predicate n op v args ∧ is_ancestor_descendant resolved n = true.
Proof.
  revert x.
  apply (Term_query_ind
    (λ t, ∀ x, x ∈ adp' t →
               ∃ n op v args,
                 x = Predicate n op v args
                 ∧ is_ancestor_descendant resolved n = true)
    (λ _, True) (λ _, True) (λ _, True) (λ _, True)); try done.
  - intros x H. by apply elem_of_nil in H.
  - intros n op v args x. cbn.
    destruct (is_ancestor_descendant resolved n) eqn:Hn.
    + intros ->%list_elem_of_singleton. by eexists _, _, _, _.
    + by intros H%elem_of_nil.
  - intros l op r IHl IHr x. cbn. intros [H|H]%elem_of_app; auto.
  - intros i x H. by apply elem_of_nil in H.
  - intros ks x H. by apply elem_of_nil in H.
  - intros f p args x H. by apply elem_of_nil in H.
  - intros pre merge [post|] IHpre _ IHpost x; cbn.
    + intros [H|H]%elem_of_app; auto.
    + rewrite app_nil_r. auto.
Qed.

(** What a successful walk of a combined term keeps, given what the walks
    of its sides keep. *)
Lemma walk_combined_predicates (term l r : Term) (op : string)
    (wl wr : WalkState → result WalkState) (st st' : WalkState) :
  adp' term = adp' l ++ adp' r →
  (∀ s s', wl s = Ok s' →
           adp' (before_merge s') = adp' (before_merge s)
           ∧ adp' (after_merge s') = adp' (after_merge s) ++ adp' l) →
  (∀ s s', wr s = Ok s' →
           adp' (before_merge s') = adp' (before_merge s)
           ∧ adp' (after_merge s') = adp' (after_merge s) ++ adp' r) →
  walk_combined resolved term l r op wl wr st = Ok st' →
  adp' (before_merge st') = adp' (before_merge st)
  ∧ adp' (after_merge st') = adp' (after_merge st) ++ adp' l ++ adp' r.
Proof.
  intros Hterm IHl IHr Hw. unfold walk_combined in Hw.
  destruct (String.eqb op "or").
  - injection Hw as <-. cbn. by rewrite adp_and_term, Hterm.
  - destruct (has_ad' l) eqn:Hl, (has_ad' r) eqn:Hr; cbn [andb] in Hw.
    + destruct (wl st) as [st1|e] eqn:H1; [|done]. cbn in Hw.
      destruct (IHl _ _ H1) as [Hb1 Ha1], (IHr _ _ Hw) as [Hb2 Ha2].
      by rewrite Hb2, Hb1, Ha2, Ha1, app_assoc.
    + destruct (IHl _ _ Hw) as [Hb Ha]. cbn in Hb, Ha.
      rewrite Hb, Ha, adp_and_term.
      rewrite (proj2 (adp_nil_iff r) Hr). by rewrite !app_nil_r.
    + destruct (IHr _ _ Hw) as [Hb Ha]. cbn in Hb, Ha.
      rewrite Hb, Ha, adp_and_term.
      rewrite (proj2 (adp_nil_iff l) Hl). by rewrite !app_nil_r.
    + done.
Qed.

Lemma walk_predicates (t : Term) :
  ∀ st st',
    walk' t st = Ok st' →
    adp' (before_merge st') = adp' (before_merge st)
    ∧ adp' (after_merge st') = adp' (after_merge st) ++ adp' t.
Proof.
  apply (Term_query_ind
    (λ t, ∀ st st',
        walk' t st = Ok st' →
        adp' (before_merge st') = adp' (before_merge st)
        ∧ adp' (after_merge st') = adp' (after_merge st) ++ adp' t)
    (λ _, True) (λ _, True) (λ _, True) (λ _, True)); try done;
    try (intros; match goal with
                 | H : walk' _ _ = Ok _ |- _ =>
                     cbn in H; injection H as <-; cbn;
                     by rewrite adp_and_term
                 end).
  - intros l op r IHl IHr st st' Hw. cbn [walk_term] in Hw.
    by apply (walk_combined_predicates (CombinedTerm l op r) l r op
                (walk' l) (walk' r) st st').
  - intros pre merge [post|] IHpre _ IHpost st st' Hw;
      cbn [walk_term] in Hw.
    + by apply (walk_combined_predicates (CombinedTerm pre "and" post)
                  pre post "and" (walk' pre) (walk' post) st st').
    + cbn. rewrite app_nil_r. by apply IHpre.
Qed.

Lemma walk_term_returns (t : Term) (st : WalkState) :
  has_ancestor_descendant resolved t = true →
  ∃ st', walk_term resolved t st = Ok st'.
Proof.
  revert st.
  apply (Term_query_ind
    (λ t, ∀ st, has_ad' t = true → ∃ st', walk' t st = Ok st')
    (λ _, True) (λ _, True) (λ _, True) (λ _, True)); try done;
    try (intros; by eexists).
  - intros l op r IHl IHr st Had. cbn [walk_term]. unfold walk_combined.
    destruct (String.eqb op "or"); [by eexists|]. cbn in Had.
    destruct (has_ad' l) eqn:Hl, (has_ad' r) eqn:Hr; cbn [andb]; try done;
      [|by apply IHl|by apply IHr].
    destruct (IHl st eq_refl) as [st1 ->]. cbn. by apply IHr.
  - intros pre merge [post|] IHpre _ IHpost st Had; cbn [walk_term].
    + unfold walk_combined. cbn [String.eqb Ascii.eqb Bool.eqb].
      cbn in Had, IHpost.
      destruct (has_ad' pre) eqn:Hl, (has_ad' post) eqn:Hr; cbn [andb];
        try done; [|by apply IHpre|by apply IHpost].
      destruct (IHpre st eq_refl) as [st1 ->]. cbn. by apply IHpost.
    + apply IHpre. cbn in Had. by rewrite orb_false_r in Had.
Qed.

(** X17. The branch of [walk_term] that raises [NotImplementedError] is
    never reached from the rewriter: on a term that holds an
    ancestor/descendant predicate the walk returns, whatever the two
    accumulators hold, and it moves every such predicate of the term, in
    order, to [after_merge] and none to [before_merge]. *)
Theorem walk_term_never_unsound (t : Term) (st : WalkState) :
  has_ancestor_descendant resolved t = true →
  ∃ st',
    walk_term resolved t st = Ok st'
    ∧ ancestor_descendant_predicates resolved (before_merge st')
      = ancestor_descendant_predicates resolved (before_merge st)
    ∧ ancestor_descendant_predicates resolved (after_merge st')
      = ancestor_descendant_predicates resolved (after_merge st)
        ++ ancestor_descendant_predicates resolved t.
Proof.
  intros Had. destruct (walk_term_returns t st Had) as [st' Hw].
  exists st'. split; [done|]. by apply walk_predicates.
Qed.
End RewriteWalk.

Lemma walk_term_never_unsound_witness :
  ∃ st',
    walk_term []
      (CombinedTerm (P_eq "k" (JInt 1)) "and"
                    (NotTerm (P_eq "descendants.volume.reported.size"
                                   (JInt 3))))
      (mkWalkState AllTerm AllTerm) = Ok st'
    ∧ ancestor_descendant_predicates [] (before_merge st') = []
    ∧ ancestor_descendant_predicates [] (after_merge st')
      = [P_eq "descendants.volume.reported.size" (JInt 3)].
Proof.
  apply (walk_term_never_unsound []
           (CombinedTerm (P_eq "k" (JInt 1)) "and"
                         (NotTerm (P_eq "descendants.volume.reported.size"
                                        (JInt 3))))
           (mkWalkState AllTerm AllTerm)).
  reflexivity.
Defined.

(** ** Grouping by key *)

Section GroupByFacts.
Context {A K : Type} `{EqDecision K}.
Variable f : A → result K.

Let step (acc : result (list (K * list A))) (a : A)
    : result (list (K * list A)) :=
  try! d ← acc; try! k ← f a; Ok (group_add k a d).

Lemma group_add_keys (k : K) (a : A) (d : list (K * list A)) :
  map fst (group_add k a d)
  = if decide (k ∈ map fst d) then map fst d else map fst d ++ [k].
Proof.
  induction d as [|[k0 l0] d IH]; cbn.
  - case_decide as H; [by apply elem_of_nil in H|done].
  - destruct (decide (k = k0)) as [->|Hne]; cbn.
    + rewrite decide_True by left. done.
    + rewrite IH. destruct (decide (k ∈ map fst d)) as [Hin|Hnin].
      * rewrite decide_True by (by right). done.
      * rewrite decide_False; [done|]. intros [?|?]%elem_of_cons; done.
Qed.

Lemma group_add_elem (k k' : K) (a : A) (d : list (K * list A)) :
  k' ∈ map fst (group_add k a d) ↔ k' = k ∨ k' ∈ map fst d.
Proof.
  rewrite group_add_keys. case_decide as Hin.
  - split; [by right|]. by intros [->|?].
  - rewrite elem_of_app, list_elem_of_singleton. tauto.
Qed.

Lemma group_add_NoDup (k : K) (a : A) (d : list (K * list A)) :
  NoDup (map fst d) → NoDup (map fst (group_add k a d)).
Proof.
  intros Hnd. rewrite group_add_keys. case_decide as Hin; [done|].
  apply NoDup_app. split_and!; [done| |apply NoDup_singleton].
  by intros x Hx ->%list_elem_of_singleton.
Qed.

Lemma group_by_raised (l : list A) (e : Exc) :
  fold_left step l (Raise e) = Raise e.
Proof. induction l as [|a l IH]; [done|]. apply IH. Qed.

Lemma group_by_fold_ok (l : list A) (d d' : list (K * list A)) :
  fold_left step l (Ok d) = Ok d' →
  (∀ a, a ∈ l → ∃ k, f a = Ok k ∧ k ∈ map fst d')
  ∧ (∀ k, k ∈ map fst d' →
          k ∈ map fst d ∨ ∃ a, a ∈ l ∧ f a = Ok k)
  ∧ (∀ k, k ∈ map fst d → k ∈ map fst d')
  ∧ (NoDup (map fst d) → NoDup (map fst d')).
Proof.
  revert d. induction l as [|a l IH]; intros d.
  - intros [= ->]. split_and!; try done.
    + intros a H. by apply elem_of_nil in H.
    + intros k H. by left.
  - cbn [fold_left]. unfold step at 2. cbn [rbind].
    destruct (f a) as [k|e] eqn:Hfa; cbn [rbind].
    + intros Hfold. destruct (IH _ Hfold) as (H1 & H2 & H3 & H4).
      split_and!.
      * intros a' [->|Hin]%elem_of_cons; [|by apply H1].
        exists k. split; [done|]. apply H3, group_add_elem. by left.
      * intros k' Hk'. destruct (H2 _ Hk') as [Hd|(a' & Ha' & Hf)].
        -- apply group_add_elem in Hd as [->|?]; [|by left].
           right. exists a. split; [by left|done].
        -- right. exists a'. split; [by right|done].
      * intros k' Hk'. apply H3, group_add_elem. by right.
      * intros Hnd. by apply H4, group_add_NoDup.
    + by rewrite group_by_raised.
Qed.

Lemma group_by_fold_all_ok (l : list A) (d : list (K * list A)) :
  (∀ a, a ∈ l → ∃ k, f a = Ok k) →
  ∃ d', fold_left step l (Ok d) = Ok d'.
Proof.
  revert d. induction l as [|a l IH]; intros d Hall; [by eexists|].
  cbn [fold_left]. unfold step at 2. cbn [rbind].
  destruct (Hall a) as [k ->]; [by left|]. cbn [rbind].
  apply IH. intros a' Ha'. apply Hall. by right.
Qed.

Lemma group_by_fold_fails (l : list A) (d : list (K * list A)) (e0 : Exc) :
  (∃ a, a ∈ l ∧ ∃ e, f a = Raise e) →
  (∀ a e, a ∈ l → f a = Raise e → e = e0) →
  fold_left step l (Ok d) = Raise e0.
Proof.
  revert d. induction l as [|a l IH]; intros d (x & Hx & e & He) Hsame.
  - by apply elem_of_nil in Hx.
  - cbn [fold_left]. unfold step at 2. cbn [rbind].
    destruct (f a) as [k|e'] eqn:Hfa; cbn [rbind].
    + apply IH.
      * apply elem_of_cons in Hx as [->|Hx]; [congruence|].
        exists x. split; [done|]. by exists e.
      * intros a' e'' Ha'. apply Hsame. by right.
    + rewrite group_by_raised. f_equal. apply (Hsame a); [by left|done].
Qed.
End GroupByFacts.

(** ** What the rewriter returns *)

Section RewriteOutcome.
Variable resolved : list string.

Abbreviation has_ad'' := (has_ancestor_descendant resolved).
Abbreviation adp'' := (ancestor_descendant_predicates resolved).
Abbreviation rewrite'' := (rewrite_for_ancestors_descendants resolved).

(** The name of an ancestor/descendant predicate holds a dot, so its split
    has two pieces at least: the unpacking fails on two pieces only. *)
Lemma split2_prefixed (n : string) :
  is_ancestor_descendant resolved n = true →
  ∃ a b, Str.split2 dot n = [a; b] ∨ ∃ c, Str.split2 dot n = [a; b; c].
Proof.
  unfold is_ancestor_descendant.
  intros [_ [H|H]%orb_true_iff]%andb_true_iff;
    apply startswith_split in H; rewrite H; unfold Str.split2;
    [change (Str.split1 dot
               ("ancestors." ++ Str.drop (String.length "ancestors.") n))
       with ("ancestors"%string,
             Some (Str.drop (String.length "ancestors.") n))
    |change (Str.split1 dot
               ("descendants." ++ Str.drop (String.length "descendants.") n))
       with ("descendants"%string,
             Some (Str.drop (String.length "descendants.") n))];
    cbn iota;
    destruct (Str.split1 dot (Str.drop _ n)) as [b [c|]]; eauto.
Qed.

Lemma name_predicate_error (n op : string) (v : Json)
    (args : list (string * Json)) (e : Exc) :
  is_ancestor_descendant resolved n = true →
  name_predicate (Predicate n op v args) = Raise e →
  e = ValueError "not enough values to unpack (expected 3, got 2)".
Proof.
  intros (a & b & [Hs|[c Hs]])%split2_prefixed; cbn; rewrite Hs;
    by intros [= <-].
Qed.

(** The state a successful walk of the part's term ends in. *)
Lemma rewrite_walk (p : Part) :
  has_ad'' (p_term p) = true →
  ∃ st,
    walk_term resolved (p_term p) (mkWalkState AllTerm AllTerm) = Ok st
    ∧ has_ad'' (before_merge st) = false
    ∧ adp'' (after_merge st) = adp'' (p_term p).
Proof.
  intros Had.
  destruct (walk_term_returns resolved _ (mkWalkState AllTerm AllTerm) Had)
    as [st Hw].
  exists st. split; [done|].
  destruct (walk_predicates resolved _ _ _ Hw) as [Hb Ha].
  split; [|exact Ha]. by apply adp_nil_iff.
Qed.

(** X18. The rewriter returns a part exactly when the name of every
    ancestor/descendant predicate of the term has its three segments: a part
    without such a predicate comes back as it is, and one malformed name
    makes the rewriter raise the [ValueError] of the unpacking, which
    reports the two pieces such a name splits into. *)
Theorem rewrite_outcome (p : Part) :
  (has_ancestor_descendant resolved (p_term p) = false →
   rewrite_for_ancestors_descendants resolved p = Ok p)
  ∧ (has_ancestor_descendant resolved (p_term p) = true →
     ((∀ x, x ∈ ancestor_descendant_predicates resolved (p_term p) →
            ∃ key, name_predicate x = Ok key) →
      ∃ p', rewrite_for_ancestors_descendants resolved p = Ok p')
     ∧ ((∃ x, x ∈ ancestor_descendant_predicates resolved (p_term p)
              ∧ ∀ key, name_predicate x ≠ Ok key) →
        rewrite_for_ancestors_descendants resolved p
        = Raise (ValueError
                   "not enough values to unpack (expected 3, got 2)"))).
Proof.
  unfold rewrite_for_ancestors_descendants. split; [by intros ->|].
  intros Had. rewrite Had.
  destruct (rewrite_walk p Had) as (st & -> & _ & Hadp). cbn [rbind].
  unfold group_by. rewrite Hadp. split.
  - intros Hall.
    destruct (group_by_fold_all_ok name_predicate _ [] Hall) as [d ->].
    by eexists.
  - intros (x & Hx & Hfail).
    rewrite (group_by_fold_fails name_predicate _ []
               (ValueError
                  "not enough values to unpack (expected 3, got 2)"));
      [done| |].
    + exists x. split; [done|].
      destruct (name_predicate x) as [key|e] eqn:Hn; [|by exists e].
      by destruct (Hfail key).
    + intros a e Ha He.
      apply adp_are_predicates in Ha as (n & op & v & args & -> & Hn).
      by apply name_predicate_error in He.
Qed.

(** X19. On a term with an ancestor/descendant predicate the rewriter
    changes the term of the part and nothing else: the new term is a merge
    term whose pre filter holds no such predicate and whose post filter holds
    all of them, in the order of the term. *)
Theorem rewrite_splits_term (p p' : Part) :
  has_ancestor_descendant resolved (p_term p) = true →
  rewrite_for_ancestors_descendants resolved p = Ok p' →
  ∃ before queries after,
    p' = replace_term p (MergeTerm before queries (Some after))
    ∧ has_ancestor_descendant resolved before = false
    ∧ ancestor_descendant_predicates resolved after
      = ancestor_descendant_predicates resolved (p_term p).
Proof.
  intros Had. unfold rewrite_for_ancestors_descendants. rewrite Had.
  destruct (rewrite_walk p Had) as (st & -> & Hb & Hadp). cbn [rbind].
  destruct (group_by _ _) as [predicates|e]; [|done]. cbn [rbind].
  intros [= <-]. by eexists _, _, _.
Qed.

End RewriteOutcome.

Lemma rewrite_outcome_witness :
  rewrite_for_ancestors_descendants []
    (Part_of (CombinedTerm (P_eq "ancestors.account" (JStr "x")) "or"
                           (P_eq "k" (JInt 1))))
  = Raise (ValueError "not enough values to unpack (expected 3, got 2)").
Proof.
  destruct (rewrite_outcome []
              (Part_of (CombinedTerm (P_eq "ancestors.account" (JStr "x"))
                                     "or" (P_eq "k" (JInt 1)))))
    as [_ H].
  destruct (H eq_refl) as [_ Hfail]. apply Hfail.
  exists (P_eq "ancestors.account" (JStr "x")).
  split; [by left|]. intros key. discriminate.
Defined.

Lemma rewrite_splits_term_witness :
  ∃ before queries after,
    Part_of
      (MergeTerm
         (P_eq "k" (JInt 1))
         [mkMergeQuery "ancestors.account"
            (mkQuery
               [Part_of (IsTerm ["account"]);
                mkPart AllTerm None None [] None
                  (Some (mkNavigation 1 Navigation_Max EdgeType.default
                                      Direction.inbound))]
               [] None)
            true]
         (Some (P_eq "ancestors.account.reported.name" (JStr "prod"))))
    = replace_term
        (Part_of (and_term
                    (P_eq "ancestors.account.reported.name" (JStr "prod"))
                    (P_eq "k" (JInt 1))))
        (MergeTerm before queries (Some after))
    ∧ has_ancestor_descendant [] before = false
    ∧ ancestor_descendant_predicates [] after
      = ancestor_descendant_predicates []
          (p_term (Part_of (and_term
                              (P_eq "ancestors.account.reported.name"
                                    (JStr "prod"))
                              (P_eq "k" (JInt 1))))).
Proof.
  apply (rewrite_splits_term []
           (Part_of (and_term
                       (P_eq "ancestors.account.reported.name" (JStr "prod"))
                       (P_eq "k" (JInt 1)))));
    reflexivity.
Defined.

(** ** The merge queries of a rewritten part *)

Section DictUpdateFacts.
Context {V : Type}.
Implicit Types (d e : Dict.t V) (k : string) (v : V).

Lemma dict_elem_of_update_inv d e k v :
  NoDup (Dict.keys d) →
  (k, v) ∈ Dict.update d e →
  (k, v) ∈ e ∨ ((k, v) ∈ d ∧ k ∉ Dict.keys e).
Proof.
  revert d. induction e as [|[k1 v1] e IH]; intros d Hnd.
  - intros H. right. split; [done|]. apply not_elem_of_nil.
  - rewrite dict_update_cons.
    intros [H|[H Hk]]%IH; [left; by right| |by apply dict_set_NoDup].
    apply dict_elem_of_set in H as [[= -> ->]|[H Hne]]; [| |done].
    + left. by left.
    + right. split; [done|]. cbn. intros [?|?]%elem_of_cons; done.
Qed.

Lemma dict_keys_update_elem d e k :
  k ∈ Dict.keys (Dict.update d e) ↔ k ∈ Dict.keys d ∨ k ∈ Dict.keys e.
Proof.
  revert d. induction e as [|[k1 v1] e IH]; intros d.
  - cbn. split; [by left|]. intros [?|H]; [done|by apply elem_of_nil in H].
  - rewrite dict_update_cons, IH, dict_keys_set. cbn.
    rewrite elem_of_cons. case_decide as Hin.
    + split; [tauto|]. intros [?|[->|?]]; tauto.
    + rewrite elem_of_app, list_elem_of_singleton. tauto.
Qed.

Lemma dict_key_has_value d k :
  k ∈ Dict.keys d → ∃ v, (k, v) ∈ d.
Proof.
  intros [[k' v] [-> H]]%list_elem_of_fmap. by exists v.
Qed.
End DictUpdateFacts.

Section RewriteMerge.
Variable resolved : list string.

Lemma by_name_from (queries : list MergeQuery) (k : string)
    (a : MergeQuery) :
  (k, a) ∈ by_name queries → a ∈ queries.
Proof.
  unfold by_name, Dict.of_items.
  intros [H|H]%dict_elem_of_update; [by apply elem_of_nil in H|].
  by apply list_elem_of_fmap in H as [y [[= -> ->] ?]].
Qed.

Lemma by_name_keys (queries : list MergeQuery) (k : string) :
  k ∈ Dict.keys (by_name queries) ↔ k ∈ map mq_name queries.
Proof.
  unfold by_name, Dict.of_items. rewrite dict_keys_update_elem.
  unfold Dict.keys. rewrite map_map. cbn. split.
  - intros [H|H]; [by apply elem_of_nil in H|done].
  - by right.
Qed.

Lemma keyed_names (d : Dict.t MergeQuery) :
  (∀ k a, (k, a) ∈ d → k = mq_name a) →
  map mq_name (Dict.values d) = Dict.keys d.
Proof.
  induction d as [|[k a] d IH]; intros H; [done|]. cbn. f_equal.
  - symmetry. apply H. by left.
  - apply IH. intros k' a' Hin. apply H. by right.
Qed.

(** X20. The merge list of a rewritten part has one query per name.  Every
    ancestor/descendant predicate of the term finds a query named
    [anc_dec.kind] in it.  Every name of the part's own merge list
    ([self.term.merge] when the term of the part is a [MergeTerm], empty
    otherwise) is still there, and a query of the new list is either one of
    that list or, under a name that list does not have, the query the
    rewriter creates for a predicate: the entries of the part's own list
    win, and nothing else enters, so the merge queries of a [MergeTerm]
    below the top of the term are not carried over. *)
Theorem rewrite_merge_queries (p p' : Part) :
  has_ancestor_descendant resolved (p_term p) = true →
  rewrite_for_ancestors_descendants resolved p = Ok p' →
  NoDup (map mq_name (Part_merge p'))
  ∧ (∀ x, x ∈ ancestor_descendant_predicates resolved (p_term p) →
          ∃ anc_dec kind mq,
            name_predicate x = Ok (anc_dec, kind)
            ∧ mq ∈ Part_merge p'
            ∧ mq_name mq = (anc_dec ++ "." ++ kind)%string)
  ∧ (∀ name, name ∈ map mq_name (Part_merge p) →
             name ∈ map mq_name (Part_merge p'))
  ∧ (∀ mq, mq ∈ Part_merge p' →
           mq ∈ Part_merge p
           ∨ ((mq_name mq ∉ map mq_name (Part_merge p))
              ∧ ∃ x key,
                  x ∈ ancestor_descendant_predicates resolved (p_term p)
                  ∧ name_predicate x = Ok key
                  ∧ mq = merge_query_for key)).
Proof.
  intros Had. unfold rewrite_for_ancestors_descendants. rewrite Had.
  destruct (rewrite_walk resolved p Had) as (st & -> & _ & Hadp).
  cbn [rbind]. rewrite Hadp.
  destruct (group_by _ _) as [predicates|e] eqn:Hg; [|done]. cbn [rbind].
  intros [= <-]. unfold Part_merge at 1 2 4. unfold replace_term.
  cbn [p_term]. fold (Part_merge p).
  apply group_by_fold_ok in Hg as (Hkeys & Hfrom & _ & _).
  set (created := by_name (map merge_query_for (map fst predicates))).
  set (d := Dict.update created (by_name (Part_merge p))).
  assert (NoDup (Dict.keys created)) as Hndc.
  { apply (dict_update_NoDup []), NoDup_nil_2. }
  assert (NoDup (Dict.keys d)) as Hnd by (by apply dict_update_NoDup).
  assert (∀ k a, (k, a) ∈ d → k = mq_name a) as Hkeyed.
  { intros k a [H|H]%dict_elem_of_update; by apply by_name_keyed in H. }
  split_and!.
  - by rewrite keyed_names.
  - intros x Hx. destruct (Hkeys x Hx) as ([anc_dec kind] & Hn & Hk).
    assert ((anc_dec ++ "." ++ kind)%string ∈ Dict.keys d) as Hin.
    { apply dict_keys_update_elem. left. apply by_name_keys.
      apply list_elem_of_fmap. exists (merge_query_for (anc_dec, kind)).
      split; [done|]. apply list_elem_of_fmap. by exists (anc_dec, kind). }
    apply dict_key_has_value in Hin as [mq Hmq].
    exists anc_dec, kind, mq. split; [done|]. split.
    + apply dict_elem_of_values. by eexists.
    + symmetry. by apply Hkeyed.
  - intros name Hname. rewrite keyed_names by done.
    apply dict_keys_update_elem. right. by apply by_name_keys.
  - intros mq [k Hmq]%dict_elem_of_values.
    apply dict_elem_of_update_inv in Hmq as [H|[H Hk]]; [| |done].
    + left. by apply by_name_from in H.
    + right. pose proof (by_name_keyed _ _ _ H) as ->. split.
      * intros Hc. apply Hk. by apply by_name_keys.
      * apply by_name_from in H.
        apply list_elem_of_fmap in H as (key & -> & Hkey).
        destruct (Hfrom key Hkey) as [Hc|(x & Hx & Hn)];
          [by apply elem_of_nil in Hc|].
        by exists x, key.
Qed.
End RewriteMerge.

Lemma rewrite_merge_queries_witness :
  let existing :=
    mkMergeQuery "ancestors.account" (mkQuery [Part_of AllTerm] [] None)
                 false in
  let p :=
    Part_of (MergeTerm
               (CombinedTerm (P_eq "k" (JInt 1)) "and"
                             (P_eq "ancestors.account.reported.kind"
                                   (JStr "prod")))
               [existing] None) in
  let p' :=
    Part_of (MergeTerm
               (P_eq "k" (JInt 1)) [existing]
               (Some (P_eq "ancestors.account.reported.kind"
                           (JStr "prod")))) in
  rewrite_for_ancestors_descendants sample_resolved p = Ok p'
  ∧ NoDup (map mq_name (Part_merge p'))
  ∧ (∀ name, name ∈ map mq_name (Part_merge p) →
             name ∈ map mq_name (Part_merge p'))
  ∧ ∀ mq, mq ∈ Part_merge p' →
          mq ∈ Part_merge p
          ∨ ((mq_name mq ∉ map mq_name (Part_merge p))
             ∧ ∃ x key,
                 x ∈ ancestor_descendant_predicates sample_resolved
                       (p_term p)
                 ∧ name_predicate x = Ok key
                 ∧ mq = merge_query_for key).
Proof.
  intros existing p p'.
  destruct (rewrite_merge_queries sample_resolved p p')
    as (Hnd & _ & Hkeep & Hfrom); [reflexivity|reflexivity|].
  split; [reflexivity|]. split; [exact Hnd|]. split; [exact Hkeep|].
  exact Hfrom.
Defined.

(** The merge queries of a [MergeTerm] below a conjunction are dropped when
    the walk enters it: the query [other] is not in the rewritten part. *)
Example rewrite_drops_nested_merge_queries :
  rewrite_for_ancestors_descendants sample_resolved
    (Part_of
       (CombinedTerm
          (MergeTerm
             (P_eq "ancestors.account.reported.kind" (JStr "prod"))
             [mkMergeQuery "other" (mkQuery [Part_of AllTerm] [] None) true]
             None)
          "and" (P_eq "k" (JInt 1))))
  = Ok (Part_of
          (MergeTerm
             (P_eq "k" (JInt 1))
             [merge_query_for ("ancestors"%string, "account"%string)]
             (Some (P_eq "ancestors.account.reported.kind" (JStr "prod"))))).
Proof. reflexivity. Qed.

(** ** Listing checks *)

Section DictFilter.
Context {V : Type}.
Implicit Types (d : Dict.t V) (k : string) (v : V).
Variable P : string * V → bool.

Lemma dict_filter_keys d k :
  k ∈ Dict.keys (List.filter P d) → k ∈ Dict.keys d.
Proof.
  intros [[k' v] [-> H]]%list_elem_of_fmap.
  apply list_elem_of_In, filter_In in H as [H _].
  apply list_elem_of_fmap. exists (k', v). split; [done|].
  by apply list_elem_of_In.
Qed.

Lemma dict_filter_NoDup d :
  NoDup (Dict.keys d) → NoDup (Dict.keys (List.filter P d)).
Proof.
  induction d as [|[k v] d IH]; cbn; [done|].
  intros [Hk Hnd]%NoDup_cons. destruct (P (k, v)); [|by apply IH].
  cbn. apply NoDup_cons. split; [|by apply IH].
  intros H. by apply dict_filter_keys in H.
Qed.

Lemma dict_pop_absent k d : k ∉ Dict.keys d → Dict.pop k d = d.
Proof.
  induction d as [|[k0 v0] d IH]; cbn; [done|].
  intros [Hne Hk]%not_elem_of_cons.
  rewrite (proj2 (String.eqb_neq _ _) Hne). by rewrite IH.
Qed.

Lemma dict_pop_filter k d :
  NoDup (Dict.keys d) →
  List.filter P (Dict.pop k d) = Dict.pop k (List.filter P d).
Proof.
  induction d as [|[k0 v0] d IH]; cbn; [done|].
  intros [Hk0 Hnd]%NoDup_cons.
  destruct (String.eqb_spec k k0) as [->|Hne].
  - destruct (P (k0, v0)); cbn.
    + by rewrite String.eqb_refl.
    + symmetry. apply dict_pop_absent. intros H.
      by apply dict_filter_keys in H.
  - cbn. destruct (P (k0, v0)); cbn.
    + rewrite (proj2 (String.eqb_neq _ _) Hne). by rewrite IH.
    + by apply IH.
Qed.

Lemma dict_set_after_pop k v d :
  NoDup (Dict.keys d) →
  Dict.set k v (Dict.pop k d) = Dict.pop k d ++ [(k, v)].
Proof.
  intros Hnd. apply dict_set_fresh.
  intros [v' H]%dict_key_has_value.
  by apply dict_elem_of_pop in H as [_ H].
Qed.
End DictFilter.

Lemma dict_keyed_values {V : Type} (key_of : V → string) (d : Dict.t V) :
  (∀ k a, (k, a) ∈ d → k = key_of a) →
  map key_of (Dict.values d) = Dict.keys d.
Proof.
  induction d as [|[k a] d IH]; intros H; [done|]. cbn. f_equal.
  - symmetry. apply H. by left.
  - apply IH. intros k' a' Hin. apply H. by right.
Qed.

Section FilterChecksFacts.
Variable report_filter : option (ReportCheck → bool).

Let keep (kv : string * ReportCheck) : bool := passes report_filter (snd kv).

Lemma filter_checks_step_filter (d : Dict.t ReportCheck) (c : ReportCheck) :
  NoDup (Dict.keys d) →
  filter_checks_step report_filter (List.filter keep d) c
  = List.filter keep (filter_checks_step None d c)
  ∧ NoDup (Dict.keys (filter_checks_step None d c)).
Proof.
  intros Hnd. unfold filter_checks_step. cbn [passes]. split.
  - rewrite <- dict_pop_filter by done.
    rewrite (dict_set_after_pop _ _ d Hnd), List.filter_app.
    cbn [List.filter].
    replace (keep (rc_id c, c)) with (passes report_filter c) by done.
    destruct (passes report_filter c).
    + apply dict_set_fresh. intros H%dict_filter_keys.
      apply dict_key_has_value in H as [v' H].
      by apply dict_elem_of_pop in H as [_ H].
    + by rewrite app_nil_r.
  - by apply dict_set_NoDup, dict_pop_NoDup.
Qed.

Lemma filter_checks_fold_filter (l : list ReportCheck)
    (d : Dict.t ReportCheck) :
  NoDup (Dict.keys d) →
  fold_left (filter_checks_step report_filter) l (List.filter keep d)
  = List.filter keep (fold_left (filter_checks_step None) l d).
Proof.
  revert d. induction l as [|c l IH]; intros d Hnd; [done|].
  cbn [fold_left].
  destruct (filter_checks_step_filter d c Hnd) as [-> Hnd'].
  by apply IH.
Qed.

Lemma filter_checks_as_filter (self : InspectorService) (st : Stores) :
  NoDup (map rc_id (Dict.values (checks_from_file self))) →
  filter_checks self st report_filter
  = List.filter (passes report_filter) (filter_checks self st None).
Proof.
  intros Hnd. unfold filter_checks.
  set (vals := Dict.values (checks_from_file self)) in *.
  assert (List.filter (passes None) vals = vals) as ->.
  { clear. induction vals as [|c vals IH]; [done|]. cbn. by rewrite IH. }
  assert (∀ l : list ReportCheck,
            NoDup (map rc_id l) →
            Dict.of_items (map (λ c, (rc_id c, c)) l)
            = map (λ c, (rc_id c, c)) l) as Hitems.
  { intros l Hl. apply (dict_update_fresh []). cbn.
    unfold Dict.keys. by rewrite map_map. }
  assert (NoDup (map rc_id (List.filter (passes report_filter) vals)))
    as Hndf.
  { clear -Hnd. induction vals as [|c vals IH]; [done|].
    cbn in Hnd. apply NoDup_cons in Hnd as [Hc Hnd]. cbn.
    destruct (passes report_filter c); [|by apply IH].
    cbn. apply NoDup_cons. split; [|by apply IH].
    intros [x [Hx Hin]]%list_elem_of_fmap. apply Hc.
    apply list_elem_of_fmap. exists x. split; [done|].
    by apply list_elem_of_In, filter_In in Hin as [?%list_elem_of_In _]. }
  rewrite !Hitems by done.
  assert (map (λ c, (rc_id c, c)) (List.filter (passes report_filter) vals)
          = List.filter keep (map (λ c, (rc_id c, c)) vals)) as ->.
  { clear. induction vals as [|c vals IH]; [done|]. cbn.
    unfold keep at 1. cbn [snd]. destruct (passes report_filter c); cbn;
      by rewrite IH. }
  rewrite filter_checks_fold_filter.
  - generalize (fold_left (filter_checks_step None) (report_check_db st)
                          (map (λ c, (rc_id c, c)) vals)).
    intros d. unfold Dict.values.
    induction d as [|[k c] d IH]; [done|]. cbn. unfold keep at 1. cbn [snd].
    destruct (passes report_filter c); cbn; by rewrite IH.
  - unfold Dict.keys. by rewrite map_map.
Qed.

Lemma filter_checks_fold_keyed (l : list ReportCheck)
    (d : Dict.t ReportCheck) :
  NoDup (Dict.keys d) →
  (∀ k x, (k, x) ∈ d → k = rc_id x) →
  NoDup (Dict.keys (fold_left (filter_checks_step report_filter) l d))
  ∧ ∀ k x, (k, x) ∈ fold_left (filter_checks_step report_filter) l d →
           k = rc_id x.
Proof.
  revert d. induction l as [|c l IH]; intros d Hnd Hkey; [done|].
  cbn [fold_left].
  destruct (filter_checks_step_spec report_filter d c Hnd Hkey)
    as [Hnd' Hstep].
  apply IH; [done|]. intros k x H. by apply Hstep.
Qed.
End FilterChecksFacts.

(** X21. When the predefined table holds one check per id, [list_checks]
    returns exactly the known checks that match every given selector, in the
    order of the unfiltered list: a stored check that shadows a predefined
    one is judged in its place. *)
Theorem list_checks_selects_known_checks
    (self : InspectorService) (st : Stores)
    (provider service category kind : option string)
    (check_ids : option (list string)) (context : option CheckContext)
    (ignored : option (list string)) :
  NoDup (map rc_id (Dict.values (checks_from_file self))) →
  list_checks self st provider service category kind check_ids context
              ignored
  = List.filter
      (inspection_matches provider service category kind check_ids context
                          ignored)
      (filter_checks self st None).
Proof.
  intros Hnd. unfold list_checks.
  by rewrite (filter_checks_as_filter _ self st Hnd).
Qed.

Lemma list_checks_selects_known_checks_witness :
  list_checks sample_service sample_stores (Some "aws"%string) None None None
              None None (Some ["good"%string])
  = List.filter
      (inspection_matches (Some "aws"%string) None None None None None
                          (Some ["good"%string]))
      (filter_checks sample_service sample_stores None).
Proof.
  apply list_checks_selects_known_checks.
  vm_compute. repeat constructor; cbn; intros H;
    repeat (apply elem_of_cons in H as [H|H]; [discriminate H|]);
    by apply elem_of_nil in H.
Defined.

(** X22. [filter_checks] never returns two checks with the same id, and every
    check it returns satisfies the filter. *)
Theorem filter_checks_distinct_and_filtered
    (self : InspectorService) (st : Stores)
    (report_filter : option (ReportCheck → bool)) :
  NoDup (map rc_id (filter_checks self st report_filter))
  ∧ ∀ c, c ∈ filter_checks self st report_filter →
         passes report_filter c = true.
Proof.
  unfold filter_checks.
  set (d0 := Dict.of_items _).
  assert (NoDup (Dict.keys d0)) as Hnd.
  { apply (dict_update_NoDup []), NoDup_nil_2. }
  assert (∀ k x, (k, x) ∈ d0 → k = rc_id x ∧ passes report_filter x = true)
    as Hd0.
  { intros k x [H|H]%dict_elem_of_update; [by apply elem_of_nil in H|].
    apply list_elem_of_fmap in H as [y [[= -> ->] Hy]]. split; [done|].
    by apply list_elem_of_In, filter_In in Hy as [_ ?]. }
  destruct (filter_checks_fold_keyed report_filter (report_check_db st) d0
              Hnd (λ k x H, proj1 (Hd0 k x H))) as [Hnd' Hkey'].
  split.
  - by rewrite (dict_keyed_values rc_id).
  - intros c [k Hc]%dict_elem_of_values.
    apply filter_checks_fold_spec in Hc as [[_ ?]|[Hc _]];
      [done| |done|].
    + by apply Hd0 in Hc as [_ ?].
    + intros k' x H. by apply Hd0 in H as [? _].
Qed.

(** X23. Severity gating: with a threshold and no other selector,
    [list_checks] returns a check exactly when it is a known check whose
    severity has at least the priority of the threshold. *)
Theorem list_checks_severity_gate
    (self : InspectorService) (st : Stores) (context : CheckContext)
    (threshold : ReportSeverity) (c : ReportCheck) :
  NoDup (map rc_id (Dict.values (checks_from_file self))) →
  ctx_severity context = Some threshold →
  c ∈ list_checks self st None None None None None (Some context) None
  ↔ c ∈ filter_checks self st None
    ∧ (prio threshold ≤ prio (rc_severity c))%Z.
Proof.
  intros Hnd Hsev. unfold list_checks.
  rewrite (filter_checks_as_filter _ self st Hnd).
  rewrite list_elem_of_In, filter_In, <- list_elem_of_In.
  unfold passes, inspection_matches, opt_all, includes_severity.
  rewrite Hsev. cbn [andb]. by rewrite andb_true_r, Z.leb_le.
Qed.

Lemma list_checks_severity_gate_witness :
  sample_check "good" "volume" sev_high
  ∈ list_checks sample_service sample_stores None None None None None
      (Some (mkCheckContext None (Some sev_medium) false 10)) None
  ↔ sample_check "good" "volume" sev_high
    ∈ filter_checks sample_service sample_stores None
    ∧ (prio sev_medium ≤ prio (rc_severity
                                  (sample_check "good" "volume" sev_high)))%Z.
Proof.
  apply list_checks_severity_gate; [|reflexivity].
  vm_compute. repeat constructor; cbn; intros H;
    repeat (apply elem_of_cons in H as [H|H]; [discriminate H|]);
    by apply elem_of_nil in H.
Defined.

(** ** A raising check ends the batch *)

(** X24. If the evaluation of one of its checks raises, the whole
    [perform_benchmarks] call raises, with the exception of a check of the
    batch, whether or not other checks succeed and whatever the sync flag. *)
Theorem perform_benchmarks_aborts_on_raising_check
    (self : InspectorService) (st : Stores) (graph : string)
    (names : list string) (accounts : option (list string))
    (severity : option ReportSeverity) (only_failing sync : bool)
    (run_id : option string) :
  let context := mkCheckContext accounts severity only_failing 10 in
  let checks := benchmark_checks self st names context in
  let outcome c :=
    list_failing_resources_ self graph c (report_config self) context in
  (∃ c, c ∈ checks ∧ is_Some (out_raised (outcome c))) →
  ∃ e c',
    fst (perform_benchmarks self st graph names accounts severity
                            only_failing sync run_id)
    = Raise e
    ∧ c' ∈ checks
    ∧ out_raised (outcome c') = Some e.
Proof.
  cbn zeta. intros Hraise.
  destruct (perform_checks_fold_aborts self graph _ _ _ [] [] Hraise)
    as (e & c' & log' & Hf & Hc' & He).
  exists e, c'. split; [|done].
  assert (perform_checks self graph
            (benchmark_checks self st names
               (mkCheckContext accounts severity only_failing 10))
            (mkCheckContext accounts severity only_failing 10)
            (report_config self)
          = (Raise e, log')) as Hp by exact Hf.
  unfold perform_benchmarks. cbn zeta. by rewrite Hp.
Qed.

Lemma perform_benchmarks_aborts_on_raising_check_witness :
  ∃ e c',
    fst (perform_benchmarks sample_service sample_stores "graph"
                            ["user_defined"%string] None None false true None)
    = Raise e
    ∧ c' ∈ benchmark_checks sample_service sample_stores
            ["user_defined"%string] (mkCheckContext None None false 10)
    ∧ out_raised
        (list_failing_resources_ sample_service "graph" c'
           (report_config sample_service)
           (mkCheckContext None None false 10))
      = Some e.
Proof.
  apply (perform_benchmarks_aborts_on_raising_check sample_service
           sample_stores "graph" ["user_defined"%string] None None false true
           None).
  exists (sample_cmd_check "cli_boom" "boom"). split.
  - vm_compute. right. left.
  - vm_compute. by eexists.
Defined.

(** X25. A search raises only from its parser: when the template expander
    returns queries with at least one part, an exception leaves
    [perform_search] exactly when the parse of the detection raises it,
    with or without an account filter. *)
Theorem perform_search_raises_only_from_parser
    (self : InspectorService) (graph : string) (env : Env)
    (context : CheckContext) (search : string) :
  (∀ q, parse_query self search "reported" env = Ok q → q_parts q ≠ []) →
  out_raised (perform_search self graph env context search)
  = match parse_query self search "reported" env with
    | Raise e => Some e
    | Ok _ => None
    end.
Proof.
  intros Hwf. unfold perform_search, prepare_search.
  destruct (parse_query self search "reported" env) as [q|e]; [|done].
  cbn [rbind]. specialize (Hwf q eq_refl).
  assert (∃ q', (if truthy_list (ctx_accounts context)
                 then try! by_account ←
                        Query_by
                          (ArgTerm
                             (P_is_in account_id_prop
                                (map JStr
                                   (default [] (ctx_accounts context)))))
                          [] None;
                      Query_combine by_account q
                 else Ok q) = Ok q') as [q' ->].
  { destruct (truthy_list (ctx_accounts context)); [|by eexists].
    assert (∀ t, Query_by (ArgTerm t) [] None
                 = Ok (mkQuery [Part_of t] [] None)) as -> by done.
    cbn [rbind].
    destruct (q_parts q) as [|last init _] eqn:Hparts using rev_ind;
      [done|].
    rewrite (combine_by_term _ q init last Hparts). by eexists. }
  by destruct (search_list self graph q') as [cursor|e].
Qed.

Lemma perform_search_raises_only_from_parser_witness :
  out_raised (perform_search sample_service "graph" []
                (mkCheckContext (Some ["sub_root"%string]) None false 10)
                "volume")
  = match parse_query sample_service "volume" "reported" [] with
    | Raise e => Some e
    | Ok _ => None
    end.
Proof.
  apply perform_search_raises_only_from_parser.
  intros q. vm_compute. by intros [= <-].
Defined.

(** ** The benchmark store *)

Lemma validate_benchmark_nil (self : InspectorService) (st : Stores)
    (b : Benchmark) :
  validate_benchmark self st b = []
  ↔ ∀ check, check ∈ nested_checks b →
             check ∈ map rc_id (filter_checks self st None).
Proof.
  unfold validate_benchmark.
  induction (nested_checks b) as [|check checks IH]; cbn.
  - split; [|done]. intros _ check H. by apply elem_of_nil in H.
  - case_bool_decide as Hin; cbn.
    + rewrite IH. split.
      * intros H c [->|Hc]%elem_of_cons; auto.
      * intros H c Hc. apply H. by right.
    + split; [done|]. intros H. exfalso. apply Hin, H. by left.
Qed.

(** X26. What [update_benchmark] does with a benchmark that is not
    predefined: when every check it names, at any depth, is a known check
    the benchmark is handed to the store and returned; otherwise the call
    raises a [ValueError] and no call reaches the store. *)
Theorem update_benchmark_outcome
    (self : InspectorService) (st : Stores) (b : Benchmark) :
  benchmarks_from_file self !! b_id b = None →
  ((∀ check, check ∈ nested_checks b →
             check ∈ map rc_id (filter_checks self st None)) →
   update_benchmark self b st = (Ok b, benchmark_db_update b st))
  ∧ ((∃ check, check ∈ nested_checks b
               ∧ check ∉ map rc_id (filter_checks self st None)) →
     ∃ msg, update_benchmark self b st = (Raise (ValueError msg), st)).
Proof.
  intros Hfile. unfold update_benchmark.
  rewrite bool_decide_eq_false_2 by (rewrite Hfile; apply is_Some_None).
  split.
  - intros Hall. by rewrite (proj2 (validate_benchmark_nil self st b) Hall).
  - intros (check & Hc & Hunknown).
    destruct (validate_benchmark self st b) as [|err errs] eqn:Hv.
    + exfalso. apply Hunknown.
      by apply (proj1 (validate_benchmark_nil self st b) Hv).
    + by eexists.
Qed.

Lemma update_benchmark_outcome_witness :
  update_benchmark sample_service (sample_benchmark "mine" ["good"; "extra"])
                   sample_stores
  = (Ok (sample_benchmark "mine" ["good"; "extra"]),
     benchmark_db_update (sample_benchmark "mine" ["good"; "extra"])
                         sample_stores)
  ∧ ∃ msg,
      update_benchmark sample_service (sample_benchmark "other" ["nope"])
                       sample_stores
      = (Raise (ValueError msg), sample_stores).
Proof.
  split.
  - apply (update_benchmark_outcome sample_service sample_stores
             (sample_benchmark "mine" ["good"; "extra"])).
    + vm_compute. reflexivity.
    + intros check Hc. vm_compute in Hc. vm_compute.
      repeat (apply elem_of_cons in Hc as [->|Hc]);
        [| |by apply elem_of_nil in Hc];
        repeat (first [by left | right]).
  - apply (update_benchmark_outcome sample_service sample_stores
             (sample_benchmark "other" ["nope"])).
    + vm_compute. reflexivity.
    + exists "nope"%string. split; [by left|]. vm_compute. intros H.
      repeat (apply elem_of_cons in H as [H|H]; [discriminate H|]).
      by apply elem_of_nil in H.
Defined.

(** X27. Store round trips: after a successful [update_benchmark] the
    benchmark is found under its id, and after a successful
    [delete_benchmark] nothing is found under the deleted id; in both cases
    every other id resolves as before. *)
Theorem benchmark_store_round_trip
    (self : InspectorService) (st st' : Stores) (b b' : Benchmark)
    (bid : string) :
  (update_benchmark self b st = (Ok b', st') →
   b' = b
   ∧ benchmark self st' (b_id b) = Some b
   ∧ ∀ other, other ≠ b_id b →
              benchmark self st' other = benchmark self st other)
  ∧ (delete_benchmark self bid st = (Ok (), st') →
     benchmark self st' bid = None
     ∧ ∀ other, other ≠ bid →
                benchmark self st' other = benchmark self st other).
Proof.
  split.
  - unfold update_benchmark. case_bool_decide as Hfile; [done|].
    destruct (validate_benchmark self st b); [|done].
    intros [= <- <-]. unfold benchmark, benchmark_db_update.
    cbn [benchmark_db]. split; [done|]. split.
    + by rewrite lookup_insert_eq.
    + intros other Hne. by rewrite lookup_insert_ne.
  - unfold delete_benchmark. case_bool_decide as Hfile; [done|].
    intros [= <-]. unfold benchmark, benchmark_db_delete.
    cbn [benchmark_db]. split.
    + rewrite lookup_delete_eq.
      destruct (benchmarks_from_file self !! bid) eqn:Hb; [|done].
      exfalso. apply Hfile. by eexists.
    + intros other Hne. by rewrite lookup_delete_ne.
Qed.

Lemma benchmark_store_round_trip_witness :
  benchmark sample_service
            (benchmark_db_delete "user_defined" sample_stores)
            "user_defined"
  = None.
Proof.
  destruct (benchmark_store_round_trip sample_service sample_stores
              (benchmark_db_delete "user_defined" sample_stores)
              (sample_benchmark "x" []) (sample_benchmark "x" [])
              "user_defined") as [_ H].
  destruct H as [H _]; [vm_compute; reflexivity|exact H].
Defined.

(** X28. [__benchmarks] resolves the names it is given and leaves out, with
    no error, those that resolve to nothing: a name is a key of the result
    only if it was asked for, and then its value is the benchmark of the
    store or, when the store has none, the predefined one. *)
Theorem benchmarks_by_name_lookup
    (self : InspectorService) (st : Stores) (names : list string)
    (name : string) :
  Dict.get name (benchmarks_by_name self st names)
  = if bool_decide (name ∈ names) then benchmark self st name else None.
Proof.
  unfold benchmarks_by_name.
  assert (∀ acc : Dict.t Benchmark,
            Dict.get name
              (fold_left (λ result name,
                            match benchmark self st name with
                            | Some b => Dict.set name b result
                            | None => result
                            end) names acc)
            = if bool_decide (name ∈ names)
              then match benchmark self st name with
                   | Some b => Some b
                   | None => Dict.get name acc
                   end
              else Dict.get name acc) as H.
  { induction names as [|n names IH]; intros acc; [done|].
    cbn [fold_left]. rewrite IH.
    destruct (decide (name = n)) as [->|Hne].
    - rewrite (bool_decide_eq_true_2 (n ∈ n :: names)) by left.
      destruct (benchmark self st n) as [b|] eqn:Hb.
      + rewrite dict_get_set_eq. by case_bool_decide.
      + by case_bool_decide.
    - assert (Dict.get name
                (match benchmark self st n with
                 | Some b => Dict.set n b acc
                 | None => acc
                 end) = Dict.get name acc) as ->.
      { destruct (benchmark self st n); [|done].
        by apply dict_get_set_ne. }
      destruct (decide (name ∈ names)) as [Hin|Hnin].
      + rewrite !bool_decide_eq_true_2; [done|by right|done].
      + rewrite !bool_decide_eq_false_2; [done| |done].
        intros [?|?]%elem_of_cons; done. }
  rewrite H. cbn. case_bool_decide; [|done].
  by destruct (benchmark self st name).
Qed.
